(** * JARVIS-Assist: the real-time duplex audio session

    A shallow embedding of [src/utils/audioUtils.ts] (the audio helpers and
    the [LiveAssistantService] object that follows them in the same file),
    together with [getJarvisPrefix] of [src/utils/jarvisPersona.ts] and the
    two prefixes of the constants module.  The development then follows
    the rest of the service code of that file ([formatErrorForUI],
    [handleGeminiError], [handleTaskCommand], [searchGrounding],
    [mapsGrounding]), the [TaskService] that [handleTaskCommand] drives
    ([src/unnamed/part_006]) and the text that the [JARSISOutput] component
    shows for a reply ([src/unnamed/part_005]).

    Conventions of the embedding.
    - A JavaScript string is a [string] of Rocq: a sequence of code units,
      here restricted to the code units 0..255 that an [ascii] can hold.
    - A [Uint8Array] is a [list byte]; an [Int16Array] is a [list Z] whose
      elements lie in [-32768, 32767].
    - A JavaScript number is a [number]: a finite value carried as a
      rational of [Q], or one of the non-finite values.  Every finite
      [double] is a rational, so the embedding covers all finite inputs.
    - A time of the audio clock is a double, carried as the rational it
      denotes.  The sum and the quotient that the code computes on times
      are rounded to the nearest double, ties to even ([to_double]), with
      the 53 bits and the subnormal floor of the format.  The format is
      taken without its upper bound, as the times of an audio clock stay far
      below 2^1024 seconds, and the sign of a zero is not kept.
    - State is threaded explicitly: a handler is a function from [World] to
      an outcome and a [World].  The world is the [LiveAssistantState]
      record of the source plus what the platform keeps for it: the trace of
      calls made on devices, callbacks and the channel, and the reactions
      registered with [then] on the session promise that have not run yet.
    - [console] output is not part of the trace. *)

From Stdlib Require Import ZArith NArith QArith List String Ascii Bool Lia.
From Stdlib Require Import Qround Qabs Qpower Lqa.
From Stdlib Require Import DecimalString.
From Stdlib Require Import Sorted Permutation.
From Stdlib Require Import DecimalN.
From Stdlib.Strings Require Import Byte.
Import ListNotations.

Set Implicit Arguments.

(* ================================================================== *)
(** * Part I.  Definitions *)
(* ================================================================== *)

(** ** Platform: [btoa] and [atob]

    These two are browser built-ins; they are embedded after the HTML
    standard ([btoa]: RFC 4648 base64 with padding; [atob]: the
    "forgiving-base64 decode" of the Infra standard). *)

Module Base64.

Local Open Scope N_scope.

Definition alphabet : string :=
  "ABCDEFGHIJKLMNOPQRSTUVWXYZabcdefghijklmnopqrstuvwxyz0123456789+/".

(** The character that stands for a six-bit value. *)
Definition sextet_char (n : N) : ascii :=
  match String.get (N.to_nat n) alphabet with
  | Some c => c
  | None => "/"%char
  end.

Fixpoint index_from (c : ascii) (s : string) (i : N) : option N :=
  match s with
  | EmptyString => None
  | String d r => if Ascii.eqb c d then Some i else index_from c r (N.succ i)
  end.

(** The six-bit value of a character of the alphabet. *)
Definition char_sextet (c : ascii) : option N := index_from c alphabet 0.

Definition pad : ascii := "="%char.

Definition is_pad (c : ascii) : bool := Ascii.eqb c pad.

(** Three octets give four characters; a last group of one or two
    octets is completed with zero bits and padded with [=]. *)
Fixpoint encode_octets (l : list N) : list ascii :=
  match l with
  | a :: b :: c :: r =>
      sextet_char (a / 4)
      :: sextet_char ((a mod 4) * 16 + b / 16)
      :: sextet_char ((b mod 16) * 4 + c / 64)
      :: sextet_char (c mod 64)
      :: encode_octets r
  | [a; b] =>
      [sextet_char (a / 4);
       sextet_char ((a mod 4) * 16 + b / 16);
       sextet_char ((b mod 16) * 4);
       pad]
  | [a] =>
      [sextet_char (a / 4); sextet_char ((a mod 4) * 16); pad; pad]
  | [] => []
  end.

(** [btoa] raises [InvalidCharacterError] on a code unit above 255; a
    [string] holds none, so the embedding is total. *)
Definition btoa (s : string) : string :=
  string_of_list_ascii
    (encode_octets (map N_of_ascii (list_ascii_of_string s))).

(** ASCII whitespace: TAB, LF, FF, CR and SPACE. *)
Definition is_ascii_whitespace (c : ascii) : bool :=
  match N_of_ascii c with
  | 9 | 10 | 12 | 13 | 32 => true
  | _ => false
  end.

(** "If data ends with one or two U+003D (=) code points, remove them." *)
Fixpoint strip_padding (l : list ascii) : list ascii :=
  match l with
  | [] => []
  | c :: r =>
      match r with
      | [] => if is_pad c then [] else [c]
      | [d] => if is_pad c && is_pad d then [] else c :: strip_padding r
      | _ => c :: strip_padding r
      end
  end.

Fixpoint sextets_of (l : list ascii) : option (list N) :=
  match l with
  | [] => Some []
  | c :: r =>
      match char_sextet c, sextets_of r with
      | Some n, Some ns => Some (n :: ns)
      | _, _ => None
      end
  end.

(** The bit buffer of the standard: every 24 bits give three octets; at
    the end 12 bits give one octet (the last four are discarded) and 18
    bits give two (the last two are discarded). *)
Fixpoint decode_sextets (l : list N) : list N :=
  match l with
  | a :: b :: c :: d :: r =>
      let n := ((a * 64 + b) * 64 + c) * 64 + d in
      n / 65536 :: (n / 256) mod 256 :: n mod 256 :: decode_sextets r
  | [a; b; c] =>
      let n := (((a * 64 + b) * 64 + c) / 4) in
      [n / 256; n mod 256]
  | [a; b] => [(a * 64 + b) / 16]
  | _ => []
  end.

(** [None] stands for the [InvalidCharacterError] that [atob] raises. *)
Definition atob (s : string) : option string :=
  let data :=
    filter (fun c => negb (is_ascii_whitespace c)) (list_ascii_of_string s) in
  let data :=
    if (Nat.modulo (List.length data) 4 =? 0)%nat
    then strip_padding data else data in
  if (Nat.modulo (List.length data) 4 =? 1)%nat then None
  else
    match sextets_of data with
    | None => None
    | Some sx => Some (string_of_list_ascii (map ascii_of_N (decode_sextets sx)))
    end.

(** The sextets that [encode_octets] writes, without the padding. *)
Fixpoint octet_sextets (l : list N) : list N :=
  match l with
  | a :: b :: c :: r =>
      a / 4 :: (a mod 4) * 16 + b / 16 :: (b mod 16) * 4 + c / 64
        :: c mod 64 :: octet_sextets r
  | [a; b] => [a / 4; (a mod 4) * 16 + b / 16; (b mod 16) * 4]
  | [a] => [a / 4; (a mod 4) * 16]
  | [] => []
  end.

Definition octets (l : list N) : Prop := Forall (fun a => a < 256) l.

End Base64.

(** ** [decodeBase64] and [encodeBase64] *)

(** Storing a number in a [Uint8Array] keeps it modulo 256. *)
Definition uint8 (n : N) : byte :=
  match Byte.of_N (n mod 256) with
  | Some b => b
  | None => x00
  end.

(** [s.charCodeAt(i)]; out of range it is [NaN], which a typed array
    stores as 0. *)
Definition charCodeAt (s : string) (i : nat) : N :=
  match String.get i s with
  | Some c => N_of_ascii c
  | None => 0%N
  end.

Definition fromCharCode (n : N) : string :=
  String (ascii_of_N n) EmptyString.

(** [decodeBase64]: [None] when [atob] raises. *)
Definition decodeBase64 (base64 : string) : option (list byte) :=
  match Base64.atob base64 with
  | None => None
  | Some binaryString =>
      let len := String.length binaryString in
      Some (map (fun i => uint8 (charCodeAt binaryString i)) (seq 0 len))
  end.

Definition encodeBase64 (bytes : list byte) : string :=
  let binary :=
    fold_left (fun binary b => (binary ++ fromCharCode (Byte.to_N b))%string)
              bytes EmptyString in
  Base64.btoa binary.

(** ** Numbers and typed arrays *)

Inductive number : Type :=
| Finite (q : Q)
| Infinity (negative : bool)
| NaN.

Definition number_mul (x : number) (k : Q) : number :=
  match x with
  | Finite q => Finite (q * k)
  | other => other
  end.

(** Truncation towards zero of a rational. *)
Definition Qtrunc (q : Q) : Z := Z.quot (Qnum q) (Zpos (Qden q)).

(** ECMAScript [ToInt16], the conversion applied when a number is stored
    in an [Int16Array]. *)
Definition ToInt16 (v : number) : Z :=
  match v with
  | Finite q =>
      let int16bit := ((Qtrunc q) mod 65536)%Z in
      if (32768 <=? int16bit)%Z then (int16bit - 65536)%Z else int16bit
  | _ => 0%Z
  end.

(** The bytes of an [Int16Array] buffer, low byte first. *)
Definition int16_bytes (v : Z) : list byte :=
  let u := Z.to_N (v mod 65536) in
  [uint8 (u mod 256); uint8 (u / 256)].

Definition Uint8Array_of_Int16 (int16 : list Z) : list byte :=
  flat_map int16_bytes int16.

Definition int16_of_bytes (lo hi : byte) : Z :=
  let u := (Z.of_N (Byte.to_N lo) + 256 * Z.of_N (Byte.to_N hi))%Z in
  if (32768 <=? u)%Z then (u - 65536)%Z else u.

Fixpoint int16_pairs (data : list byte) : list Z :=
  match data with
  | lo :: hi :: r => int16_of_bytes lo hi :: int16_pairs r
  | _ => []
  end.

(** [new Int16Array(buffer)] raises a [RangeError] when the byte length is
    odd. *)
Definition Int16Array_of_buffer (data : list byte) : option (list Z) :=
  if Nat.even (List.length data) then Some (int16_pairs data) else None.

(** ** [createPcmBlob] *)

Record Blob : Type := mkBlob { blob_data : string; mimeType : string }.

Definition createPcmBlob (data : list number) : Blob :=
  let int16 := map (fun x => ToInt16 (number_mul x 32768)) data in
  {| blob_data := encodeBase64 (Uint8Array_of_Int16 int16);
     mimeType := "audio/pcm;rate=16000" |}.

(** ** Constants and persona ([constants], [jarvisPersona.ts]) *)

Definition JARVIS_PREFIX : string := "Indeed, Sir.".

Definition JARVIS_ERROR_PREFIX : string :=
  "System status: Operational anomaly detected.".

(** [hour] is the reading of [new Date().getHours()]. *)
Definition getJarvisPrefix (hour : nat) : string :=
  if (hour <? 12)%nat then JARVIS_PREFIX
  else if (hour <? 18)%nat then JARVIS_PREFIX
  else JARVIS_PREFIX.

(** ** Strings of the platform *)

(** White space and line terminators of ECMAScript among the code units
    0..255. *)
Definition is_white_space (c : ascii) : bool :=
  match N_of_ascii c with
  | 9 | 10 | 11 | 12 | 13 | 32 | 160 => true
  | _ => false
  end%N.

Fixpoint trimStart (s : string) : string :=
  match s with
  | EmptyString => EmptyString
  | String c r => if is_white_space c then trimStart r else s
  end.

Definition reverse (s : string) : string :=
  string_of_list_ascii (rev (list_ascii_of_string s)).

Definition trimEnd (s : string) : string := reverse (trimStart (reverse s)).

(** [s.trim()] *)
Definition trim (s : string) : string := trimEnd (trimStart s).

(** A string is truthy when it is not empty. *)
Definition truthy (s : string) : bool := negb (String.eqb s EmptyString).

(** Decimal digits of a number inside a template literal. *)
Definition decimal (n : N) : string := NilZero.string_of_uint (N.to_uint n).

(** ** Results *)

(** A call returns a value or raises an error, carried here by its
    message. *)
Inductive Result (A : Type) : Type :=
| Returned (a : A)
| Thrown (error : string).

Arguments Returned {A} a.
Arguments Thrown {A} error.

(** ** Doubles

    The arithmetic of the language on finite numbers: the exact result,
    rounded to the nearest number that a double can hold.  A double is
    [m * 2^e] with [|m| < 2^53] and [e >= -1074]. *)

(** The [e] with [2^e <= q < 2^(e+1)], for a positive [q]. *)
Definition Qfloor_log2 (q : Q) : Z :=
  let e := (Z.log2 (Qnum q) - Z.log2 (Zpos (Qden q)))%Z in
  if Qle_bool (2 ^ e)%Q q then e else (e - 1)%Z.

(** The nearest integer; of two equally near, the even one. *)
Definition round_half_even (q : Q) : Z :=
  let k := Qfloor q in
  match ((q - inject_Z k) ?= (1 # 2))%Q with
  | Lt => k
  | Gt => (k + 1)%Z
  | Eq => if Z.even k then k else (k + 1)%Z
  end.

(** The exponent of the unit in the last place of the doubles around
    [q]: 53 bits, and no unit under [2^-1074]. *)
Definition ulp_exponent (q : Q) : Z := Z.max (Qfloor_log2 q - 52) (-1074).

Definition to_double (q : Q) : Q :=
  if Qeq_bool q 0 then 0%Q
  else
    let e := ulp_exponent (Qabs q) in
    Qred (inject_Z (round_half_even (q * 2 ^ (- e))%Q) * 2 ^ e)%Q.

(** The numbers that a double holds. *)
Definition is_double (q : Q) : Prop := (to_double q == q)%Q.

(** ** Audio objects *)

Record AudioBuffer : Type := mkAudioBuffer {
  numberOfChannels : positive;
  frames : nat;                       (* [length], in sample frames *)
  sampleRate : positive;
  channels : list (list Q)            (* [getChannelData(c)] *)
}.

(** [audioBuffer.duration], in seconds: the quotient of the length and
    the sample rate, as a double. *)
Definition duration (b : AudioBuffer) : Q :=
  to_double (Z.of_nat (frames b) # sampleRate b).

Record AudioContext : Type := mkAudioContext { context_sampleRate : positive }.

(** [ctx.createBuffer]: a silent buffer; a length of zero frames raises
    [NotSupportedError]. *)
Definition createBuffer (ctx : AudioContext) (numChannels : positive)
    (frameCount : nat) (rate : positive) : Result AudioBuffer :=
  match frameCount with
  | O => Thrown "NotSupportedError"
  | _ =>
      Returned
        {| numberOfChannels := numChannels;
           frames := frameCount;
           sampleRate := rate;
           channels := repeat (repeat 0%Q frameCount) (Pos.to_nat numChannels) |}
  end.

(** The two nested loops of [decodeAudioData]: sample [i] of channel
    [channel] is [dataInt16[i * numChannels + channel] / 32768.0]. *)
Definition fill_channel (dataInt16 : list Z) (numChannels frameCount : nat)
    (channel : nat) : list Q :=
  map (fun i => (nth (i * numChannels + channel) dataInt16 0%Z) # 32768)
      (seq 0 frameCount).

Definition decodeAudioData (data : list byte) (ctx : AudioContext)
    (rate : positive) (numChannels : positive) : Result AudioBuffer :=
  match Int16Array_of_buffer data with
  | None => Thrown "RangeError"
  | Some dataInt16 =>
      let frameCount := Nat.div (List.length dataInt16) (Pos.to_nat numChannels) in
      match createBuffer ctx numChannels frameCount rate with
      | Thrown e => Thrown e
      | Returned buffer =>
          Returned
            {| numberOfChannels := numberOfChannels buffer;
               frames := frames buffer;
               sampleRate := sampleRate buffer;
               channels :=
                 map (fill_channel dataInt16 (Pos.to_nat numChannels) frameCount)
                     (seq 0 (Pos.to_nat numChannels)) |}
      end
  end.

(** An [AudioBufferSourceNode]: its identity, its buffer and whether
    [start] was called on it. *)
Record AudioBufferSourceNode : Type := mkSource {
  source_id : nat;
  source_buffer : option AudioBuffer;
  started : bool
}.

Record MediaStream : Type := mkMediaStream { getTracks : list nat }.

Record ScriptProcessorNode : Type := mkScriptProcessor {
  bufferSize : N;
  handler_attached : bool             (* [onaudioprocess] is set *)
}.

Inductive MediaStreamAudioSourceNode : Type := mediaStreamSource.

Inductive GainNode : Type := gainNode.

Inductive AudioNode : Type :=
| InputSource
| ScriptProcessor
| OutputGain
| BufferSource (source : nat)
| InputDestination
| OutputDestination.

(** ** Messages of the channel *)

Inductive Sender : Type := user | jarvis.

(** [ChatMessage] of [types.ts]; the optional fields are never set by
    the session. *)
Record ChatMessage : Type := mkChatMessage {
  chat_id : string;
  chat_sender : Sender;
  chat_text : string
}.

Record Transcription : Type := mkTranscription {
  transcription_text : option string
}.

Record InlineData : Type := mkInlineData { inline_data : option string }.

Record Part : Type := mkPart { inlineData : option InlineData }.

Record Content : Type := mkContent { parts : option (list Part) }.

Record ServerContent : Type := mkServerContent {
  outputTranscription : option Transcription;
  inputTranscription : option Transcription;
  turnComplete : bool;
  modelTurn : option Content;
  interrupted : bool
}.

Record FunctionCall : Type := mkFunctionCall {
  call_id : string;
  call_name : string;
  call_args : string
}.

Record ToolCall : Type := mkToolCall { functionCalls : list FunctionCall }.

Record LiveServerMessage : Type := mkMessage {
  serverContent : option ServerContent;
  toolCall : option ToolCall
}.

(** ** The world *)

Definition Promise : Type := nat.

Record LiveAssistantState : Type := mkState {
  isConnecting : bool;
  isConnected : bool;
  transcriptionHistory : list ChatMessage;
  currentInputTranscription : string;
  currentOutputTranscription : string;
  microphoneStream : option MediaStream;
  inputAudioContext : option AudioContext;
  outputAudioContext : option AudioContext;
  inputScriptProcessor : option ScriptProcessorNode;
  inputAudioSource : option MediaStreamAudioSourceNode;
  outputGainNode : option GainNode;
  playbackNextStartTime : Q;
  activeAudioSources : list AudioBufferSourceNode;   (* a [Set], in insertion order *)
  sessionPromise : option Promise
}.

(** Calls that leave the service: the callbacks given to [init], the
    methods of devices and nodes, and the methods of the session. *)
Inductive Event : Type :=
| onTranscription (text : string) (isUser : bool)
| onAudioPlayback
| onError (error : string)
| onClose
| track_stop (track : nat)
| context_close (ctx : AudioContext)
| node_connect (node destination : AudioNode)
| node_disconnect (node : AudioNode)
| source_start (source : nat) (when : Q)
| source_stop (source : nat)
| session_sendRealtimeInput (session : nat) (media : Blob)
| session_sendToolResponse (session : nat) (id name result : string)
| session_close (session : nat).

(** What a callback passed to [sessionPromise.then] does once it runs. *)
Inductive Reaction : Type :=
| thenSendRealtimeInput (media : Blob)
| thenSendToolResponse (id name result : string)
| thenClose.

Record World : Type := mkWorld {
  state : LiveAssistantState;
  trace : list Event;
  reactions : list (Promise * Reaction);   (* registered, not yet run *)
  created : nat                            (* source nodes created so far *)
}.

Definition initial_state : LiveAssistantState :=
  {| isConnecting := false;
     isConnected := false;
     transcriptionHistory := [];
     currentInputTranscription := "";
     currentOutputTranscription := "";
     microphoneStream := None;
     inputAudioContext := None;
     outputAudioContext := None;
     inputScriptProcessor := None;
     inputAudioSource := None;
     outputGainNode := None;
     playbackNextStartTime := 0;
     activeAudioSources := [];
     sessionPromise := None |}.

Definition initial_world : World :=
  {| state := initial_state; trace := []; reactions := []; created := 0 |}.

(** *** Assignments to the fields of [LiveAssistantService.state] *)

Section Assignments.

Variable s : LiveAssistantState.

Definition set_isConnecting v := mkState v (isConnected s)
  (transcriptionHistory s) (currentInputTranscription s)
  (currentOutputTranscription s) (microphoneStream s) (inputAudioContext s)
  (outputAudioContext s) (inputScriptProcessor s) (inputAudioSource s)
  (outputGainNode s) (playbackNextStartTime s) (activeAudioSources s)
  (sessionPromise s).

Definition set_isConnected v := mkState (isConnecting s) v
  (transcriptionHistory s) (currentInputTranscription s)
  (currentOutputTranscription s) (microphoneStream s) (inputAudioContext s)
  (outputAudioContext s) (inputScriptProcessor s) (inputAudioSource s)
  (outputGainNode s) (playbackNextStartTime s) (activeAudioSources s)
  (sessionPromise s).

Definition set_transcriptionHistory v := mkState (isConnecting s)
  (isConnected s) v (currentInputTranscription s)
  (currentOutputTranscription s) (microphoneStream s) (inputAudioContext s)
  (outputAudioContext s) (inputScriptProcessor s) (inputAudioSource s)
  (outputGainNode s) (playbackNextStartTime s) (activeAudioSources s)
  (sessionPromise s).

Definition set_currentInputTranscription v := mkState (isConnecting s)
  (isConnected s) (transcriptionHistory s) v
  (currentOutputTranscription s) (microphoneStream s) (inputAudioContext s)
  (outputAudioContext s) (inputScriptProcessor s) (inputAudioSource s)
  (outputGainNode s) (playbackNextStartTime s) (activeAudioSources s)
  (sessionPromise s).

Definition set_currentOutputTranscription v := mkState (isConnecting s)
  (isConnected s) (transcriptionHistory s) (currentInputTranscription s)
  v (microphoneStream s) (inputAudioContext s)
  (outputAudioContext s) (inputScriptProcessor s) (inputAudioSource s)
  (outputGainNode s) (playbackNextStartTime s) (activeAudioSources s)
  (sessionPromise s).

Definition set_microphoneStream v := mkState (isConnecting s)
  (isConnected s) (transcriptionHistory s) (currentInputTranscription s)
  (currentOutputTranscription s) v (inputAudioContext s)
  (outputAudioContext s) (inputScriptProcessor s) (inputAudioSource s)
  (outputGainNode s) (playbackNextStartTime s) (activeAudioSources s)
  (sessionPromise s).

Definition set_inputAudioContext v := mkState (isConnecting s)
  (isConnected s) (transcriptionHistory s) (currentInputTranscription s)
  (currentOutputTranscription s) (microphoneStream s) v
  (outputAudioContext s) (inputScriptProcessor s) (inputAudioSource s)
  (outputGainNode s) (playbackNextStartTime s) (activeAudioSources s)
  (sessionPromise s).

Definition set_outputAudioContext v := mkState (isConnecting s)
  (isConnected s) (transcriptionHistory s) (currentInputTranscription s)
  (currentOutputTranscription s) (microphoneStream s) (inputAudioContext s)
  v (inputScriptProcessor s) (inputAudioSource s)
  (outputGainNode s) (playbackNextStartTime s) (activeAudioSources s)
  (sessionPromise s).

Definition set_inputScriptProcessor v := mkState (isConnecting s)
  (isConnected s) (transcriptionHistory s) (currentInputTranscription s)
  (currentOutputTranscription s) (microphoneStream s) (inputAudioContext s)
  (outputAudioContext s) v (inputAudioSource s)
  (outputGainNode s) (playbackNextStartTime s) (activeAudioSources s)
  (sessionPromise s).

Definition set_inputAudioSource v := mkState (isConnecting s)
  (isConnected s) (transcriptionHistory s) (currentInputTranscription s)
  (currentOutputTranscription s) (microphoneStream s) (inputAudioContext s)
  (outputAudioContext s) (inputScriptProcessor s) v
  (outputGainNode s) (playbackNextStartTime s) (activeAudioSources s)
  (sessionPromise s).

Definition set_outputGainNode v := mkState (isConnecting s)
  (isConnected s) (transcriptionHistory s) (currentInputTranscription s)
  (currentOutputTranscription s) (microphoneStream s) (inputAudioContext s)
  (outputAudioContext s) (inputScriptProcessor s) (inputAudioSource s)
  v (playbackNextStartTime s) (activeAudioSources s)
  (sessionPromise s).

Definition set_playbackNextStartTime v := mkState (isConnecting s)
  (isConnected s) (transcriptionHistory s) (currentInputTranscription s)
  (currentOutputTranscription s) (microphoneStream s) (inputAudioContext s)
  (outputAudioContext s) (inputScriptProcessor s) (inputAudioSource s)
  (outputGainNode s) v (activeAudioSources s)
  (sessionPromise s).

Definition set_activeAudioSources v := mkState (isConnecting s)
  (isConnected s) (transcriptionHistory s) (currentInputTranscription s)
  (currentOutputTranscription s) (microphoneStream s) (inputAudioContext s)
  (outputAudioContext s) (inputScriptProcessor s) (inputAudioSource s)
  (outputGainNode s) (playbackNextStartTime s) v
  (sessionPromise s).

Definition set_sessionPromise v := mkState (isConnecting s)
  (isConnected s) (transcriptionHistory s) (currentInputTranscription s)
  (currentOutputTranscription s) (microphoneStream s) (inputAudioContext s)
  (outputAudioContext s) (inputScriptProcessor s) (inputAudioSource s)
  (outputGainNode s) (playbackNextStartTime s) (activeAudioSources s)
  v.

End Assignments.

(** ** Handlers

    A handler runs on a world and returns or raises; the world it leaves
    holds every assignment and call made up to that point. *)

Definition Handler (A : Type) : Type := World -> Result A * World.

Definition ret {A : Type} (a : A) : Handler A := fun w => (Returned a, w).

Definition throw {A : Type} (error : string) : Handler A :=
  fun w => (Thrown error, w).

Definition bind {A B : Type} (m : Handler A) (k : A -> Handler B) : Handler B :=
  fun w =>
    match m w with
    | (Returned a, w') => k a w'
    | (Thrown e, w') => (Thrown e, w')
    end.

Declare Scope handler_scope.
Delimit Scope handler_scope with handler.
Bind Scope handler_scope with Handler.

Notation "x <- m ;; k" := (bind m (fun x => k))
  (at level 61, m at next level, right associativity) : handler_scope.
Notation "m ;; k" := (bind m (fun _ => k))
  (at level 61, right associativity) : handler_scope.

Local Open Scope handler_scope.

Definition try_catch {A : Type} (body : Handler A)
    (handler : string -> Handler A) : Handler A :=
  fun w =>
    match body w with
    | (Returned a, w') => (Returned a, w')
    | (Thrown e, w') => handler e w'
    end.

Definition lift {A : Type} (r : Result A) : Handler A := fun w => (r, w).

Definition get : Handler LiveAssistantState := fun w => (Returned (state w), w).

Definition assign (f : LiveAssistantState -> LiveAssistantState) : Handler unit :=
  fun w => (Returned tt, mkWorld (f (state w)) (trace w) (reactions w) (created w)).

Definition emit (e : Event) : Handler unit :=
  fun w => (Returned tt, mkWorld (state w) (trace w ++ [e]) (reactions w) (created w)).

Fixpoint forEach {A : Type} (l : list A) (f : A -> Handler unit) : Handler unit :=
  match l with
  | [] => ret tt
  | x :: r => f x ;; forEach r f
  end.

(** [promise?.then(callback)]: nothing when the field is [null];
    otherwise the callback is registered and runs later (see [fulfil]). *)
Definition promise_then (promise : option Promise) (r : Reaction) : Handler unit :=
  fun w =>
    match promise with
    | Some p =>
        (Returned tt, mkWorld (state w) (trace w) (reactions w ++ [(p, r)]) (created w))
    | None => (Returned tt, w)
    end.

(** *** Source nodes and the set of active sources *)

Definition createBufferSource : Handler AudioBufferSourceNode :=
  fun w =>
    (Returned (mkSource (created w) None false),
     mkWorld (state w) (trace w) (reactions w) (S (created w))).

(** [source.start(when)] raises [InvalidStateError] on a second call. *)
Definition start (source : AudioBufferSourceNode) (when : Q)
  : Handler AudioBufferSourceNode :=
  if started source then throw "InvalidStateError"
  else
    emit (source_start (source_id source) when) ;;
    ret (mkSource (source_id source) (source_buffer source) true).

(** [source.stop()] raises [InvalidStateError] when [start] was never
    called. *)
Definition stop (source : AudioBufferSourceNode) : Handler unit :=
  if started source then emit (source_stop (source_id source))
  else throw "InvalidStateError".

Definition Set_has (source : nat) (l : list AudioBufferSourceNode) : bool :=
  existsb (fun x => Nat.eqb (source_id x) source) l.

Definition Set_add (x : AudioBufferSourceNode) (l : list AudioBufferSourceNode)
  : list AudioBufferSourceNode :=
  if Set_has (source_id x) l then l else l ++ [x].

Definition Set_delete (source : nat) (l : list AudioBufferSourceNode)
  : list AudioBufferSourceNode :=
  filter (fun x => negb (Nat.eqb (source_id x) source)) l.

Definition Math_max (a b : Q) : Q := if Qle_bool a b then b else a.

(** ** [playAudioBuffer]

    [currentTime] is the reading of [outputAudioContext.currentTime] at the
    call.  The [activeSources] argument of the source is always the set
    held in [LiveAssistantService.state], which the function updates in
    place; here it is the field of the world. *)
Definition playAudioBuffer (audioBuffer : AudioBuffer) (currentTime : Q)
    (outputNode : GainNode) (currentNextStartTime : Q) : Handler Q :=
  let nextStartTime := Math_max currentNextStartTime currentTime in
  source <- createBufferSource ;;
  let source := mkSource (source_id source) (Some audioBuffer) (started source) in
  emit (node_connect (BufferSource (source_id source)) OutputGain) ;;
  source <- start source nextStartTime ;;
  let nextStartTime := to_double (nextStartTime + duration audioBuffer) in
  assign (fun s => set_activeAudioSources s (Set_add source (activeAudioSources s))) ;;
  ret nextStartTime.

(** The listener that [playAudioBuffer] attaches to the [ended] event of
    the node. *)
Definition ended (source : nat) : Handler unit :=
  assign (fun s => set_activeAudioSources s (Set_delete source (activeAudioSources s))).

(** ** [LiveAssistantService] *)

(** What a handler reads from the platform while it runs. *)
Record Readings : Type := mkReadings {
  Date_now_user : N;           (* [Date.now()] for the user entry *)
  Date_now_jarvis : N;         (* [Date.now()] for the assistant entry *)
  getHours : nat;              (* [new Date().getHours()] *)
  currentTime : Q              (* [outputAudioContext.currentTime] *)
}.

(** [message.serverContent?.field] *)
Definition content_field {A : Type} (message : LiveServerMessage)
    (field : ServerContent -> option A) : option A :=
  match serverContent message with
  | Some c => field c
  | None => None
  end.

Definition content_flag (message : LiveServerMessage)
    (field : ServerContent -> bool) : bool :=
  match serverContent message with
  | Some c => field c
  | None => false
  end.

(** [message.serverContent?.modelTurn?.parts?.[0]?.inlineData?.data] *)
Definition audioPayload (message : LiveServerMessage) : option string :=
  match content_field message modelTurn with
  | Some turn =>
      match parts turn with
      | Some (p :: _) =>
          match inlineData p with
          | Some d => inline_data d
          | None => None
          end
      | _ => None
      end
  | None => None
  end.

Definition TOOL_RESULT : string :=
  "Function executed successfully. Data processed.".

(** *** [onmessage], block by block

    The handler is [async].  Its only [await] is on [decodeAudioData],
    an [async] function without an [await] of its own: the promise it
    returns is already settled, and the rest of the handler follows in the
    same turn of the event loop, before any other callback of the channel
    or of a node is called.  The handler is therefore one step here.  An
    exception raised in it ([atob], [new Int16Array], [createBuffer],
    [source.stop]) rejects the promise that the handler returns: the
    blocks that follow are not run. *)

(** "Process transcription" *)
Definition processTranscription (message : LiveServerMessage) : Handler unit :=
  match content_field message outputTranscription with
  | Some transcription =>
      match transcription_text transcription with
      | Some text =>
          if truthy text then
            assign (fun s => set_currentOutputTranscription s
                               (currentOutputTranscription s ++ text)%string) ;;
            s <- get ;;
            emit (onTranscription (currentOutputTranscription s) false)
          else ret tt
      | None => ret tt
      end
  | None =>
      match content_field message inputTranscription with
      | Some transcription =>
          match transcription_text transcription with
          | Some text =>
              if truthy text then
                assign (fun s => set_currentInputTranscription s
                                   (currentInputTranscription s ++ text)%string) ;;
                s <- get ;;
                emit (onTranscription (currentInputTranscription s) true)
              else ret tt
          | None => ret tt
          end
      | None => ret tt
      end
  end.

(** The block guarded by [message.serverContent?.turnComplete]. *)
Definition processTurnComplete (r : Readings) (message : LiveServerMessage)
  : Handler unit :=
  if content_flag message turnComplete then
    s <- get ;;
    let userTurn :=
      {| chat_id := "user-" ++ decimal (Date_now_user r) ++ "-live";
         chat_sender := user;
         chat_text := trim (currentInputTranscription s) |}%string in
    let jarvisTurn :=
      {| chat_id := "jarvis-" ++ decimal (Date_now_jarvis r) ++ "-live";
         chat_sender := jarvis;
         chat_text := getJarvisPrefix (getHours r) ++ " "
                        ++ trim (currentOutputTranscription s) |}%string in
    assign (fun s => set_transcriptionHistory s
                       (transcriptionHistory s ++ [userTurn; jarvisTurn])) ;;
    assign (fun s => set_currentInputTranscription s "") ;;
    assign (fun s => set_currentOutputTranscription s "")
  else ret tt.

(** "Process audio output" *)
Definition processAudio (r : Readings) (message : LiveServerMessage)
  : Handler unit :=
  s <- get ;;
  match audioPayload message, outputAudioContext s, outputGainNode s with
  | Some base64EncodedAudioString, Some ctx, Some gain =>
      if truthy base64EncodedAudioString then
        bytes <- lift (match decodeBase64 base64EncodedAudioString with
                       | Some bytes => Returned bytes
                       | None => Thrown "InvalidCharacterError"
                       end) ;;
        audioBuffer <- lift (decodeAudioData bytes ctx 24000 1) ;;
        s <- get ;;
        nextStartTime <- playAudioBuffer audioBuffer (currentTime r) gain
                           (playbackNextStartTime s) ;;
        assign (fun s => set_playbackNextStartTime s nextStartTime) ;;
        emit onAudioPlayback
      else ret tt
  | _, _, _ => ret tt
  end.

(** "Handle interruption" *)
Definition handleInterruption (message : LiveServerMessage) : Handler unit :=
  if content_flag message interrupted then
    s <- get ;;
    forEach (activeAudioSources s) stop ;;
    assign (fun s => set_activeAudioSources s []) ;;
    assign (fun s => set_playbackNextStartTime s 0)
  else ret tt.

(** "Handle tool calls (if any)" *)
Definition handleToolCalls (message : LiveServerMessage) : Handler unit :=
  match toolCall message with
  | Some call =>
      forEach (functionCalls call)
        (fun fc =>
           let result := TOOL_RESULT in
           s <- get ;;
           promise_then (sessionPromise s)
             (thenSendToolResponse (call_id fc) (call_name fc) result))
  | None => ret tt
  end.

Definition onmessage (r : Readings) (message : LiveServerMessage) : Handler unit :=
  processTranscription message ;;
  processTurnComplete r message ;;
  processAudio r message ;;
  handleInterruption message ;;
  handleToolCalls message.

(** *** [stopConversation] *)

Definition stopConversation : Handler unit :=
  s <- get ;;
  match microphoneStream s with
  | Some stream =>
      forEach (getTracks stream) (fun track => emit (track_stop track)) ;;
      assign (fun s => set_microphoneStream s None)
  | None => ret tt
  end ;;
  s <- get ;;
  match inputAudioContext s with
  | Some ctx =>
      emit (context_close ctx) ;;
      assign (fun s => set_inputAudioContext s None)
  | None => ret tt
  end ;;
  s <- get ;;
  match outputAudioContext s with
  | Some ctx =>
      emit (context_close ctx) ;;
      assign (fun s => set_outputAudioContext s None)
  | None => ret tt
  end ;;
  s <- get ;;
  match inputScriptProcessor s with
  | Some processor =>
      emit (node_disconnect ScriptProcessor) ;;
      assign (fun s => set_inputScriptProcessor s
                         (Some (mkScriptProcessor (bufferSize processor) false))) ;;
      assign (fun s => set_inputScriptProcessor s None)
  | None => ret tt
  end ;;
  s <- get ;;
  match inputAudioSource s with
  | Some _ =>
      emit (node_disconnect InputSource) ;;
      assign (fun s => set_inputAudioSource s None)
  | None => ret tt
  end ;;
  s <- get ;;
  match outputGainNode s with
  | Some _ =>
      emit (node_disconnect OutputGain) ;;
      assign (fun s => set_outputGainNode s None)
  | None => ret tt
  end ;;
  s <- get ;;
  forEach (activeAudioSources s) stop ;;
  assign (fun s => set_activeAudioSources s []) ;;
  assign (fun s => set_playbackNextStartTime s 0) ;;
  s <- get ;;
  promise_then (sessionPromise s) thenClose ;;
  assign (fun s => set_isConnected s false) ;;
  assign (fun s => set_isConnecting s false).

(** *** [startConversation]

    The function is [async]: it runs up to the [await] on
    [getUserMedia] and resumes when the stream (or the refusal) arrives.
    [startConversation] is the first part and reports whether it suspended;
    [startConversation_resume] is the rest of the [try] block with its
    [catch]. *)

Inductive Progress : Type := Done | Awaiting.

Definition startConversation : Handler Progress :=
  s <- get ;;
  if isConnected s || isConnecting s then
    emit (onError (JARVIS_ERROR_PREFIX ++ " Live session already in progress.")) ;;
    ret Done
  else
    assign (fun s => set_isConnecting s true) ;;
    assign (fun s => set_transcriptionHistory s []) ;;
    assign (fun s => set_currentInputTranscription s "") ;;
    assign (fun s => set_currentOutputTranscription s "") ;;
    assign (fun s => set_playbackNextStartTime s 0) ;;
    assign (fun s => set_activeAudioSources s []) ;;
    ret Awaiting.

(** What the platform answers to the calls of the [try] block. *)
Record Startup : Type := mkStartup {
  getUserMedia : Result MediaStream;
  newInputAudioContext : Result AudioContext;     (* [sampleRate: 16000] *)
  newOutputAudioContext : Result AudioContext;    (* [sampleRate: 24000] *)
  newGoogleGenAI : Result unit;
  live_connect : Promise
}.

Definition startConversation_resume (env : Startup) : Handler unit :=
  try_catch
    (stream <- lift (getUserMedia env) ;;
     assign (fun s => set_microphoneStream s (Some stream)) ;;
     ctx <- lift (newInputAudioContext env) ;;
     assign (fun s => set_inputAudioContext s (Some ctx)) ;;
     ctx <- lift (newOutputAudioContext env) ;;
     assign (fun s => set_outputAudioContext s (Some ctx)) ;;
     assign (fun s => set_outputGainNode s (Some gainNode)) ;;
     emit (node_connect OutputGain OutputDestination) ;;
     lift (newGoogleGenAI env) ;;
     assign (fun s => set_sessionPromise s (Some (live_connect env))))
    (fun error =>
       emit (onError (JARVIS_ERROR_PREFIX ++ " Failed to start live session: "
                        ++ error)) ;;
       assign (fun s => set_isConnecting s false) ;;
       assign (fun s => set_isConnected s false) ;;
       stopConversation).

(** *** The other callbacks given to [ai.live.connect] *)

Definition onopen : Handler unit :=
  assign (fun s => set_isConnected s true) ;;
  assign (fun s => set_isConnecting s false) ;;
  s <- get ;;
  match inputAudioContext s, microphoneStream s with
  | Some _, Some _ =>
      assign (fun s => set_inputAudioSource s (Some mediaStreamSource)) ;;
      assign (fun s => set_inputScriptProcessor s
                         (Some (mkScriptProcessor 4096 false))) ;;
      assign (fun s => set_inputScriptProcessor s
                         (Some (mkScriptProcessor 4096 true))) ;;
      emit (node_connect InputSource ScriptProcessor) ;;
      emit (node_connect ScriptProcessor InputDestination)
  | _, _ => ret tt
  end.

(** The [onaudioprocess] handler installed by [onopen]; [inputData] is
    channel 0 of the captured frame. *)
Definition onaudioprocess (inputData : list number) : Handler unit :=
  let pcmBlob := createPcmBlob inputData in
  s <- get ;;
  promise_then (sessionPromise s) (thenSendRealtimeInput pcmBlob).

(** [e] is [formatErrorForUI(e)]. *)
Definition onerror (e : string) : Handler unit :=
  emit (onError (JARVIS_ERROR_PREFIX ++ " Live session encountered an error: "
                   ++ e)) ;;
  stopConversation.

Definition onclose : Handler unit :=
  emit onClose ;;
  stopConversation.

(** *** Settlement of the session promise *)

Definition run_reaction (session : nat) (r : Reaction) : Handler unit :=
  match r with
  | thenSendRealtimeInput media => emit (session_sendRealtimeInput session media)
  | thenSendToolResponse id name result =>
      emit (session_sendToolResponse session id name result)
  | thenClose =>
      emit (session_close session) ;;
      assign (fun s => set_sessionPromise s None)
  end.

Definition registered_on (p : Promise) (entry : Promise * Reaction) : bool :=
  Nat.eqb (fst entry) p.

(** Promise [p] is fulfilled with [session]: the callbacks registered on
    it run, in the order of registration. *)
Definition fulfil (p : Promise) (session : nat) : Handler unit :=
  fun w =>
    let mine := filter (registered_on p) (reactions w) in
    let others := filter (fun entry => negb (registered_on p entry)) (reactions w) in
    forEach (map snd mine) (run_reaction session)
            (mkWorld (state w) (trace w) others (created w)).

(** *** Reachable worlds *)

Definition after {A : Type} (h : Handler A) (w : World) : World := snd (h w).

Inductive Step : World -> World -> Prop :=
| step_startConversation w : Step w (after startConversation w)
| step_resume env w : Step w (after (startConversation_resume env) w)
| step_onopen w : Step w (after onopen w)
| step_onaudioprocess inputData w : Step w (after (onaudioprocess inputData) w)
| step_onmessage r message w : Step w (after (onmessage r message) w)
| step_onerror e w : Step w (after (onerror e) w)
| step_onclose w : Step w (after onclose w)
| step_stopConversation w : Step w (after stopConversation w)
| step_ended source w : Step w (after (ended source) w)
| step_fulfil p session w : Step w (after (fulfil p session) w).

Inductive reachable : World -> Prop :=
| reachable_initial : reachable initial_world
| reachable_step w w' : reachable w -> Step w w' -> reachable w'.

(** ** Predicates and specification-level definitions used by the
       statements *)

(** Every source of the active set has been started (so [stop] on it
    does not raise), and the history holds whole turns. *)
Definition consistent (s : LiveAssistantState) : Prop :=
  Forall (fun x => started x = true) (activeAudioSources s)
  /\ Nat.even (List.length (transcriptionHistory s)) = true.

(** The audio block of [onmessage] runs to its end: there is no payload
    to play, or the payload decodes to a non-empty whole number of 16-bit
    samples. *)
Definition audio_decodes (message : LiveServerMessage) (s : LiveAssistantState)
  : bool :=
  match audioPayload message, outputAudioContext s, outputGainNode s with
  | Some base64, Some ctx, Some _ =>
      if truthy base64 then
        match decodeBase64 base64 with
        | Some bytes =>
            match decodeAudioData bytes ctx 24000 1 with
            | Returned _ => true
            | Thrown _ => false
            end
        | None => false
        end
      else true
  | _, _, _ => true
  end.

(** The state that [stopConversation] leaves. *)
Definition released (s : LiveAssistantState) : LiveAssistantState :=
  {| isConnecting := false;
     isConnected := false;
     transcriptionHistory := transcriptionHistory s;
     currentInputTranscription := currentInputTranscription s;
     currentOutputTranscription := currentOutputTranscription s;
     microphoneStream := None;
     inputAudioContext := None;
     outputAudioContext := None;
     inputScriptProcessor := None;
     inputAudioSource := None;
     outputGainNode := None;
     playbackNextStartTime := 0;
     activeAudioSources := [];
     sessionPromise := sessionPromise s |}.

(** [Idle] as the session shows it: neither connected nor connecting, no
    device or node held, nothing playing. *)
Definition Idle (s : LiveAssistantState) : Prop :=
  isConnected s = false /\ isConnecting s = false
  /\ microphoneStream s = None /\ inputAudioContext s = None
  /\ outputAudioContext s = None /\ inputScriptProcessor s = None
  /\ inputAudioSource s = None /\ outputGainNode s = None
  /\ activeAudioSources s = [] /\ playbackNextStartTime s = 0%Q.

(** *** Playback of a run of buffers *)

(** The buffer that the audio block of [onmessage] hands to
    [playAudioBuffer] for a message, in state [s]: the payload of the
    message, decoded, when the output context and the gain node are in
    place. *)
Definition decoded (s : LiveAssistantState) (message : LiveServerMessage)
  : option AudioBuffer :=
  match audioPayload message, outputAudioContext s, outputGainNode s with
  | Some base64, Some ctx, Some _ =>
      if truthy base64 then
        match decodeBase64 base64 with
        | Some bytes =>
            match decodeAudioData bytes ctx 24000 1 with
            | Returned audioBuffer => Some audioBuffer
            | Thrown _ => None
            end
        | None => None
        end
      else None
  | _, _, _ => None
  end.

(** Messages handled one after the other, each with its own readings of
    the platform.  The channel hands over the next message whether the
    handler returned or raised. *)
Definition deliver (arrivals : list (Readings * LiveServerMessage)) (w : World)
  : World :=
  fold_left (fun w a => after (onmessage (fst a) (snd a)) w) arrivals w.

(** The buffers that arrive with the messages, each as its duration and
    the reading of the output clock at its arrival. *)
Definition arriving (s : LiveAssistantState)
    (arrivals : list (Readings * LiveServerMessage)) : list (Q * Q) :=
  flat_map (fun a => match decoded s (snd a) with
                     | Some audioBuffer =>
                         [(duration audioBuffer, currentTime (fst a))]
                     | None => []
                     end)
           arrivals.

(** The schedule in the words of the specification: [start =
    max(nextStartTime, outputClockNow)], then [nextStartTime = start + d],
    the sum being the one of the language, on doubles.  The result lists,
    for each buffer, its start and the [nextStartTime] it leaves. *)
Fixpoint gapless_schedule (nextStartTime : Q) (arrivals : list (Q * Q))
  : list (Q * Q) :=
  match arrivals with
  | [] => []
  | (d, outputClockNow) :: rest =>
      let start := Math_max nextStartTime outputClockNow in
      (start, to_double (start + d))
        :: gapless_schedule (to_double (start + d)) rest
  end.

Definition start_times (t : list Event) : list Q :=
  flat_map (fun e => match e with source_start _ when => [when] | _ => [] end) t.

(** *** Turns *)

(** [TranscriptTurn] of the specification, without its timestamp. *)
Record TranscriptTurn : Type := mkTurn {
  userText : string;
  assistantText : string
}.

(** A turn is held in the history as two consecutive entries, the
    user's and the assistant's. *)
Fixpoint turns (history : list ChatMessage) : list TranscriptTurn :=
  match history with
  | u :: a :: rest =>
      {| userText := chat_text u; assistantText := chat_text a |} :: turns rest
  | _ => []
  end.

(** *** Inbound events and their order *)

Inductive Speaker : Type := the_user | the_assistant.

(** [InboundEvent] of the specification. *)
Inductive InboundEvent : Type :=
| PartialTranscript (speaker : Speaker) (text : option string)
| TurnComplete
| AudioPayload (base64 : string)
| Interrupted
| ToolCallRequest (request : FunctionCall).

Definition transcript_events (output input : option Transcription)
  : list InboundEvent :=
  match output with
  | Some t => [PartialTranscript the_assistant (transcription_text t)]
  | None =>
      match input with
      | Some t => [PartialTranscript the_user (transcription_text t)]
      | None => []
      end
  end.

(** The events the handler draws from one message, in the order in which
    it handles them: the input-transcript delta counts only when the
    message has no output-transcript field. *)
Definition events_of_message (message : LiveServerMessage) : list InboundEvent :=
  transcript_events (content_field message outputTranscription)
                    (content_field message inputTranscription)
  ++ (if content_flag message turnComplete then [TurnComplete] else [])
  ++ match audioPayload message with
     | Some base64 => [AudioPayload base64]
     | None => []
     end
  ++ (if content_flag message interrupted then [Interrupted] else [])
  ++ match toolCall message with
     | Some call => map ToolCallRequest (functionCalls call)
     | None => []
     end.

(** The order as the specification words it: both deltas count, the
    output one first. *)
Definition events_as_specified (message : LiveServerMessage) : list InboundEvent :=
  match content_field message outputTranscription with
  | Some t => [PartialTranscript the_assistant (transcription_text t)]
  | None => []
  end
  ++ match content_field message inputTranscription with
     | Some t => [PartialTranscript the_user (transcription_text t)]
     | None => []
     end
  ++ (if content_flag message turnComplete then [TurnComplete] else [])
  ++ match audioPayload message with
     | Some base64 => [AudioPayload base64]
     | None => []
     end
  ++ (if content_flag message interrupted then [Interrupted] else [])
  ++ match toolCall message with
     | Some call => map ToolCallRequest (functionCalls call)
     | None => []
     end.

(** TranscriptAggregator: append a delta to a partial and notify. *)
Definition appendPartial (speaker : Speaker) (text : option string) : Handler unit :=
  match text with
  | Some delta =>
      if truthy delta then
        match speaker with
        | the_assistant =>
            assign (fun s => set_currentOutputTranscription s
                               (currentOutputTranscription s ++ delta)%string) ;;
            s <- get ;;
            emit (onTranscription (currentOutputTranscription s) false)
        | the_user =>
            assign (fun s => set_currentInputTranscription s
                               (currentInputTranscription s ++ delta)%string) ;;
            s <- get ;;
            emit (onTranscription (currentInputTranscription s) true)
        end
      else ret tt
  | None => ret tt
  end.

(** TranscriptAggregator: fold the partials into a turn and reset them. *)
Definition finalizeTurn (r : Readings) : Handler unit :=
  s <- get ;;
  let u := trim (currentInputTranscription s) in
  let a := (getJarvisPrefix (getHours r) ++ " "
              ++ trim (currentOutputTranscription s))%string in
  assign (fun s =>
            set_transcriptionHistory s
              (transcriptionHistory s
               ++ [mkChatMessage ("user-" ++ decimal (Date_now_user r) ++ "-live")
                                 user u;
                   mkChatMessage ("jarvis-" ++ decimal (Date_now_jarvis r) ++ "-live")
                                 jarvis a])) ;;
  assign (fun s => set_currentInputTranscription s "") ;;
  assign (fun s => set_currentOutputTranscription s "").

(** PlaybackScheduler: decode a payload and schedule it; nothing when the
    payload is empty or the output side is not set up. *)
Definition schedulePayload (r : Readings) (base64 : string) : Handler unit :=
  s <- get ;;
  match outputAudioContext s, outputGainNode s with
  | Some ctx, Some gain =>
      if truthy base64 then
        match decodeBase64 base64 with
        | None => throw "InvalidCharacterError"
        | Some bytes =>
            audioBuffer <- lift (decodeAudioData bytes ctx 24000 1) ;;
            s <- get ;;
            nextStartTime <- playAudioBuffer audioBuffer (currentTime r) gain
                               (playbackNextStartTime s) ;;
            assign (fun s => set_playbackNextStartTime s nextStartTime) ;;
            emit onAudioPlayback
        end
      else ret tt
  | _, _ => ret tt
  end.

(** PlaybackScheduler: abort all in-flight playback. *)
Definition abortPlayback : Handler unit :=
  s <- get ;;
  forEach (activeAudioSources s) stop ;;
  assign (fun s => set_activeAudioSources s []) ;;
  assign (fun s => set_playbackNextStartTime s 0).

(** ToolCallBridge: answer one request. *)
Definition answerToolCall (request : FunctionCall) : Handler unit :=
  s <- get ;;
  promise_then (sessionPromise s)
    (thenSendToolResponse (call_id request) (call_name request) TOOL_RESULT).

Definition handle_event (r : Readings) (e : InboundEvent) : Handler unit :=
  match e with
  | PartialTranscript speaker text => appendPartial speaker text
  | TurnComplete => finalizeTurn r
  | AudioPayload base64 => schedulePayload r base64
  | Interrupted => abortPlayback
  | ToolCallRequest request => answerToolCall request
  end.

(** Events are handled one after the other; an event whose handling
    raises ends the handling of the message. *)
Definition dispatch (r : Readings) (events : list InboundEvent) : Handler unit :=
  forEach events (handle_event r).

(** *** Tool calls and their responses *)

Definition requests (message : LiveServerMessage) : list FunctionCall :=
  match toolCall message with
  | Some call => functionCalls call
  | None => []
  end.

Definition response_to (session : nat) (request : FunctionCall) : Event :=
  session_sendToolResponse session (call_id request) (call_name request) TOOL_RESULT.

Definition event_of_reaction (session : nat) (r : Reaction) : Event :=
  match r with
  | thenSendRealtimeInput media => session_sendRealtimeInput session media
  | thenSendToolResponse id name result =>
      session_sendToolResponse session id name result
  | thenClose => session_close session
  end.

(** The number of [sendToolResponse] calls of a trace that carry
    identifier [X], and the number of requests that do. *)
Definition responses_with (X : string) (t : list Event) : nat :=
  List.length
    (filter (fun e => match e with
                      | session_sendToolResponse _ id _ _ => String.eqb id X
                      | _ => false
                      end) t).

Definition requests_with (X : string) (l : list FunctionCall) : nat :=
  List.length (filter (fun fc => String.eqb (call_id fc) X) l).

(** ** Scenarios *)

Definition readings0 : Readings :=
  {| Date_now_user := 1700000000000;
     Date_now_jarvis := 1700000000001;
     getHours := 9;
     currentTime := 0 |}.

(** Every call of the [try] block succeeds; the session promise is
    promise 1. *)
Definition startup_ok : Startup :=
  {| getUserMedia := Returned (mkMediaStream [0%nat]);
     newInputAudioContext := Returned (mkAudioContext 16000);
     newOutputAudioContext := Returned (mkAudioContext 24000);
     newGoogleGenAI := Returned tt;
     live_connect := 1%nat |}.

Definition connecting_world : World :=
  after (startConversation_resume startup_ok)
        (after startConversation initial_world).

Definition active_world : World := after onopen connecting_world.

Definition content_only (c : ServerContent) : LiveServerMessage :=
  {| serverContent := Some c; toolCall := None |}.

Definition inline_audio (base64 : string) : option Content :=
  Some (mkContent (Some [mkPart (Some (mkInlineData (Some base64)))])).

(** Four zero bytes: two frames of silence. *)
Definition silence : string := "AAAAAA==".

Definition audio_message : LiveServerMessage :=
  content_only (mkServerContent None None false (inline_audio silence) false).

(** Six zero bytes: three frames of silence. *)
Definition longer_audio_message : LiveServerMessage :=
  content_only (mkServerContent None None false (inline_audio "AAAAAAAA") false).

(** Two buffers, of two and of three frames, both arriving at clock 0. *)
Definition two_arrivals : list (Readings * LiveServerMessage) :=
  [(readings0, audio_message); (readings0, longer_audio_message)].

Definition interrupted_message : LiveServerMessage :=
  content_only (mkServerContent None None false None true).

Definition output_delta (text : string) : LiveServerMessage :=
  content_only
    (mkServerContent (Some (mkTranscription (Some text))) None false None false).

Definition input_delta (text : string) : LiveServerMessage :=
  content_only
    (mkServerContent None (Some (mkTranscription (Some text))) false None false).

Definition turn_complete_message : LiveServerMessage :=
  content_only (mkServerContent None None true None false).

(** One message with both an output and an input delta. *)
Definition both_deltas : LiveServerMessage :=
  content_only
    (mkServerContent (Some (mkTranscription (Some "A"%string)))
                     (Some (mkTranscription (Some "B"%string))) false None false).

Definition tool_message (calls : list FunctionCall) : LiveServerMessage :=
  {| serverContent := None; toolCall := Some (mkToolCall calls) |}.

Definition light_on : FunctionCall :=
  {| call_id := "X"; call_name := "controlLight"; call_args := "{}" |}.

(** A session in which one buffer is playing. *)
Definition playing_world : World :=
  after (onmessage readings0 audio_message) active_world.

(** A session in which the user has said "Hi" and the assistant has
    begun to answer. *)
Definition talking_world : World :=
  after (onmessage readings0 (output_delta "Hel"))
        (after (onmessage readings0 (input_delta "Hi")) active_world).

(** The scenario of the specification: the input partial is "Hi" and the
    output deltas "Hel", "lo " and "Sir" have arrived. *)
Definition spoken_world : World :=
  after (onmessage readings0 (output_delta "Sir"))
        (after (onmessage readings0 (output_delta "lo ")) talking_world).

(** A payload that is not base64: [atob] raises on it. *)
Definition garbled : string := "!".

Definition interrupted_garbled_message : LiveServerMessage :=
  content_only (mkServerContent None None false (inline_audio garbled) true).

Definition tool_garbled_message : LiveServerMessage :=
  {| serverContent :=
       Some (mkServerContent None None false (inline_audio garbled) false);
     toolCall := Some (mkToolCall [light_on]) |}.

(** A second start; its session promise is promise 2. *)
Definition startup_again : Startup :=
  {| getUserMedia := Returned (mkMediaStream [1%nat]);
     newInputAudioContext := Returned (mkAudioContext 16000);
     newOutputAudioContext := Returned (mkAudioContext 24000);
     newGoogleGenAI := Returned tt;
     live_connect := 2%nat |}.

(** The first session is stopped while it is still connecting and a
    second one is started and opens; then the first promise is fulfilled,
    and the closing callback registered on it runs. *)
Definition overtaken_world : World :=
  after (fulfil 1%nat 5%nat)
    (after onopen
       (after (startConversation_resume startup_again)
          (after startConversation
             (after stopConversation connecting_world)))).

(** ** Definitions used in the proofs *)

Definition with_transcript (s : LiveAssistantState) (h : list ChatMessage)
    (i o : string) : LiveAssistantState :=
  set_currentOutputTranscription
    (set_currentInputTranscription (set_transcriptionHistory s h) i) o.

(** The world that the audio block leaves once it has scheduled
    [audioBuffer]. *)
Definition scheduled (audioBuffer : AudioBuffer) (clock : Q) (w : World) : World :=
  let start := Math_max (playbackNextStartTime (state w)) clock in
  mkWorld
    (set_playbackNextStartTime
       (set_activeAudioSources (state w)
          (Set_add (mkSource (created w) (Some audioBuffer) true)
                   (activeAudioSources (state w))))
       (to_double (start + duration audioBuffer)))
    (trace w ++ [node_connect (BufferSource (created w)) OutputGain;
                 source_start (created w) start;
                 onAudioPlayback])
    (reactions w) (S (created w)).

(** What the audio block does, case by case. *)
Definition audio_outcome (r : Readings) (message : LiveServerMessage)
    (w : World) : Result unit * World :=
  match audioPayload message, outputAudioContext (state w),
        outputGainNode (state w) with
  | Some base64, Some ctx, Some _ =>
      if truthy base64 then
        match decodeBase64 base64 with
        | Some bytes =>
            match decodeAudioData bytes ctx 24000 1 with
            | Returned audioBuffer =>
                (Returned tt, scheduled audioBuffer (currentTime r) w)
            | Thrown e => (Thrown e, w)
            end
        | None => (Thrown "InvalidCharacterError", w)
        end
      else (Returned tt, w)
  | _, _, _ => (Returned tt, w)
  end.

Definition tool_reactions (promise : option Promise) (l : list FunctionCall)
  : list (Promise * Reaction) :=
  match promise with
  | Some p =>
      map (fun fc => (p, thenSendToolResponse (call_id fc) (call_name fc) TOOL_RESULT)) l
  | None => []
  end.

(** The world after the interruption block. *)
Definition interruption (message : LiveServerMessage) (w : World) : World :=
  if content_flag message interrupted then
    mkWorld
      (set_playbackNextStartTime (set_activeAudioSources (state w) []) 0)
      (trace w ++ map (fun x => source_stop (source_id x))
                      (activeAudioSources (state w)))
      (reactions w) (created w)
  else w.

(** The world after the tool-call block. *)
Definition answered (message : LiveServerMessage) (w : World) : World :=
  mkWorld (state w) (trace w)
          (reactions w ++ tool_reactions (sessionPromise (state w)) (requests message))
          (created w).

(** The blocks of [onmessage] that come before the interruption block. *)
Definition before_interruption (r : Readings) (message : LiveServerMessage)
  : Handler unit :=
  processTranscription message ;;
  processTurnComplete r message ;;
  processAudio r message.

(** The start time held by the session is a double, and not negative. *)
Definition timely (s : LiveAssistantState) : Prop :=
  (0 <= playbackNextStartTime s)%Q /\ is_double (playbackNextStartTime s).

Definition closes (l : list Reaction) : bool :=
  existsb (fun r => match r with thenClose => true | _ => false end) l.

(** The callback that [stopConversation] registers on the promise. *)
Definition closing (s : LiveAssistantState) : list (Promise * Reaction) :=
  match sessionPromise s with
  | Some p => [(p, thenClose)]
  | None => []
  end.

(** The calls that [stopConversation] makes on devices and nodes, in the
    order in which it makes them. *)
Definition released_events (s : LiveAssistantState) : list Event :=
  match microphoneStream s with
  | Some stream => map track_stop (getTracks stream)
  | None => []
  end
  ++ match inputAudioContext s with
     | Some ctx => [context_close ctx]
     | None => []
     end
  ++ match outputAudioContext s with
     | Some ctx => [context_close ctx]
     | None => []
     end
  ++ match inputScriptProcessor s with
     | Some _ => [node_disconnect ScriptProcessor]
     | None => []
     end
  ++ match inputAudioSource s with
     | Some _ => [node_disconnect InputSource]
     | None => []
     end
  ++ match outputGainNode s with
     | Some _ => [node_disconnect OutputGain]
     | None => []
     end
  ++ map (fun x => source_stop (source_id x)) (activeAudioSources s).

Definition transcript_is (h : list ChatMessage) (i o : string)
    (s : LiveAssistantState) : Prop :=
  transcriptionHistory s = h
  /\ currentInputTranscription s = i
  /\ currentOutputTranscription s = o.

Definition Preserves {A : Type} (P : LiveAssistantState -> Prop)
    (h : Handler A) : Prop :=
  forall w, P (state w) -> P (state (after h w)).

(** ** Specification-level definitions for the audio helpers *)

(** A character of the base64 alphabet, or the padding character. *)
Definition base64_char (c : ascii) : Prop :=
  Base64.char_sextet c <> None \/ c = Base64.pad.

(** ** Specification-level definitions for the session *)

(** The handles of the active set are sources created earlier, each
    once. *)
Definition handles_fresh (n : nat) (s : LiveAssistantState) : Prop :=
  Forall (fun x => (source_id x < n)%nat) (activeAudioSources s)
  /\ NoDup (map source_id (activeAudioSources s)).

Definition Keeps {A : Type} (Q : nat -> LiveAssistantState -> Prop)
    (h : Handler A) : Prop :=
  forall w, Q (created w) (state w) ->
            Q (created (after h w)) (state (after h w)).

(** The history holds whole turns: an entry of the user, then an entry of
    the assistant whose text begins with the persona prefix and a space. *)
Fixpoint whole_turns (history : list ChatMessage) : Prop :=
  match history with
  | [] => True
  | u :: a :: rest =>
      chat_sender u = user
      /\ chat_sender a = jarvis
      /\ String.prefix (JARVIS_PREFIX ++ " ") (chat_text a) = true
      /\ whole_turns rest
  | _ => False
  end.

Definition turns_kept (s : LiveAssistantState) : Prop :=
  whole_turns (transcriptionHistory s).

(** The error with which the [try] block of [startConversation] ends, if
    one of its calls raises: the calls are made in this order. *)
Definition startup_error (env : Startup) : option string :=
  match getUserMedia env with
  | Thrown e => Some e
  | Returned _ =>
      match newInputAudioContext env with
      | Thrown e => Some e
      | Returned _ =>
          match newOutputAudioContext env with
          | Thrown e => Some e
          | Returned _ =>
              match newGoogleGenAI env with
              | Thrown e => Some e
              | Returned _ => None
              end
          end
      end
  end.

(** What the [try] block of [startConversation] has stored when a call
    raises: each device acquired before that call. *)
Definition acquired (env : Startup) (s : LiveAssistantState)
  : LiveAssistantState :=
  match getUserMedia env with
  | Thrown _ => s
  | Returned stream =>
      let s := set_microphoneStream s (Some stream) in
      match newInputAudioContext env with
      | Thrown _ => s
      | Returned ctx =>
          let s := set_inputAudioContext s (Some ctx) in
          match newOutputAudioContext env with
          | Thrown _ => s
          | Returned ctx =>
              set_outputGainNode (set_outputAudioContext s (Some ctx))
                                 (Some gainNode)
          end
      end
  end.

(** The calls on nodes that the [try] block makes before a call raises:
    the gain node is connected as soon as the output context is there. *)
Definition wired (env : Startup) : list Event :=
  match getUserMedia env, newInputAudioContext env,
        newOutputAudioContext env with
  | Returned _, Returned _, Returned _ =>
      [node_connect OutputGain OutputDestination]
  | _, _, _ => []
  end.

(** No device or node is held and nothing is playing. *)
Definition nothing_held (s : LiveAssistantState) : Prop :=
  microphoneStream s = None /\ inputAudioContext s = None
  /\ outputAudioContext s = None /\ inputScriptProcessor s = None
  /\ inputAudioSource s = None /\ outputGainNode s = None
  /\ activeAudioSources s = [].

(** The calls that hand back what a failed start had acquired: every
    track of the stream stopped, then each context closed and the gain
    node disconnected, in the order of [stopConversation]. *)
Definition handed_back (env : Startup) : list Event :=
  match getUserMedia env with
  | Thrown _ => []
  | Returned stream =>
      map track_stop (getTracks stream)
      ++ match newInputAudioContext env with
         | Thrown _ => []
         | Returned ictx =>
             context_close ictx
             :: match newOutputAudioContext env with
                | Thrown _ => []
                | Returned octx =>
                    [context_close octx; node_disconnect OutputGain]
                end
         end
  end.

(** A start in which the microphone and both contexts are obtained and
    the client cannot be made. *)
Definition startup_no_client : Startup :=
  {| getUserMedia := Returned (mkMediaStream [0%nat; 1%nat]);
     newInputAudioContext := Returned (mkAudioContext 16000);
     newOutputAudioContext := Returned (mkAudioContext 24000);
     newGoogleGenAI := Thrown "An API Key must be set";
     live_connect := 1%nat |}.

(** Frames captured one after the other. *)
Definition capture (frames : list (list number)) : Handler unit :=
  forEach frames onaudioprocess.

(** A message that carries one transcript delta and nothing else. *)
Definition delta_message (isUser : bool) (text : string) : LiveServerMessage :=
  if isUser then input_delta text else output_delta text.

(** Deltas of one speaker arriving one message after the other. *)
Definition hear (r : Readings) (isUser : bool) (deltas : list string)
  : Handler unit :=
  forEach deltas (fun text => onmessage r (delta_message isUser text)).

(** The notifications that a run of deltas causes, given the partial
    [acc] before it: one per delta that is not empty, with the partial as
    it stands after that delta. *)
Fixpoint notifications (isUser : bool) (acc : string) (deltas : list string)
  : list Event :=
  match deltas with
  | [] => []
  | text :: rest =>
      if truthy text
      then onTranscription (acc ++ text) isUser
             :: notifications isUser (acc ++ text) rest
      else notifications isUser acc rest
  end.

(** What [onmessage] never assigns: the connection flags, the devices and
    nodes, and the session promise. *)
Definition session_fields (s : LiveAssistantState) :=
  (isConnecting s, isConnected s, microphoneStream s, inputAudioContext s,
   outputAudioContext s, inputScriptProcessor s, inputAudioSource s,
   outputGainNode s, sessionPromise s).

(** ** [TaskService] ([services/taskService.ts])

    The service keeps its tasks and the number of the next task in two
    variables of the module; here they are the two fields of a [Store] that
    every function takes and returns.  An argument that the caller may
    leave out is an [option]: [None] is [undefined]. *)

Module TaskService.

(** [TaskStatus]; at run time a status is the string itself, and one that
    arrives from a function call can be any string. *)
Definition PENDING : string := "pending".
Definition IN_PROGRESS : string := "in_progress".
Definition COMPLETED : string := "completed".

Record Task : Type := mkTask {
  task_id : string;
  task_description : string;
  task_dueDate : string;
  task_status : string
}.

Record TaskServiceResult (T : Type) : Type := mkResult {
  success : bool;
  message : string;
  data : option T
}.

Arguments mkResult {T} success message data.

Record Store : Type := mkStore {
  tasks : list Task;
  nextTaskId : N
}.

(** [let tasks = []; let nextTaskId = 1;] *)
Definition initial_store : Store := {| tasks := []; nextTaskId := 1 |}.

(** [!v]: [undefined] and the empty string are falsy. *)
Definition falsy (v : option string) : bool :=
  match v with
  | Some s => negb (truthy s)
  | None => true
  end.

(** A value inside a template literal. *)
Definition show (v : option string) : string :=
  match v with
  | Some s => s
  | None => "undefined"
  end.

(** [task.id === id] *)
Definition same_id (id : option string) (task : Task) : bool :=
  match id with
  | Some i => String.eqb (task_id task) i
  | None => false
  end.

(** The filling of [padStart]: [n] characters taken from [padString]
    over and over. *)
Fixpoint fill (n : nat) (padString rest : string) : string :=
  match n with
  | O => EmptyString
  | S n' =>
      match rest with
      | String c rest' => String c (fill n' padString rest')
      | EmptyString =>
          match padString with
          | String c rest' => String c (fill n' padString rest')
          | EmptyString => EmptyString
          end
      end
  end.

(** [s.padStart(targetLength, padString)] *)
Definition padStart (targetLength : nat) (padString : string) (s : string)
  : string :=
  if (targetLength <=? String.length s)%nat then s
  else (fill (targetLength - String.length s) padString padString ++ s)%string.

(** [`TSK-${String(n).padStart(3, '0')}`] *)
Definition new_id (n : N) : string :=
  ("TSK-" ++ padStart 3 "0" (decimal n))%string.

Definition createTask (description dueDate : option string) (st : Store)
  : TaskServiceResult Task * Store :=
  match description, dueDate with
  | Some description, Some dueDate =>
      if negb (truthy description) || negb (truthy dueDate) then
        (mkResult false
           (JARVIS_ERROR_PREFIX
            ++ " Task description and due date are mandatory for task creation.")
           None, st)
      else
        let newId := new_id (nextTaskId st) in
        let newTask :=
          {| task_id := newId;
             task_description := description;
             task_dueDate := dueDate;
             task_status := PENDING |} in
        (mkResult true ("Task created. ID: " ++ newId ++ ".") (Some newTask),
         {| tasks := tasks st ++ [newTask];
            nextTaskId := nextTaskId st + 1 |})
  | _, _ =>
      (mkResult false
         (JARVIS_ERROR_PREFIX
          ++ " Task description and due date are mandatory for task creation.")
         None, st)
  end.

(** A number that may be [NaN]: [None] is [NaN]. *)
Definition number_or_NaN : Type := option Z.

(** [a !== b] on numbers: [NaN] differs from everything. *)
Definition differ (a b : number_or_NaN) : bool :=
  match a, b with
  | Some x, Some y => negb (Z.eqb x y)
  | _, _ => true
  end.

(** [a - b] *)
Definition minus (a b : number_or_NaN) : number_or_NaN :=
  match a, b with
  | Some x, Some y => Some (x - y)%Z
  | _, _ => None
  end.

(** [statusOrder[status]]; a status that is not a key gives [undefined],
    which the subtraction turns into [NaN]. *)
Definition statusOrder (status : string) : number_or_NaN :=
  if String.eqb status PENDING then Some 1%Z
  else if String.eqb status IN_PROGRESS then Some 2%Z
  else if String.eqb status COMPLETED then Some 3%Z
  else None.

(** The comparator of [listTasks]; [getTime date] is
    [new Date(date).getTime()], which is [NaN] for a text that is not a
    date. *)
Definition compareTasks (getTime : string -> number_or_NaN) (a b : Task)
  : number_or_NaN :=
  let dateA := getTime (task_dueDate a) in
  let dateB := getTime (task_dueDate b) in
  if differ dateA dateB then minus dateA dateB
  else minus (statusOrder (task_status a)) (statusOrder (task_status b)).

(** [Array.prototype.sort] with a comparator.  The sort is stable, and a
    comparator result that is [NaN] counts as 0; [a] is moved behind [b]
    only when the comparator gives a positive number for [(a, b)].  With a
    consistent comparator the outcome is the one the language fixes; with
    an inconsistent one the language leaves the order to the
    implementation, and this is one such order. *)
Definition behind {A : Type} (comparefn : A -> A -> number_or_NaN) (a b : A)
  : bool :=
  match comparefn a b with
  | Some v => (0 <? v)%Z
  | None => false
  end.

Fixpoint insert {A : Type} (comparefn : A -> A -> number_or_NaN) (a : A)
    (sorted : list A) : list A :=
  match sorted with
  | [] => [a]
  | b :: rest =>
      if behind comparefn a b then b :: insert comparefn a rest
      else a :: b :: rest
  end.

Definition Array_sort {A : Type} (comparefn : A -> A -> number_or_NaN)
    (items : list A) : list A :=
  fold_right (insert comparefn) [] items.

Definition listTasks (getTime : string -> number_or_NaN)
    (status dueDate : option string) (st : Store)
  : TaskServiceResult (list Task) :=
  let filteredTasks := tasks st in
  let filteredTasks :=
    if falsy status then filteredTasks
    else filter (fun task => String.eqb (task_status task) (show status))
                filteredTasks in
  let filteredTasks :=
    if falsy dueDate then filteredTasks
    else filter (fun task => String.eqb (task_dueDate task) (show dueDate))
                filteredTasks in
  match filteredTasks with
  | [] => mkResult true "No tasks match the specified criteria." (Some [])
  | _ =>
      mkResult true "Task roster retrieved."
               (Some (Array_sort (compareTasks getTime) filteredTasks))
  end.

(** [tasks.findIndex(...)]: [None] is -1. *)
Fixpoint findIndex {A : Type} (p : A -> bool) (l : list A) : option nat :=
  match l with
  | [] => None
  | x :: rest =>
      if p x then Some O
      else match findIndex p rest with
           | Some i => Some (S i)
           | None => None
           end
  end.

(** [tasks[index] = value], for an index inside the array. *)
Fixpoint Array_set {A : Type} (index : nat) (value : A) (l : list A) : list A :=
  match l, index with
  | [], _ => []
  | _ :: rest, O => value :: rest
  | x :: rest, S i => x :: Array_set i value rest
  end.

Definition updateTask (id description dueDate status : option string)
    (st : Store) : TaskServiceResult Task * Store :=
  match findIndex (same_id id) (tasks st) with
  | None =>
      (mkResult false
         (JARVIS_ERROR_PREFIX ++ " Task with ID '" ++ show id ++ "' not found.")
         None, st)
  | Some taskIndex =>
      match nth_error (tasks st) taskIndex with
      | None => (mkResult false "" None, st)      (* not reached *)
      | Some task =>
          let updatedTask := task in
          let updatedTask :=
            if falsy description then updatedTask
            else mkTask (task_id updatedTask) (show description)
                        (task_dueDate updatedTask) (task_status updatedTask) in
          let updatedTask :=
            if falsy dueDate then updatedTask
            else mkTask (task_id updatedTask) (task_description updatedTask)
                        (show dueDate) (task_status updatedTask) in
          let updatedTask :=
            if falsy status then updatedTask
            else mkTask (task_id updatedTask) (task_description updatedTask)
                        (task_dueDate updatedTask) (show status) in
          (mkResult true ("Task ID '" ++ show id ++ "' updated.") (Some updatedTask),
           {| tasks := Array_set taskIndex updatedTask (tasks st);
              nextTaskId := nextTaskId st |})
      end
  end.

Definition deleteTask (id : option string) (st : Store)
  : TaskServiceResult unit * Store :=
  let initialLength := List.length (tasks st) in
  let st' := {| tasks := filter (fun task => negb (same_id id task)) (tasks st);
                nextTaskId := nextTaskId st |} in
  if (List.length (tasks st') <? initialLength)%nat then
    (mkResult true ("Task ID '" ++ show id ++ "' successfully purged.") None, st')
  else
    (mkResult false
       (JARVIS_ERROR_PREFIX ++ " Task with ID '" ++ show id
        ++ "' not found for deletion.")
       None, st').

Definition getTaskById (id : option string) (st : Store) : option Task :=
  find (same_id id) (tasks st).

(** The stores that the calls of the service lead to. *)
Inductive reachable_store : Store -> Prop :=
| store_initial : reachable_store initial_store
| store_created description dueDate st :
    reachable_store st ->
    reachable_store (snd (createTask description dueDate st))
| store_updated id description dueDate status st :
    reachable_store st ->
    reachable_store (snd (updateTask id description dueDate status st))
| store_deleted id st :
    reachable_store st ->
    reachable_store (snd (deleteTask id st)).

(** The order of [listTasks]: by date, then by status. *)
Definition in_order (getTime : string -> number_or_NaN) (a b : Task) : Prop :=
  match getTime (task_dueDate a), getTime (task_dueDate b),
        statusOrder (task_status a), statusOrder (task_status b) with
  | Some da, Some db, Some sa, Some sb =>
      (da < db)%Z \/ (da = db /\ (sa <= sb)%Z)
  | _, _, _, _ => False
  end.

(** A task with a date that [Date] reads and one of the three statuses. *)
Definition well_formed (getTime : string -> number_or_NaN) (task : Task) : Prop :=
  getTime (task_dueDate task) <> None
  /\ statusOrder (task_status task) <> None.

(** Every task of the store carries an identifier issued earlier, and no
    two tasks carry the same. *)
Definition ids_issued (st : Store) : Prop :=
  (1 <= nextTaskId st)%N
  /\ Forall (fun task => exists k, (1 <= k < nextTaskId st)%N
                                   /\ task_id task = new_id k)
            (tasks st)
  /\ NoDup (map task_id (tasks st)).

(** What [updateTask] makes of a task. *)
Definition updated (description dueDate status : option string) (task : Task)
  : Task :=
  {| task_id := task_id task;
     task_description :=
       if falsy description then task_description task else show description;
     task_dueDate := if falsy dueDate then task_dueDate task else show dueDate;
     task_status := if falsy status then task_status task else show status |}.

(** The tasks that [listTasks] is asked for. *)
Definition selected (status dueDate : option string) (task : Task) : bool :=
  (falsy status || String.eqb (task_status task) (show status))
  && (falsy dueDate || String.eqb (task_dueDate task) (show dueDate)).

(** A clock that reads two dates. *)
Definition two_dates (date : string) : number_or_NaN :=
  if String.eqb date "2024-05-01" then Some 1714521600000%Z
  else if String.eqb date "2024-05-02" then Some 1714608000000%Z
  else None.

Definition three_tasks : Store :=
  {| tasks := [ mkTask "TSK-001" "report" "2024-05-02" PENDING;
                mkTask "TSK-002" "review" "2024-05-01" COMPLETED;
                mkTask "TSK-003" "deploy" "2024-05-01" IN_PROGRESS ];
     nextTaskId := 4 |}.

End TaskService.

(** ** The task command ([services/geminiService.ts])

    [handleTaskCommand] asks the model what to do with a command, performs
    the function calls that the model answers with on the [TaskService],
    and asks the model again for the reply.  The two remote calls are
    parameters: what the first gives for the query, and what the second
    gives for the query, the calls and the responses sent back. *)

Module GeminiService.
Import TaskService.

(** What a [throw] or a rejected call carries. *)
Inductive Raised : Type :=
| ErrorEvent_ (error : option string) (message : string)
    (* an [ErrorEvent]; [error] is the message of its [error] when that is
       an [Error] *)
| Error_ (message : string)               (* an [Error] *)
| Other (text : string).                  (* any other value, by its [String] *)

Inductive Outcome (A : Type) : Type :=
| Fulfilled (a : A)
| Rejected (reason : Raised).

Arguments Fulfilled {A} a.
Arguments Rejected {A} reason.

Definition formatErrorForUI (error : Raised) : string :=
  match error with
  | ErrorEvent_ (Some message) _ => message
  | ErrorEvent_ None message =>
      if truthy message then message else "Unknown Error Event"
  | Error_ message => message
  | Other text => text
  end.

Definition handleGeminiError (error : Raised) : string :=
  (JARVIS_ERROR_PREFIX ++ " " ++ formatErrorForUI error)%string.

(** The arguments of a function call that the task functions read; a
    property that is missing is [None]. *)
Record Args : Type := mkArgs {
  arg_id : option string;
  arg_description : option string;
  arg_dueDate : option string;
  arg_status : option string
}.

(** [FunctionCall] of the SDK: every field is optional. *)
Record FunctionCall : Type := mkFunctionCall {
  fc_id : option string;
  fc_name : option string;
  fc_args : option Args
}.

Inductive ToolResult : Type :=
| result_of_task (message : string) (data : option Task)   (* [{ message, data }] *)
| result_of_tasks (message : string) (tasks : list Task)   (* [{ message, tasks }] *)
| result_of_message (message : string).                    (* [{ message }] *)

Record ToolResponse : Type := mkToolResponse {
  tr_id : option string;
  tr_name : option string;
  tr_result : ToolResult
}.

Record GenerateContentResponse : Type := mkResponse {
  text : option string;
  functionCalls : option (list FunctionCall)
}.

Record Remote : Type := mkRemote {
  first_call : string -> Outcome GenerateContentResponse;
  second_call : string -> list FunctionCall -> list ToolResponse ->
                Outcome GenerateContentResponse
}.

(** Reading a property of [fc.args] when [fc.args] is [undefined]; the
    message is the one of V8. *)
Definition TypeError (property : string) : Raised :=
  Error_ ("Cannot read properties of undefined (reading '" ++ property ++ "')").

(** [items.join(separator)] *)
Fixpoint join (separator : string) (items : list string) : string :=
  match items with
  | [] => EmptyString
  | [item] => item
  | item :: rest => (item ++ separator ++ join separator rest)%string
  end.

Definition line_feed : string := String "010" EmptyString.

Definition task_line (task : Task) : string :=
  ("ID: " ++ task_id task ++ ", Description: " ++ task_description task
   ++ ", Due: " ++ task_dueDate task ++ ", Status: " ++ task_status task)%string.

(** A [case] of the [switch]: [value === label]. *)
Definition is_case (label : string) (value : option string) : bool :=
  match value with
  | Some s => String.eqb s label
  | None => false
  end.

(** The body of the loop over the function calls: the [switch].  It gives
    the tool result, what is added to [finalMessage], and the store; [hour]
    is the reading of the clock by [getJarvisPrefix] in this round. *)
Definition perform (getTime : string -> number_or_NaN) (hour : nat)
    (fc : FunctionCall) (st : Store)
  : Outcome (ToolResult * string) * Store :=
  if is_case "createTask" (fc_name fc) then
    match fc_args fc with
    | None => (Rejected (TypeError "description"), st)
    | Some args =>
        let (serviceResponse, st') :=
          createTask (arg_description args) (arg_dueDate args) st in
        (Fulfilled (result_of_task (message serviceResponse) (data serviceResponse),
                    getJarvisPrefix hour ++ " " ++ message serviceResponse)%string,
         st')
    end
  else if is_case "listTasks" (fc_name fc) then
    match fc_args fc with
    | None => (Rejected (TypeError "status"), st)
    | Some args =>
        let serviceResponse :=
          listTasks getTime (arg_status args) (arg_dueDate args) st in
        match success serviceResponse, data serviceResponse with
        | true, Some (task :: rest) =>
            let taskList := join line_feed (map task_line (task :: rest)) in
            (Fulfilled (result_of_tasks "Tasks retrieved successfully." (task :: rest),
                        getJarvisPrefix hour ++ " Task roster:" ++ line_feed
                        ++ taskList)%string,
             st)
        | _, _ =>
            (Fulfilled (result_of_message (message serviceResponse),
                        getJarvisPrefix hour ++ " " ++ message serviceResponse)%string,
             st)
        end
    end
  else if is_case "updateTask" (fc_name fc) then
    match fc_args fc with
    | None => (Rejected (TypeError "id"), st)
    | Some args =>
        let (serviceResponse, st') :=
          updateTask (arg_id args) (arg_description args) (arg_dueDate args)
                     (arg_status args) st in
        (Fulfilled (result_of_task (message serviceResponse) (data serviceResponse),
                    getJarvisPrefix hour ++ " " ++ message serviceResponse)%string,
         st')
    end
  else if is_case "deleteTask" (fc_name fc) then
    match fc_args fc with
    | None => (Rejected (TypeError "id"), st)
    | Some args =>
        let (serviceResponse, st') := deleteTask (arg_id args) st in
        (Fulfilled (result_of_message (message serviceResponse),
                    getJarvisPrefix hour ++ " " ++ message serviceResponse)%string,
         st')
    end
  else
    (Fulfilled (result_of_message
                  (JARVIS_ERROR_PREFIX ++ " Unrecognized function call: "
                   ++ show (fc_name fc) ++ "."),
                JARVIS_ERROR_PREFIX ++ " Unrecognized function call: "
                ++ show (fc_name fc) ++ ".")%string,
     st).

(** The loop over the function calls.  [clock i] is the reading of the
    clock in round [i]; the rounds before this one are [round] in
    number. *)
Fixpoint perform_all (getTime : string -> number_or_NaN) (clock : nat -> nat)
    (round : nat) (calls : list FunctionCall)
    (toolResponses : list ToolResponse) (finalMessage : string) (st : Store)
  : Outcome (list ToolResponse * string) * Store :=
  match calls with
  | [] => (Fulfilled (toolResponses, finalMessage), st)
  | fc :: rest =>
      match perform getTime (clock round) fc st with
      | (Rejected error, st') => (Rejected error, st')
      | (Fulfilled (toolResult, said), st') =>
          perform_all getTime clock (S round) rest
            (toolResponses
             ++ [ {| tr_id := fc_id fc; tr_name := fc_name fc;
                     tr_result := toolResult |} ])
            (finalMessage ++ said) st'
      end
  end.

(** [handleTaskCommand(userQuery)]: the reply and the store afterwards.
    The clock is read once in every round of the loop and once for the
    reply. *)
Definition handleTaskCommand (getTime : string -> number_or_NaN)
    (clock : nat -> nat) (remote : Remote) (userQuery : string) (st : Store)
  : string * Store :=
  match first_call remote userQuery with
  | Rejected error => (handleGeminiError error, st)
  | Fulfilled response =>
      match functionCalls response with
      | Some (fc :: rest) =>
          let functionCalls := fc :: rest in
          match perform_all getTime clock 0%nat functionCalls [] EmptyString st with
          | (Rejected error, st') => (handleGeminiError error, st')
          | (Fulfilled (toolResponses, finalMessage), st') =>
              match second_call remote userQuery functionCalls toolResponses with
              | Rejected error => (handleGeminiError error, st')
              | Fulfilled toolResponse =>
                  (if falsy (text toolResponse) then finalMessage
                   else (getJarvisPrefix (clock (List.length functionCalls))
                         ++ " " ++ show (text toolResponse))%string,
                   st')
              end
          end
      | _ =>
          ((getJarvisPrefix (clock 0%nat) ++ " " ++ show (text response))%string, st)
      end
  end.

(** The store after the calls have been performed one after the other,
    up to the first that cannot be. *)
Fixpoint performed (getTime : string -> number_or_NaN) (clock : nat -> nat)
    (round : nat) (calls : list FunctionCall) (st : Store) : Store :=
  match calls with
  | [] => st
  | fc :: rest =>
      match perform getTime (clock round) fc st with
      | (Rejected _, st') => st'
      | (Fulfilled _, st') => performed getTime clock (S round) rest st'
      end
  end.

(** A call that the loop can perform: its name is not one of the four,
    or it has arguments. *)
Definition performable (fc : FunctionCall) : bool :=
  match fc_args fc with
  | Some _ => true
  | None =>
      negb (is_case "createTask" (fc_name fc) || is_case "listTasks" (fc_name fc)
            || is_case "updateTask" (fc_name fc)
            || is_case "deleteTask" (fc_name fc))
  end.

(** A command that the model answers with one call of [createTask], and
    a second call to the model that fails. *)
Definition create_call : FunctionCall :=
  {| fc_id := Some "call-1"%string; fc_name := Some "createTask"%string;
     fc_args := Some {| arg_id := None;
                        arg_description := Some "file the report"%string;
                        arg_dueDate := Some "2024-05-02"%string;
                        arg_status := None |} |}.

Definition failing_remote : Remote :=
  {| first_call := fun _ =>
       Fulfilled {| text := None; functionCalls := Some [create_call] |};
     second_call := fun _ _ _ => Rejected (Error_ "503 Service Unavailable") |}.

(** ** Grounded queries ([searchGrounding], [mapsGrounding]) *)

Record GroundingUrl : Type := mkGroundingUrl {
  url_uri : option string;
  url_title : string
}.

Record Web : Type := mkWeb {
  web_uri : option string;
  web_title : option string
}.

Record ReviewSnippet : Type := mkReviewSnippet {
  snippet_uri : option string;
  snippet_review : option string
}.

Record PlaceAnswerSource : Type := mkPlaceAnswerSource {
  reviewSnippets : option (list ReviewSnippet)
}.

(** [placeAnswerSources] is an array of sources or a value that is not an
    array. *)
Inductive PlaceAnswerSources : Type :=
| an_array (sources : list PlaceAnswerSource)
| not_an_array.

Record Maps : Type := mkMaps {
  maps_uri : option string;
  maps_title : option string;
  placeAnswerSources : option PlaceAnswerSources
}.

Record GroundingChunk : Type := mkChunk {
  web : option Web;
  maps : option Maps
}.

(** A response to a grounded query; [groundingChunks] is what
    [response.candidates?.[0]?.groundingMetadata?.groundingChunks] gives. *)
Record GroundedResponse : Type := mkGrounded {
  grounded_text : option string;
  groundingChunks : option (list GroundingChunk)
}.

Record Grounded : Type := mkGroundedResult {
  result_text : string;
  groundingUrls : list GroundingUrl
}.

(** [a || b] on strings *)
Definition or_else (a : option string) (b : string) : string :=
  if falsy a then b else show a.

Definition searchGrounding (hour : nat) (generateContent : Outcome GroundedResponse)
  : Grounded + string :=
  match generateContent with
  | Rejected error => inr (handleGeminiError error)
  | Fulfilled response =>
      let groundingUrls :=
        match groundingChunks response with
        | Some chunks =>
            flat_map (fun chunk =>
                        match web chunk with
                        | Some w =>
                            [ {| url_uri := web_uri w;
                                 url_title := or_else (web_title w)
                                                      "Untitled Source" |} ]
                        | None => []
                        end)
                     chunks
        | None => []
        end in
      inl {| result_text :=
               (getJarvisPrefix hour ++ " " ++ show (grounded_text response))%string;
             groundingUrls := groundingUrls |}
  end.

(** The entries that the review snippets of a chunk give. *)
Definition review_urls (m : Maps) : list GroundingUrl :=
  match placeAnswerSources m with
  | Some (an_array sources) =>
      flat_map (fun source =>
                  match reviewSnippets source with
                  | Some snippets =>
                      flat_map (fun snippet =>
                                  if falsy (snippet_uri snippet) then []
                                  else
                                    [ {| url_uri := snippet_uri snippet;
                                         url_title :=
                                           or_else (Some ("Review: "
                                                          ++ show (snippet_review snippet))%string)
                                                   "Review Snippet" |} ])
                               snippets
                  | None => []
                  end)
               sources
  | _ => []
  end.

(** The coordinates go into the request only. *)
Definition mapsGrounding (hour : nat) (generateContent : Outcome GroundedResponse)
  : Grounded + string :=
  match generateContent with
  | Rejected error => inr (handleGeminiError error)
  | Fulfilled response =>
      let groundingUrls :=
        match groundingChunks response with
        | Some chunks =>
            flat_map (fun chunk =>
                        match maps chunk with
                        | Some m =>
                            {| url_uri := maps_uri m;
                               url_title := or_else (maps_title m)
                                                    "Untitled Place" |}
                            :: review_urls m
                        | None => []
                        end)
                     chunks
        | None => []
        end in
      inl {| result_text :=
               (getJarvisPrefix hour ++ " " ++ show (grounded_text response))%string;
             groundingUrls := groundingUrls |}
  end.

End GeminiService.

(** ** What the interface shows ([components/common/JARSISOutput.tsx]) *)

Module JARSISOutput.

Definition JARVIS_MAAM_PREFIX : string := "Understood, Ma'am.".

(** [s.substring(start)], for [start] within the string. *)
Fixpoint substring (start : nat) (s : string) : string :=
  match start, s with
  | O, _ => s
  | S n, String _ rest => substring n rest
  | S _, EmptyString => EmptyString
  end.

(** The text that goes to the Markdown renderer. *)
Definition displayableText (text : string) : string :=
  if String.prefix JARVIS_PREFIX text
  then trim (substring (String.length JARVIS_PREFIX) text)
  else if String.prefix JARVIS_MAAM_PREFIX text
  then trim (substring (String.length JARVIS_MAAM_PREFIX) text)
  else trim text.

(** The text of the link of a source: [url.title || url.uri]; a missing
    [uri] shows nothing. *)
Definition link_text (url : GeminiService.GroundingUrl) : string :=
  if truthy (GeminiService.url_title url) then GeminiService.url_title url
  else match GeminiService.url_uri url with
       | Some uri => uri
       | None => EmptyString
       end.

End JARSISOutput.

(* ================================================================== *)
(** * Part II.  Properties *)
(* ================================================================== *)

(** ** Base64 *)

Section ListInduction3.

Variable A : Type.
Variable P : list A -> Prop.
Hypothesis P0 : P [].
Hypothesis P1 : forall a, P [a].
Hypothesis P2 : forall a b, P [a; b].
Hypothesis P3 : forall a b c r, P r -> P (a :: b :: c :: r).

Lemma list_ind3 : forall l, P l.
Proof.
  assert (H : forall l, P l /\ (forall a, P (a :: l))
                        /\ (forall a b, P (a :: b :: l))).
  { induction l as [|x l [IH0 [IH1 IH2]]].
    - repeat split; auto.
    - repeat split; auto. }
  intro l. apply (H l).
Qed.

End ListInduction3.

Module Base64Facts.

Import Base64.
Local Open Scope N_scope.

(** Every six-bit value is written as a character of the alphabet that
    reads back as the same value, and that is neither whitespace nor the
    padding character. *)
Lemma sextet_char_sound n :
  n < 64 ->
  char_sextet (sextet_char n) = Some n
  /\ is_ascii_whitespace (sextet_char n) = false
  /\ is_pad (sextet_char n) = false.
Proof.
  intro H.
  rewrite <- (N2Nat.id n).
  assert (Hn : (N.to_nat n < 64)%nat) by lia.
  clear H. generalize dependent (N.to_nat n). clear n. intros n Hn.
  do 64 (destruct n as [|n]; [vm_compute; auto|]).
  lia.
Qed.

Lemma strip_padding_cons c r :
  is_pad c = false -> strip_padding (c :: r) = c :: strip_padding r.
Proof.
  intro Hc. destruct r as [|d [|e r]]; simpl; try rewrite Hc; reflexivity.
Qed.

Ltac octets_inv :=
  unfold octets in *;
  repeat match goal with
         | H : Forall _ (_ :: _) |- _ => inversion H; clear H; subst
         end.

Ltac by_div_mod :=
  repeat match goal with
         | |- context [?a / ?k] =>
             lazymatch goal with
             | _ : a = k * (a / k) + a mod k |- _ => fail
             | _ => pose proof (N.div_mod a k ltac:(discriminate));
                    pose proof (N.mod_lt a k ltac:(discriminate));
                    pose proof (N.le_0_l (a / k));
                    pose proof (N.le_0_l (a mod k))
             end
         | |- context [?a mod ?k] =>
             lazymatch goal with
             | _ : a = k * (a / k) + a mod k |- _ => fail
             | _ => pose proof (N.div_mod a k ltac:(discriminate));
                    pose proof (N.mod_lt a k ltac:(discriminate));
                    pose proof (N.le_0_l (a / k));
                    pose proof (N.le_0_l (a mod k))
             end
         end.

Lemma octet_sextets_bounded l :
  octets l -> Forall (fun s => s < 64) (octet_sextets l).
Proof.
  induction l as [| a | a b | a b c r IH] using list_ind3;
    intro H; octets_inv; simpl.
  - constructor.
  - repeat constructor; by_div_mod; lia.
  - repeat constructor; by_div_mod; lia.
  - repeat (constructor; [by_div_mod; lia|]). apply IH. assumption.
Qed.

Lemma encode_octets_no_whitespace l :
  octets l ->
  filter (fun c => negb (is_ascii_whitespace c)) (encode_octets l)
  = encode_octets l.
Proof.
  intro H. apply forallb_filter_id. apply forallb_forall.
  revert H.
  induction l as [| a | a b | a b c r IH] using list_ind3;
    intros H x Hx; octets_inv; simpl in Hx.
  - contradiction.
  - repeat (destruct Hx as [<- | Hx];
            [ first [ reflexivity
                    | apply negb_true_iff, sextet_char_sound;
                      by_div_mod; lia ] |]).
    contradiction.
  - repeat (destruct Hx as [<- | Hx];
            [ first [ reflexivity
                    | apply negb_true_iff, sextet_char_sound;
                      by_div_mod; lia ] |]).
    contradiction.
  - do 4 (destruct Hx as [<- | Hx];
          [ apply negb_true_iff, sextet_char_sound; by_div_mod; lia |]).
    apply IH; assumption.
Qed.

Lemma encode_octets_length l :
  (List.length (encode_octets l) mod 4 = 0)%nat.
Proof.
  induction l as [| a | a b | a b c r IH] using list_ind3;
    try reflexivity.
  cbn [encode_octets List.length].
  change (S (S (S (S (List.length (encode_octets r))))))
    with (4 + List.length (encode_octets r))%nat.
  rewrite Nat.add_comm, (Nat.Div0.mod_add _ 1 4). exact IH.
Qed.

Lemma strip_padding_encode l :
  octets l ->
  strip_padding (encode_octets l) = map sextet_char (octet_sextets l).
Proof.
  induction l as [| a | a b | a b c r IH] using list_ind3;
    intro H; octets_inv.
  - reflexivity.
  - cbn [encode_octets octet_sextets map].
    rewrite !strip_padding_cons
      by (apply sextet_char_sound; by_div_mod; lia).
    reflexivity.
  - cbn [encode_octets octet_sextets map].
    rewrite !strip_padding_cons
      by (apply sextet_char_sound; by_div_mod; lia).
    reflexivity.
  - cbn [encode_octets octet_sextets map].
    rewrite !strip_padding_cons
      by (apply sextet_char_sound; by_div_mod; lia).
    rewrite IH by assumption. reflexivity.
Qed.

Lemma octet_sextets_length l :
  (List.length (octet_sextets l) mod 4 <> 1)%nat.
Proof.
  induction l as [| a | a b | a b c r IH] using list_ind3;
    try (cbv; discriminate).
  cbn [octet_sextets List.length].
  change (S (S (S (S (List.length (octet_sextets r))))))
    with (4 + List.length (octet_sextets r))%nat.
  rewrite Nat.add_comm, (Nat.Div0.mod_add _ 1 4). exact IH.
Qed.

Lemma sextets_of_chars sx :
  Forall (fun s => s < 64) sx ->
  sextets_of (map sextet_char sx) = Some sx.
Proof.
  induction 1 as [| s sx Hs _ IH]; simpl.
  - reflexivity.
  - destruct (sextet_char_sound Hs) as [-> _]. rewrite IH. reflexivity.
Qed.

Lemma regroup a b c :
  a < 256 -> b < 256 -> c < 256 ->
  ((a / 4 * 64 + (a mod 4 * 16 + b / 16)) * 64 + (b mod 16 * 4 + c / 64)) * 64
    + c mod 64
  = a * 65536 + b * 256 + c.
Proof. intros. by_div_mod. lia. Qed.

Lemma split24 a b c :
  a < 256 -> b < 256 -> c < 256 ->
  (a * 65536 + b * 256 + c) / 65536 = a
  /\ ((a * 65536 + b * 256 + c) / 256) mod 256 = b
  /\ (a * 65536 + b * 256 + c) mod 256 = c.
Proof.
  intros Ha Hb Hc. repeat split.
  - symmetry. apply (N.div_unique _ _ _ (b * 256 + c)); lia.
  - replace ((a * 65536 + b * 256 + c) / 256) with (a * 256 + b).
    + symmetry. apply (N.mod_unique _ _ a); lia.
    + apply (N.div_unique _ _ _ c); lia.
  - symmetry. apply (N.mod_unique _ _ (a * 256 + b)); lia.
Qed.

Lemma split18 a b :
  a < 256 -> b < 256 ->
  let n := ((a / 4 * 64 + (a mod 4 * 16 + b / 16)) * 64 + b mod 16 * 4) / 4 in
  n / 256 = a /\ n mod 256 = b.
Proof.
  intros Ha Hb n.
  assert (Hn : n = a * 256 + b).
  { subst n. symmetry.
    apply (N.div_unique _ _ _ 0); [lia | by_div_mod; lia]. }
  rewrite Hn. split.
  - symmetry. apply (N.div_unique _ _ _ b); lia.
  - symmetry. apply (N.mod_unique _ _ a); lia.
Qed.

Lemma split12 a :
  a < 256 -> (a / 4 * 64 + a mod 4 * 16) / 16 = a.
Proof.
  intro Ha. symmetry.
  apply (N.div_unique _ _ _ 0); [lia | by_div_mod; lia].
Qed.

Lemma decode_octet_sextets l :
  octets l -> decode_sextets (octet_sextets l) = l.
Proof.
  induction l as [| a | a b | a b c r IH] using list_ind3;
    intro H; octets_inv.
  - reflexivity.
  - cbn [octet_sextets decode_sextets]. rewrite split12 by assumption.
    reflexivity.
  - cbn [octet_sextets decode_sextets].
    destruct (@split18 a b) as [-> ->]; auto.
  - cbn [octet_sextets decode_sextets].
    rewrite regroup by assumption.
    destruct (@split24 a b c) as (-> & -> & ->); auto.
    rewrite IH by assumption. reflexivity.
Qed.

Lemma map_N_of_ascii_octets (cs : list ascii) : octets (map N_of_ascii cs).
Proof.
  unfold octets. apply Forall_forall. intros x Hx.
  apply in_map_iff in Hx. destruct Hx as (c & <- & _).
  apply N_ascii_bounded.
Qed.

(** [atob] undoes [btoa] on every binary string. *)
Lemma atob_btoa s : atob (btoa s) = Some s.
Proof.
  unfold atob, btoa.
  set (l := map N_of_ascii (list_ascii_of_string s)).
  assert (Hl : octets l) by apply map_N_of_ascii_octets.
  rewrite list_ascii_of_string_of_list_ascii.
  rewrite encode_octets_no_whitespace by assumption.
  rewrite encode_octets_length. cbn [Nat.eqb].
  rewrite strip_padding_encode by assumption.
  rewrite length_map.
  destruct (Nat.eqb_spec (List.length (octet_sextets l) mod 4) 1) as [E|_].
  - exfalso. exact (octet_sextets_length l E).
  - rewrite sextets_of_chars by (apply octet_sextets_bounded; assumption).
    rewrite decode_octet_sextets by assumption.
    subst l. rewrite map_map.
    rewrite (map_ext _ (fun c => c)) by apply ascii_N_embedding.
    rewrite map_id. rewrite string_of_list_ascii_of_string. reflexivity.
Qed.

End Base64Facts.

(** ** [encodeBase64] and [decodeBase64] *)

Lemma append_nil_r (s : string) : (s ++ "")%string = s.
Proof. induction s as [|c s IH]; simpl; [reflexivity | now rewrite IH]. Qed.

Lemma append_assoc (a b c : string) :
  ((a ++ b) ++ c)%string = (a ++ (b ++ c))%string.
Proof. induction a as [|x a IH]; simpl; [reflexivity | now rewrite IH]. Qed.

(** The loop of [encodeBase64] builds the string whose code units are the
    bytes. *)
Lemma binary_of_bytes (bytes : list byte) (acc : string) :
  fold_left (fun binary b => (binary ++ fromCharCode (Byte.to_N b))%string)
            bytes acc
  = (acc ++ string_of_list_ascii
              (map (fun b => ascii_of_N (Byte.to_N b)) bytes))%string.
Proof.
  revert acc. induction bytes as [|b bytes IH]; intro acc; simpl.
  - symmetry. apply append_nil_r.
  - rewrite IH. unfold fromCharCode. rewrite append_assoc. reflexivity.
Qed.

(** The loop of [decodeBase64] reads every code unit in turn. *)
Lemma charCodes_of_string (s : string) (f : N -> byte) :
  map (fun i => f (charCodeAt s i)) (seq 0 (String.length s))
  = map (fun c => f (N_of_ascii c)) (list_ascii_of_string s).
Proof.
  induction s as [|c s IH]; simpl.
  - reflexivity.
  - f_equal. rewrite <- seq_shift, map_map. exact IH.
Qed.

Lemma to_N_octet (b : byte) : (Byte.to_N b < 256)%N.
Proof. pose proof (Byte.to_N_bounded b). lia. Qed.

Lemma uint8_to_N (b : byte) : uint8 (Byte.to_N b) = b.
Proof.
  unfold uint8.
  rewrite N.mod_small by apply to_N_octet.
  now rewrite Byte.of_to_N.
Qed.

Lemma decode_encode (b : list byte) : decodeBase64 (encodeBase64 b) = Some b.
Proof.
  unfold decodeBase64, encodeBase64.
  rewrite binary_of_bytes. cbn [append].
  rewrite Base64Facts.atob_btoa.
  rewrite charCodes_of_string, list_ascii_of_string_of_list_ascii, map_map.
  f_equal. rewrite <- (map_id b) at 2. apply map_ext. intro x.
  rewrite N_ascii_embedding by apply to_N_octet.
  apply uint8_to_N.
Qed.

(** C10.  For every byte array [b], [decodeBase64 (encodeBase64 b)]
    returns (it does not raise) a byte array equal to [b]: the same length
    and the same element at every index. *)
Theorem decodeBase64_encodeBase64 (b : list byte) :
  exists b',
    decodeBase64 (encodeBase64 b) = Some b'
    /\ List.length b' = List.length b
    /\ (forall i, nth_error b' i = nth_error b i)
    /\ b' = b.
Proof.
  exists b. rewrite decode_encode. repeat split.
Qed.

(** ** [createPcmBlob] *)

Lemma Qtrunc_times_32768 (q : Q) :
  Qtrunc (q * 32768) = (Qnum q * 32768 ÷ Zpos (Qden q))%Z.
Proof.
  unfold Qtrunc. destruct q as [n d]. cbn [Qmult Qnum Qden].
  now rewrite Pos.mul_1_r.
Qed.

Lemma Qtrunc_in_range (q : Q) :
  (-1 <= q)%Q -> (q < 1)%Q ->
  (-32768 <= Qtrunc (q * 32768) <= 32767)%Z.
Proof.
  intros Hlo Hhi. rewrite Qtrunc_times_32768.
  destruct q as [n d]. unfold Qle, Qlt in *. cbn [Qnum Qden] in *.
  set (D := Zpos d) in *. assert (HD : (0 < D)%Z) by (subst D; lia).
  pose proof (Z.quot_rem' (n * 32768) D) as E.
  destruct (Z_le_gt_dec 0 n) as [Hn | Hn].
  - pose proof (Z.rem_bound_pos_pos (n * 32768) D HD ltac:(lia)). nia.
  - pose proof (Z.rem_bound_pos_neg (n * 32768) D HD ltac:(lia)). nia.
Qed.

Lemma ToInt16_small (t : Q) :
  (-32768 <= Qtrunc t <= 32767)%Z -> ToInt16 (Finite t) = Qtrunc t.
Proof.
  intro H. cbn [ToInt16]. cbv zeta.
  destruct (Z_le_gt_dec 0 (Qtrunc t)) as [Hp | Hn].
  - rewrite Z.mod_small by lia.
    destruct (Z.leb_spec 32768 (Qtrunc t)); [lia | reflexivity].
  - replace (Qtrunc t mod 65536)%Z with (Qtrunc t + 65536)%Z.
    + destruct (Z.leb_spec 32768 (Qtrunc t + 65536)); lia.
    + apply (Z.mod_unique _ _ (-1)); lia.
Qed.

(** [ToInt16] keeps the truncated value modulo 2^16, within the range of
    a 16-bit signed integer. *)
Lemma ToInt16_wraps (t : Q) :
  (-32768 <= ToInt16 (Finite t) <= 32767)%Z
  /\ ((ToInt16 (Finite t) - Qtrunc t) mod 65536 = 0)%Z.
Proof.
  cbn [ToInt16]. cbv zeta.
  pose proof (Z.mod_pos_bound (Qtrunc t) 65536 ltac:(lia)) as B.
  pose proof (Z.div_mod (Qtrunc t) 65536 ltac:(lia)) as E.
  destruct (Z.leb_spec 32768 (Qtrunc t mod 65536)); split; try lia.
  - symmetry. apply (Z.mod_unique _ _ (- (Qtrunc t / 65536) - 1)); lia.
  - symmetry. apply (Z.mod_unique _ _ (- (Qtrunc t / 65536))); lia.
Qed.

Lemma ToInt16_full_scale (q : Q) :
  (q == 1)%Q -> ToInt16 (number_mul (Finite q) 32768) = (-32768)%Z.
Proof.
  intro H. cbn [number_mul ToInt16]. cbv zeta.
  rewrite Qtrunc_times_32768.
  destruct q as [n d]. unfold Qeq in H. cbn [Qnum Qden] in *.
  replace n with (Zpos d) by lia.
  rewrite Z.mul_comm, Z.quot_mul by lia.
  reflexivity.
Qed.

Lemma uint8_bytes_back (v : Z) :
  (-32768 <= v <= 32767)%Z ->
  match int16_bytes v with
  | [lo; hi] => int16_of_bytes lo hi = v
  | _ => False
  end.
Proof.
  intro H. unfold int16_bytes. cbv zeta. unfold int16_of_bytes.
  set (u := Z.to_N (v mod 65536)).
  assert (Hu : (u < 65536)%N).
  { subst u. pose proof (Z.mod_pos_bound v 65536 ltac:(lia)). lia. }
  assert (Hlo : Byte.to_N (uint8 (u mod 256)) = (u mod 256)%N).
  { unfold uint8. rewrite N.Div0.mod_mod.
    pose proof (N.mod_lt u 256 ltac:(discriminate)) as B.
    destruct (Byte.of_N (u mod 256)) as [b|] eqn:E.
    - now apply Byte.to_of_N.
    - apply Byte.of_N_None_iff in E. lia. }
  assert (Hq : (u / 256 < 256)%N).
  { apply N.Div0.div_lt_upper_bound. lia. }
  assert (Hhi : Byte.to_N (uint8 (u / 256)) = (u / 256)%N).
  { unfold uint8. rewrite N.mod_small by assumption.
    destruct (Byte.of_N (u / 256)) as [b|] eqn:E.
    - now apply Byte.to_of_N.
    - apply Byte.of_N_None_iff in E. lia. }
  rewrite Hlo, Hhi.
  assert (Hv : (Z.of_N (u mod 256) + 256 * Z.of_N (u / 256) = v mod 65536)%Z).
  { pose proof (N.div_mod u 256 ltac:(discriminate)).
    pose proof (Z.mod_pos_bound v 65536 ltac:(lia)).
    subst u. lia. }
  rewrite Hv.
  destruct (Z_le_gt_dec 0 v) as [Hp | Hn].
  - rewrite Z.mod_small by lia.
    destruct (Z.leb_spec 32768 v); [lia | reflexivity].
  - replace (v mod 65536)%Z with (v + 65536)%Z.
    + destruct (Z.leb_spec 32768 (v + 65536)); lia.
    + apply (Z.mod_unique _ _ (-1)); lia.
Qed.

Lemma ToInt16_range (v : number) : (-32768 <= ToInt16 v <= 32767)%Z.
Proof.
  destruct v as [t | |]; [apply ToInt16_wraps | cbn; lia | cbn; lia].
Qed.

(** The buffer of an [Int16Array] reads back as the same samples. *)
Lemma Int16Array_of_Uint8Array (int16 : list Z) :
  Forall (fun v => (-32768 <= v <= 32767)%Z) int16 ->
  Int16Array_of_buffer (Uint8Array_of_Int16 int16) = Some int16.
Proof.
  intro H. unfold Int16Array_of_buffer.
  assert (E : Nat.even (List.length (Uint8Array_of_Int16 int16)) = true
              /\ int16_pairs (Uint8Array_of_Int16 int16) = int16).
  { induction H as [| v l Hv _ [IHe IHp]]; [split; reflexivity|].
    pose proof (uint8_bytes_back Hv) as B.
    unfold Uint8Array_of_Int16 in *. cbn [flat_map].
    destruct (int16_bytes v) as [| lo [| hi [| x r]]]; try contradiction.
    cbn [app List.length Nat.even int16_pairs]. split.
    - exact IHe.
    - now rewrite B, IHp. }
  destruct E as [-> ->]. reflexivity.
Qed.

(** C9.  [createPcmBlob] converts every sample [x] of the frame to
    [ToInt16 (x * 32768)], with no clamping: the value is the truncation of
    [x * 32768] kept modulo 2^16, so it equals the truncation itself for
    [-1 <= x < 1] and is [-32768] at full scale [x = 1.0]; the samples are
    packed low byte first, base64-encoded without loss, and the chunk is
    tagged ["audio/pcm;rate=16000"]. *)
Theorem createPcmBlob_encoding (data : list number) :
  let int16 := map (fun x => ToInt16 (number_mul x 32768)) data in
  mimeType (createPcmBlob data) = "audio/pcm;rate=16000"%string
  /\ decodeBase64 (blob_data (createPcmBlob data))
     = Some (Uint8Array_of_Int16 int16)
  /\ Int16Array_of_buffer (Uint8Array_of_Int16 int16) = Some int16
  /\ (forall x : Q,
        ((ToInt16 (number_mul (Finite x) 32768) - Qtrunc (x * 32768))
           mod 65536 = 0)%Z
        /\ ((-1 <= x)%Q -> (x < 1)%Q ->
            ToInt16 (number_mul (Finite x) 32768) = Qtrunc (x * 32768))
        /\ ((x == 1)%Q ->
            ToInt16 (number_mul (Finite x) 32768) = (-32768)%Z
            /\ Qtrunc (x * 32768) = 32768%Z)).
Proof.
  intro int16. repeat split.
  - apply decode_encode.
  - apply Int16Array_of_Uint8Array. subst int16.
    apply Forall_forall. intros v Hv. apply in_map_iff in Hv.
    destruct Hv as (x & <- & _). apply ToInt16_range.
  - apply ToInt16_wraps.
  - intros Hlo Hhi. cbn [number_mul]. apply ToInt16_small.
    now apply Qtrunc_in_range.
  - now apply ToInt16_full_scale.
  - rewrite Qtrunc_times_32768. destruct x as [n d].
    unfold Qeq in H. cbn [Qnum Qden] in *.
    replace n with (Zpos d) by lia.
    rewrite Z.mul_comm, Z.quot_mul by lia. reflexivity.
Qed.

(** The conversion at half scale and at full scale. *)
Lemma createPcmBlob_encoding_witness :
  ToInt16 (number_mul (Finite (1 # 2)) 32768) = 16384%Z
  /\ ToInt16 (number_mul (Finite 1) 32768) = (-32768)%Z.
Proof.
  destruct (createPcmBlob_encoding [Finite (1 # 2)]) as (_ & _ & _ & H).
  split.
  - destruct (H (1 # 2)) as (_ & Hin & _).
    rewrite Hin; [reflexivity | discriminate | reflexivity].
  - destruct (H 1%Q) as (_ & _ & Hfull).
    apply Hfull. reflexivity.
Defined.

(** ** Reasoning about handlers *)

Lemma world_eta (w : World) :
  mkWorld (state w) (trace w) (reactions w) (created w) = w.
Proof. destruct w; reflexivity. Qed.

(** *** Properties of the state kept by a handler, whether it returns or
        raises *)

Section PreservesRules.

Variable P : LiveAssistantState -> Prop.

Lemma preserves_ret A (a : A) : Preserves P (ret a).
Proof. intros w H; exact H. Qed.

Lemma preserves_throw A e : Preserves P (@throw A e).
Proof. intros w H; exact H. Qed.

Lemma preserves_lift A (r : Result A) : Preserves P (lift r).
Proof. intros w H; exact H. Qed.

Lemma preserves_get : Preserves P get.
Proof. intros w H; exact H. Qed.

Lemma preserves_emit e : Preserves P (emit e).
Proof. intros w H; exact H. Qed.

Lemma preserves_promise_then p r : Preserves P (promise_then p r).
Proof. intros w H; destruct p; exact H. Qed.

Lemma preserves_createBufferSource : Preserves P createBufferSource.
Proof. intros w H; exact H. Qed.

Lemma preserves_assign f :
  (forall s, P s -> P (f s)) -> Preserves P (assign f).
Proof. intros Hf w H. apply Hf, H. Qed.

Lemma preserves_bind A B (m : Handler A) (k : A -> Handler B) :
  Preserves P m -> (forall a, Preserves P (k a)) -> Preserves P (bind m k).
Proof.
  intros Hm Hk w H. specialize (Hm w H).
  unfold after, bind in *. destruct (m w) as [[a | e] w']; cbn in *.
  - now apply Hk.
  - exact Hm.
Qed.

Lemma preserves_try_catch A (body : Handler A) handler :
  Preserves P body -> (forall e, Preserves P (handler e)) ->
  Preserves P (try_catch body handler).
Proof.
  intros Hb Hh w H. specialize (Hb w H).
  unfold after, try_catch in *. destruct (body w) as [[a | e] w']; cbn in *.
  - exact Hb.
  - now apply Hh.
Qed.

Lemma preserves_forEach A (l : list A) f :
  (forall x, Preserves P (f x)) -> Preserves P (forEach l f).
Proof.
  intro Hf. induction l as [| x l IH]; cbn [forEach].
  - apply preserves_ret.
  - apply preserves_bind; [apply Hf | intros _; exact IH].
Qed.

Lemma preserves_start source when : Preserves P (start source when).
Proof.
  unfold start. destruct (started source).
  - apply preserves_throw.
  - apply preserves_bind; [apply preserves_emit | intro; apply preserves_ret].
Qed.

Lemma preserves_stop source : Preserves P (stop source).
Proof.
  unfold stop. destruct (started source);
    [apply preserves_emit | apply preserves_throw].
Qed.

Lemma preserves_run_reaction session r :
  (forall s, P s -> P (set_sessionPromise s None)) ->
  Preserves P (run_reaction session r).
Proof.
  intro H. destruct r; cbn [run_reaction]; try apply preserves_emit.
  apply preserves_bind; [apply preserves_emit | intro].
  now apply preserves_assign.
Qed.

Lemma preserves_fulfil p session :
  (forall s, P s -> P (set_sessionPromise s None)) ->
  Preserves P (fulfil p session).
Proof.
  intros H w Hw. unfold after, fulfil.
  apply (@preserves_forEach _ (map snd (filter (registered_on p) (reactions w)))
           (run_reaction session)
           (fun r => preserves_run_reaction session r H)
           (mkWorld (state w) (trace w)
              (filter (fun entry => negb (registered_on p entry)) (reactions w))
              (created w))).
  exact Hw.
Qed.

End PreservesRules.

(** Decomposes a goal [Preserves P h] along the structure of [h]; what is
    left are the assignments of [h], each to be shown to keep [P]. *)
Ltac preserve :=
  repeat first
    [ apply preserves_ret
    | apply preserves_throw
    | apply preserves_lift
    | apply preserves_get
    | apply preserves_emit
    | apply preserves_promise_then
    | apply preserves_createBufferSource
    | apply preserves_start
    | apply preserves_stop
    | apply preserves_forEach; intro
    | apply preserves_bind; [| intro]
    | apply preserves_try_catch; [| intro]
    | apply preserves_assign; intros ? ?
    | match goal with
      | |- Preserves _ (match ?x with _ => _ end) => destruct x
      end ].

(** *** Loops and single calls *)

Lemma forEach_emit A (l : list A) (f : A -> Event) w :
  forEach l (fun x => emit (f x)) w
  = (Returned tt,
     mkWorld (state w) (trace w ++ map f l) (reactions w) (created w)).
Proof.
  revert w. induction l as [| x l IH]; intro w; cbn [forEach map].
  - rewrite app_nil_r, world_eta. reflexivity.
  - unfold bind at 1. cbn [emit]. rewrite IH. cbn. now rewrite <- app_assoc.
Qed.

Lemma forEach_stop (l : list AudioBufferSourceNode) w :
  Forall (fun x => started x = true) l ->
  forEach l stop w
  = (Returned tt,
     mkWorld (state w) (trace w ++ map (fun x => source_stop (source_id x)) l)
             (reactions w) (created w)).
Proof.
  intro H. revert w. induction H as [| x l Hx _ IH]; intro w; cbn [forEach map].
  - rewrite app_nil_r, world_eta. reflexivity.
  - unfold bind at 1. unfold stop at 1. rewrite Hx. cbn [emit].
    rewrite IH. cbn. now rewrite <- app_assoc.
Qed.

Lemma playAudioBuffer_result audioBuffer clock outputNode next w :
  playAudioBuffer audioBuffer clock outputNode next w
  = (Returned (to_double (Math_max next clock + duration audioBuffer)),
     mkWorld
       (set_activeAudioSources (state w)
          (Set_add (mkSource (created w) (Some audioBuffer) true)
                   (activeAudioSources (state w))))
       (trace w ++ [node_connect (BufferSource (created w)) OutputGain;
                    source_start (created w) (Math_max next clock)])
       (reactions w) (S (created w))).
Proof.
  unfold playAudioBuffer, bind, createBufferSource, start, emit, assign, ret.
  cbn. now rewrite <- app_assoc.
Qed.

Lemma bind_returned A B (m : Handler A) (k : A -> Handler B) w a w' :
  m w = (Returned a, w') -> bind m k w = k a w'.
Proof. intro E. unfold bind. now rewrite E. Qed.

Lemma bind_ret_tt (m : Handler unit) w : bind m (fun _ => ret tt) w = m w.
Proof.
  unfold bind, ret. destruct (m w) as [[[] | e] w']; reflexivity.
Qed.

Lemma forEach_app A (l1 l2 : list A) (f : A -> Handler unit) w :
  forEach (l1 ++ l2) f w = bind (forEach l1 f) (fun _ => forEach l2 f) w.
Proof.
  revert w. induction l1 as [| x l1 IH]; intro w; cbn [app forEach].
  - reflexivity.
  - unfold bind. destruct (f x w) as [[[] | e] w1]; [| reflexivity].
    rewrite IH. reflexivity.
Qed.

(** ** [onmessage], block by block *)

Lemma even_length_push (A : Type) (h : list A) (a b : A) :
  Nat.even (List.length (h ++ [a; b])) = Nat.even (List.length h).
Proof.
  rewrite length_app. cbn [List.length].
  rewrite Nat.add_comm. reflexivity.
Qed.

Ltac unfold_handlers :=
  unfold bind, ret, get, assign, emit, lift, throw, promise_then, try_catch,
    createBufferSource in *.

(** Reduces the fields read from explicit worlds and states, in the
    goal. *)
Ltac simpl_world :=
  cbn [with_transcript set_isConnecting set_isConnected
       set_transcriptionHistory set_currentInputTranscription
       set_currentOutputTranscription set_microphoneStream
       set_inputAudioContext set_outputAudioContext set_inputScriptProcessor
       set_inputAudioSource set_outputGainNode set_playbackNextStartTime
       set_activeAudioSources set_sessionPromise
       state trace reactions created isConnecting isConnected
       transcriptionHistory currentInputTranscription
       currentOutputTranscription microphoneStream inputAudioContext
       outputAudioContext inputScriptProcessor inputAudioSource
       outputGainNode playbackNextStartTime activeAudioSources
       sessionPromise fst snd].

(** The same, in the hypotheses too. *)
Ltac simpl_worlds :=
  cbn [with_transcript set_isConnecting set_isConnected
       set_transcriptionHistory set_currentInputTranscription
       set_currentOutputTranscription set_microphoneStream
       set_inputAudioContext set_outputAudioContext set_inputScriptProcessor
       set_inputAudioSource set_outputGainNode set_playbackNextStartTime
       set_activeAudioSources set_sessionPromise
       state trace reactions created isConnecting isConnected
       transcriptionHistory currentInputTranscription
       currentOutputTranscription microphoneStream inputAudioContext
       outputAudioContext inputScriptProcessor inputAudioSource
       outputGainNode playbackNextStartTime activeAudioSources
       sessionPromise fst snd] in *.

Ltac open_world w :=
  destruct w as [[connecting connected history input output mic ictx octx
                  processor insource gain next active promise]
                 events pending count].

(** The transcription block returns and touches nothing but the two
    partials and the trace. *)
Lemma processTranscription_run message w :
  exists i o t,
    processTranscription message w
    = (Returned tt,
       mkWorld (with_transcript (state w) (transcriptionHistory (state w)) i o)
               (trace w ++ t) (reactions w) (created w)).
Proof.
  open_world w. unfold processTranscription.
  assert (Same : exists i o t,
             (Returned tt,
              mkWorld (mkState connecting connected history input output mic
                         ictx octx processor insource gain next active promise)
                      events pending count)
             = (Returned tt,
                mkWorld (with_transcript
                           (mkState connecting connected history input output
                              mic ictx octx processor insource gain next active
                              promise) history i o)
                        (events ++ t) pending count)).
  { exists input, output, []. simpl_worlds. now rewrite app_nil_r. }
  destruct (content_field message outputTranscription) as [[[text |]] |];
    cbn [transcription_text].
  - destruct (truthy text); [| exact Same].
    exists input, (output ++ text)%string,
      [onTranscription (output ++ text) false].
    reflexivity.
  - exact Same.
  - destruct (content_field message inputTranscription) as [[[text |]] |];
      cbn [transcription_text].
    + destruct (truthy text); [| exact Same].
      exists (input ++ text)%string, output,
        [onTranscription (input ++ text) true].
      reflexivity.
    + exact Same.
    + exact Same.
Qed.

Lemma processTurnComplete_run r message w :
  exists h i o,
    processTurnComplete r message w
    = (Returned tt,
       mkWorld (with_transcript (state w) h i o)
               (trace w) (reactions w) (created w))
    /\ Nat.even (List.length h)
       = Nat.even (List.length (transcriptionHistory (state w))).
Proof.
  open_world w. unfold processTurnComplete.
  destruct (content_flag message turnComplete);
    do 3 eexists; unfold_handlers; simpl_worlds; split;
    first [reflexivity | apply even_length_push].
Qed.

Lemma processAudio_cases r message w :
  processAudio r message w = audio_outcome r message w.
Proof.
  unfold processAudio, audio_outcome. unfold bind at 1. unfold get at 1.
  cbv beta iota.
  destruct (audioPayload message) as [base64 |];
    destruct (outputAudioContext (state w)) as [ctx |];
    destruct (outputGainNode (state w)) as [gain |]; try reflexivity.
  destruct (truthy base64); [| reflexivity].
  destruct (decodeBase64 base64) as [bytes |]; [| reflexivity].
  unfold bind at 1, lift at 1. unfold bind at 1, lift at 1.
  destruct (decodeAudioData bytes ctx 24000 1) as [audioBuffer | e];
    [| reflexivity].
  unfold bind at 1. unfold get at 1. cbv beta iota.
  unfold bind at 1. rewrite playAudioBuffer_result.
  unfold bind, assign, emit, scheduled. simpl_worlds.
  now rewrite <- app_assoc.
Qed.

Lemma handleInterruption_run message w :
  content_flag message interrupted = true ->
  Forall (fun x => started x = true) (activeAudioSources (state w)) ->
  handleInterruption message w
  = (Returned tt,
     mkWorld
       (set_playbackNextStartTime (set_activeAudioSources (state w) []) 0)
       (trace w ++ map (fun x => source_stop (source_id x))
                       (activeAudioSources (state w)))
       (reactions w) (created w)).
Proof.
  intros Hi Hs. unfold handleInterruption. rewrite Hi.
  unfold bind at 1. cbn [get]. unfold bind at 1.
  rewrite (forEach_stop w Hs). reflexivity.
Qed.

Lemma handleInterruption_skip message w :
  content_flag message interrupted = false ->
  handleInterruption message w = (Returned tt, w).
Proof. intro Hi. unfold handleInterruption. now rewrite Hi. Qed.

Lemma answer_run (fc : FunctionCall) w :
  (s <- get ;;
   promise_then (sessionPromise s)
     (thenSendToolResponse (call_id fc) (call_name fc) TOOL_RESULT)) w
  = (Returned tt,
     mkWorld (state w) (trace w)
             (reactions w ++ tool_reactions (sessionPromise (state w)) [fc])
             (created w)).
Proof.
  unfold bind, get, promise_then, tool_reactions.
  destruct (sessionPromise (state w)); cbn [map].
  - reflexivity.
  - now rewrite app_nil_r, world_eta.
Qed.

Lemma tool_reactions_cons promise fc l :
  tool_reactions promise (fc :: l)
  = tool_reactions promise [fc] ++ tool_reactions promise l.
Proof. destruct promise; reflexivity. Qed.

Lemma handleToolCalls_run message w :
  handleToolCalls message w
  = (Returned tt,
     mkWorld (state w) (trace w)
             (reactions w ++ tool_reactions (sessionPromise (state w)) (requests message))
             (created w)).
Proof.
  unfold handleToolCalls, requests.
  assert (Nil : forall w promise,
             (Returned tt, w)
             = (Returned tt,
                mkWorld (state w) (trace w)
                        (reactions w ++ tool_reactions promise []) (created w))).
  { intros w0 promise. unfold tool_reactions.
    destruct promise; cbn [map]; now rewrite app_nil_r, world_eta. }
  destruct (toolCall message) as [call |]; [| apply Nil].
  generalize (functionCalls call) as l. intro l. revert w.
  induction l as [| fc l IH]; intro w; cbn [forEach]; [apply Nil |].
  erewrite bind_returned by apply answer_run. rewrite IH.
  cbn [state trace reactions created].
  now rewrite (tool_reactions_cons _ fc l), app_assoc.
Qed.

Lemma processAudio_preserves (P : LiveAssistantState -> Prop) r message :
  (forall w audioBuffer, P (state w) ->
     P (state (scheduled audioBuffer (currentTime r) w))) ->
  Preserves P (processAudio r message).
Proof.
  intros H w Hw. unfold after. rewrite processAudio_cases.
  unfold audio_outcome.
  destruct (audioPayload message) as [base64 |];
    destruct (outputAudioContext (state w)) as [ctx |];
    destruct (outputGainNode (state w)) as [gain |]; try exact Hw.
  destruct (truthy base64); [| exact Hw].
  destruct (decodeBase64 base64) as [bytes |]; [| exact Hw].
  destruct (decodeAudioData bytes ctx 24000 1) as [audioBuffer | e];
    [| exact Hw].
  now apply H.
Qed.

(** ** The invariant of reachable worlds *)

Lemma Set_add_started x l :
  started x = true ->
  Forall (fun y => started y = true) l ->
  Forall (fun y => started y = true) (Set_add x l).
Proof.
  intros Hx Hl. unfold Set_add. destruct (Set_has (source_id x) l).
  - exact Hl.
  - apply Forall_app. split; [exact Hl | now constructor].
Qed.

Lemma Set_delete_started source l :
  Forall (fun y => started y = true) l ->
  Forall (fun y => started y = true) (Set_delete source l).
Proof.
  intro H. unfold Set_delete. apply Forall_forall. intros y Hy.
  apply filter_In in Hy. destruct Hy as [Hy _].
  revert y Hy. now apply Forall_forall.
Qed.

Ltac keep_consistent :=
  preserve;
  match goal with
  | H : consistent _ |- consistent _ =>
      unfold consistent in *; simpl_worlds;
      first [ exact H
            | destruct H; split; first [assumption | constructor | reflexivity] ]
  end.

Lemma stopConversation_consistent : Preserves consistent stopConversation.
Proof. unfold stopConversation. keep_consistent. Qed.

Lemma startConversation_consistent : Preserves consistent startConversation.
Proof. unfold startConversation. keep_consistent. Qed.

Lemma startConversation_resume_consistent env :
  Preserves consistent (startConversation_resume env).
Proof.
  unfold startConversation_resume.
  apply preserves_try_catch; [keep_consistent | intro e].
  do 3 (apply preserves_bind; [keep_consistent | intro]).
  apply stopConversation_consistent.
Qed.

Lemma onopen_consistent : Preserves consistent onopen.
Proof. unfold onopen. keep_consistent. Qed.

Lemma onaudioprocess_consistent inputData :
  Preserves consistent (onaudioprocess inputData).
Proof. unfold onaudioprocess. keep_consistent. Qed.

Lemma onerror_consistent e : Preserves consistent (onerror e).
Proof.
  unfold onerror. apply preserves_bind; [apply preserves_emit | intro].
  apply stopConversation_consistent.
Qed.

Lemma onclose_consistent : Preserves consistent onclose.
Proof.
  unfold onclose. apply preserves_bind; [apply preserves_emit | intro].
  apply stopConversation_consistent.
Qed.

Lemma ended_consistent source : Preserves consistent (ended source).
Proof.
  unfold ended. apply preserves_assign. intros s [Hs He]. split.
  - simpl_worlds. now apply Set_delete_started.
  - exact He.
Qed.

Lemma fulfil_consistent p session : Preserves consistent (fulfil p session).
Proof. apply preserves_fulfil. intros s H. exact H. Qed.

Lemma onmessage_consistent r message :
  Preserves consistent (onmessage r message).
Proof.
  unfold onmessage.
  apply preserves_bind; [| intro]; [| apply preserves_bind; [| intro];
    [| apply preserves_bind; [| intro]; [| apply preserves_bind; [| intro]]]].
  - unfold processTranscription. keep_consistent.
  - unfold processTurnComplete. preserve;
      match goal with H : consistent _ |- _ => destruct H as [Hs He] end;
      split; simpl_worlds; try assumption.
    now rewrite even_length_push.
  - apply processAudio_preserves. intros w audioBuffer [Hs He]. split.
    + unfold scheduled. simpl_worlds. now apply Set_add_started.
    + exact He.
  - unfold handleInterruption. keep_consistent.
  - unfold handleToolCalls. keep_consistent.
Qed.

Lemma reachable_consistent w : reachable w -> consistent (state w).
Proof.
  induction 1 as [| w w' _ IH HS].
  - split; [constructor | reflexivity].
  - destruct HS.
    + now apply startConversation_consistent.
    + now apply startConversation_resume_consistent.
    + now apply onopen_consistent.
    + now apply onaudioprocess_consistent.
    + now apply onmessage_consistent.
    + now apply onerror_consistent.
    + now apply onclose_consistent.
    + now apply stopConversation_consistent.
    + now apply ended_consistent.
    + now apply fulfil_consistent.
Qed.

(** ** A whole run of [onmessage] *)

Lemma audio_outcome_cases r message w :
  audio_outcome r message w = (Returned tt, w)
  \/ (exists audioBuffer,
        audio_outcome r message w
        = (Returned tt, scheduled audioBuffer (currentTime r) w))
  \/ (exists e, audio_outcome r message w = (Thrown e, w)
                /\ audio_decodes message (state w) = false).
Proof.
  unfold audio_outcome, audio_decodes.
  destruct (audioPayload message) as [base64 |];
    destruct (outputAudioContext (state w)) as [ctx |];
    destruct (outputGainNode (state w)) as [gain |]; auto.
  destruct (truthy base64); auto.
  destruct (decodeBase64 base64) as [bytes |]; [| right; right; eauto].
  destruct (decodeAudioData bytes ctx 24000 1) as [audioBuffer | e];
    [right; left; eauto | right; right; eauto].
Qed.

Lemma scheduled_consistent audioBuffer clock w :
  consistent (state w) -> consistent (state (scheduled audioBuffer clock w)).
Proof.
  intros [Hs He]. split; unfold scheduled; simpl_worlds;
    [now apply Set_add_started | exact He].
Qed.

Lemma onmessage_split r message w :
  onmessage r message w
  = bind (before_interruption r message)
         (fun _ => handleInterruption message ;; handleToolCalls message) w.
Proof.
  unfold onmessage, before_interruption, bind.
  destruct (processTranscription message w) as [[[] | e1] w1]; [| reflexivity].
  destruct (processTurnComplete r message w1) as [[[] | e2] w2]; [| reflexivity].
  destruct (processAudio r message w2) as [[[] | e3] w3]; reflexivity.
Qed.

(** When the payload (if any) decodes, the first three blocks return;
    they leave the playback side as it was, or with one more source
    scheduled. *)
Lemma before_interruption_run r message w :
  consistent (state w) ->
  audio_decodes message (state w) = true ->
  exists h i o t w3,
    let w2 := mkWorld (with_transcript (state w) h i o) (trace w ++ t)
                      (reactions w) (created w) in
    (w3 = w2 \/ exists audioBuffer, w3 = scheduled audioBuffer (currentTime r) w2)
    /\ consistent (state w3)
    /\ before_interruption r message w = (Returned tt, w3).
Proof.
  intros Hc Hd. unfold before_interruption.
  destruct (processTranscription_run message w) as (i1 & o1 & t & E1).
  erewrite bind_returned by exact E1.
  match type of E1 with _ = (_, ?W) => set (w1 := W) in * end.
  destruct (processTurnComplete_run r message w1) as (h & i & o & E2 & Ev).
  erewrite bind_returned by exact E2.
  match type of E2 with _ = (_, ?W) => set (w2 := W) in * end.
  assert (E : w2 = mkWorld (with_transcript (state w) h i o) (trace w ++ t)
                           (reactions w) (created w)).
  { subst w2 w1. simpl_worlds. reflexivity. }
  assert (Hc2 : consistent (state w2)).
  { rewrite E. destruct Hc as [Hs He]. split; simpl_worlds.
    - exact Hs.
    - subst w1. simpl_worlds. now rewrite Ev. }
  assert (Hd2 : audio_decodes message (state w2) = true).
  { rewrite E. unfold audio_decodes in *. simpl_worlds. exact Hd. }
  exists h, i, o, t. rewrite <- E. rewrite processAudio_cases.
  destruct (audio_outcome_cases r message w2) as [E3 | [[b E3] | [e [E3 F]]]].
  - exists w2. repeat split; [now left | apply Hc2 | apply Hc2 | exact E3].
  - exists (scheduled b (currentTime r) w2).
    pose proof (@scheduled_consistent b (currentTime r) w2 Hc2) as [Hs He].
    repeat split; [right; now exists b | exact Hs | exact He | exact E3].
  - congruence.
Qed.

Lemma onmessage_run r message w :
  consistent (state w) ->
  audio_decodes message (state w) = true ->
  exists w3,
    before_interruption r message w = (Returned tt, w3)
    /\ consistent (state w3)
    /\ onmessage r message w
       = (Returned tt, answered message (interruption message w3)).
Proof.
  intros Hc Hd.
  destruct (@before_interruption_run r message w Hc Hd)
    as (h & i & o & t & w3 & _ & Hc3 & E).
  exists w3. split; [exact E |]. split; [exact Hc3 |].
  rewrite onmessage_split. erewrite bind_returned by exact E.
  unfold interruption.
  destruct (content_flag message interrupted) eqn:Hi.
  - erewrite bind_returned
      by (apply handleInterruption_run; [exact Hi | apply Hc3]).
    apply handleToolCalls_run.
  - erewrite bind_returned by (apply handleInterruption_skip; exact Hi).
    apply handleToolCalls_run.
Qed.

(** ** Doubles *)

Section Rounding.

Local Open Scope Q_scope.

Lemma pow2_pos (e : Z) : 0 < 2 ^ e.
Proof. apply Qpower_0_lt. reflexivity. Qed.

Lemma pow2_plus (a b : Z) : 2 ^ (a + b) == 2 ^ a * 2 ^ b.
Proof. apply Qpower_plus. discriminate. Qed.

Lemma pow2_le (a b : Z) : (a <= b)%Z -> 2 ^ a <= 2 ^ b.
Proof. intro H. apply Qpower_le_compat_l; [exact H | discriminate]. Qed.

Lemma pow2_lt_inv (a b : Z) : 2 ^ a < 2 ^ b -> (a < b)%Z.
Proof. intro H. apply (Qpower_lt_compat_l_inv 2); [exact H | reflexivity]. Qed.

Lemma pow2_Z (k : Z) : (0 <= k)%Z -> inject_Z (2 ^ k) == 2 ^ k.
Proof. intro H. now rewrite Zpower_Qpower. Qed.

Lemma pow2_cancel (a : Z) : 2 ^ a * 2 ^ (- a) == 1.
Proof. rewrite <- pow2_plus, Z.add_opp_diag_r. reflexivity. Qed.

Lemma Qfloor_log2_spec (q : Q) :
  0 < q -> 2 ^ Qfloor_log2 q <= q /\ q < 2 ^ (Qfloor_log2 q + 1).
Proof.
  intro Hq. destruct q as [n d].
  assert (Hn : (0 < n)%Z) by (unfold Qlt in Hq; cbn in Hq; lia).
  unfold Qfloor_log2. cbn [Qnum Qden].
  set (ln := Z.log2 n). set (ld := Z.log2 (Zpos d)).
  destruct (Z.log2_spec n Hn) as [N1 N2]. fold ln in N1, N2.
  destruct (Z.log2_spec (Zpos d) (Pos2Z.is_pos d)) as [D1 D2]. fold ld in D1, D2.
  assert (Ln : (0 <= ln)%Z) by apply Z.log2_nonneg.
  assert (Ld : (0 <= ld)%Z) by apply Z.log2_nonneg.
  assert (Hd : 0 < inject_Z (Zpos d)) by reflexivity.
  assert (Up : n # d < 2 ^ (ln - ld + 1)).
  { rewrite (Qmake_Qdiv n d). apply Qlt_shift_div_r; [exact Hd |].
    apply Qlt_le_trans with (2 ^ (ln + 1)).
    - rewrite <- pow2_Z by lia. rewrite <- Zlt_Qlt. unfold Z.succ in N2. exact N2.
    - replace (ln + 1)%Z with ((ln - ld + 1) + ld)%Z by lia.
      rewrite pow2_plus. apply Qmult_le_l; [apply pow2_pos |].
      rewrite <- pow2_Z by lia. now rewrite <- Zle_Qle. }
  assert (Low : 2 ^ (ln - ld - 1) < n # d).
  { rewrite (Qmake_Qdiv n d). apply Qlt_shift_div_l; [exact Hd |].
    apply Qlt_le_trans with (2 ^ ln).
    - replace ln with ((ln - ld - 1) + (ld + 1))%Z at 2 by lia.
      rewrite pow2_plus. apply Qmult_lt_l; [apply pow2_pos |].
      rewrite <- pow2_Z by lia. rewrite <- Zlt_Qlt. unfold Z.succ in D2. exact D2.
    - rewrite <- pow2_Z by lia. now rewrite <- Zle_Qle. }
  destruct (Qle_bool (2 ^ (ln - ld)) (n # d)) eqn:T.
  - split; [now apply Qle_bool_iff | exact Up].
  - split; [now apply Qlt_le_weak |].
    replace (ln - ld - 1 + 1)%Z with (ln - ld)%Z by lia.
    apply Qnot_le_lt. intro H. apply Qle_bool_iff in H. congruence.
Qed.

Lemma Qfloor_log2_unique (q : Q) (e : Z) :
  2 ^ e <= q -> q < 2 ^ (e + 1) -> Qfloor_log2 q = e.
Proof.
  intros H1 H2.
  assert (Hq : 0 < q) by (eapply Qlt_le_trans; [apply pow2_pos | exact H1]).
  destruct (Qfloor_log2_spec Hq) as [S1 S2].
  assert (A : (e < Qfloor_log2 q + 1)%Z).
  { apply pow2_lt_inv. eapply Qle_lt_trans; eassumption. }
  assert (B : (Qfloor_log2 q < e + 1)%Z).
  { apply pow2_lt_inv. eapply Qle_lt_trans; eassumption. }
  lia.
Qed.

Lemma round_half_even_bounds (q : Q) :
  (Qfloor q <= round_half_even q <= Qfloor q + 1)%Z.
Proof.
  unfold round_half_even.
  destruct (q - inject_Z (Qfloor q) ?= 1 # 2); [destruct (Z.even _) | |]; lia.
Qed.

Lemma round_half_even_Z (n : Z) : round_half_even (inject_Z n) = n.
Proof.
  unfold round_half_even. rewrite Qfloor_Z.
  destruct (inject_Z n - inject_Z n ?= 1 # 2) eqn:C;
    [apply Qeq_alt in C; lra | reflexivity | apply Qgt_alt in C; lra].
Qed.

Lemma round_half_even_le (a b : Q) :
  a <= b -> (round_half_even a <= round_half_even b)%Z.
Proof.
  intro H. pose proof (Qfloor_resp_le _ _ H) as F.
  pose proof (round_half_even_bounds a) as Ba.
  pose proof (round_half_even_bounds b) as Bb.
  destruct (Z.eq_dec (Qfloor a) (Qfloor b)) as [E | N]; [| lia].
  clear Ba Bb F. unfold round_half_even. rewrite <- E.
  generalize (Qfloor a) as k. intro k. clear E.
  destruct (Qcompare_spec (a - inject_Z k) (1 # 2)) as [Ca | Ca | Ca];
    destruct (Qcompare_spec (b - inject_Z k) (1 # 2)) as [Cb | Cb | Cb];
    try (destruct (Z.even k); lia); try lia; exfalso; lra.
Qed.

Lemma round_half_even_eq (a b : Q) :
  a == b -> round_half_even a = round_half_even b.
Proof.
  intro H. apply Z.le_antisymm; apply round_half_even_le; rewrite H; apply Qle_refl.
Qed.

Lemma Qabs_nonneg_eq (q : Q) : 0 <= q -> Qabs q = q.
Proof.
  destruct q as [n d]. unfold Qle, Qabs. cbn. intro H.
  now rewrite Z.abs_eq by lia.
Qed.

Lemma to_double_pos (q : Q) :
  0 < q ->
  to_double q
  == inject_Z (round_half_even (q * 2 ^ (- ulp_exponent q))) * 2 ^ ulp_exponent q.
Proof.
  intro H. unfold to_double.
  destruct (Qeq_bool q 0) eqn:E.
  - apply Qeq_bool_iff in E. rewrite E in H. discriminate H.
  - rewrite Qabs_nonneg_eq by now apply Qlt_le_weak. apply Qred_correct.
Qed.

Lemma to_double_zero (q : Q) : q == 0 -> to_double q = 0.
Proof.
  intro H. unfold to_double. apply Qeq_bool_iff in H. now rewrite H.
Qed.

Lemma scale_back (q : Q) (e : Z) : q * 2 ^ (- e) * 2 ^ e == q.
Proof.
  rewrite <- Qmult_assoc, (Qmult_comm (2 ^ (- e))), pow2_cancel. apply Qmult_1_r.
Qed.

(** A number above [a] that is a multiple of the unit of [a]. *)
Lemma to_double_below (a p : Q) (n : Z) :
  0 < a -> a <= p -> p * 2 ^ (- ulp_exponent a) == inject_Z n ->
  to_double a <= p.
Proof.
  intros Ha Hp Hn. rewrite (to_double_pos Ha).
  rewrite <- (scale_back p (ulp_exponent a)).
  apply Qmult_le_r; [apply pow2_pos |]. rewrite Hn. rewrite <- Zle_Qle.
  rewrite <- (round_half_even_Z n). apply round_half_even_le.
  rewrite <- Hn. apply Qmult_le_r; [apply pow2_pos | exact Hp].
Qed.

Lemma to_double_above (b p : Q) (n : Z) :
  0 < b -> p <= b -> p * 2 ^ (- ulp_exponent b) == inject_Z n ->
  p <= to_double b.
Proof.
  intros Hb Hp Hn. rewrite (to_double_pos Hb).
  rewrite <- (scale_back p (ulp_exponent b)) at 1.
  apply Qmult_le_r; [apply pow2_pos |]. rewrite Hn. rewrite <- Zle_Qle.
  rewrite <- (round_half_even_Z n) at 1. apply round_half_even_le.
  rewrite <- Hn. apply Qmult_le_r; [apply pow2_pos | exact Hp].
Qed.

Lemma to_double_exact (y : Q) (m : Z) :
  0 < y -> y * 2 ^ (- ulp_exponent y) == inject_Z m -> to_double y == y.
Proof.
  intros Hy Hm. apply Qle_antisym.
  - apply (@to_double_below y y m Hy); [apply Qle_refl | exact Hm].
  - apply (@to_double_above y y m Hy); [apply Qle_refl | exact Hm].
Qed.

Lemma to_double_nonneg (q : Q) : 0 <= q -> 0 <= to_double q.
Proof.
  intro H. destruct (Qeq_bool q 0) eqn:E.
  - apply Qeq_bool_iff in E. rewrite (to_double_zero E). apply Qle_refl.
  - assert (Hq : 0 < q).
    { apply Qle_lteq in H. destruct H as [H | H]; [exact H |].
      symmetry in H. apply Qeq_bool_iff in H. congruence. }
    rewrite (to_double_pos Hq).
    apply Qmult_le_0_compat; [| apply Qlt_le_weak, pow2_pos].
    change 0 with (inject_Z 0). rewrite <- Zle_Qle.
    rewrite <- (round_half_even_Z 0). apply round_half_even_le.
    apply Qmult_le_0_compat; [exact H | apply Qlt_le_weak, pow2_pos].
Qed.

Lemma pow2_scaled (a b : Z) :
  (b <= a)%Z -> 2 ^ a * 2 ^ (- b) == inject_Z (2 ^ (a - b)).
Proof.
  intro H. rewrite <- pow2_plus, pow2_Z by lia. now rewrite Z.add_opp_r.
Qed.

Lemma Qfloor_log2_le (a b : Q) :
  0 < a -> a <= b -> (Qfloor_log2 a <= Qfloor_log2 b)%Z.
Proof.
  intros Ha Hab.
  assert (Hb : 0 < b) by (eapply Qlt_le_trans; eassumption).
  destruct (Qfloor_log2_spec Ha) as [A1 _].
  destruct (Qfloor_log2_spec Hb) as [_ B2].
  assert (L : (Qfloor_log2 a < Qfloor_log2 b + 1)%Z).
  { apply pow2_lt_inv. eapply Qle_lt_trans; [| exact B2].
    eapply Qle_trans; eassumption. }
  lia.
Qed.

(** Rounding keeps the order. *)
Lemma to_double_le (a b : Q) :
  0 <= a -> a <= b -> to_double a <= to_double b.
Proof.
  intros Ha Hab.
  assert (Hb0 : 0 <= b) by (eapply Qle_trans; eassumption).
  destruct (Qeq_bool a 0) eqn:E.
  { apply Qeq_bool_iff in E. rewrite (to_double_zero E).
    now apply to_double_nonneg. }
  assert (Ha' : 0 < a).
  { apply Qle_lteq in Ha. destruct Ha as [H | H]; [exact H |].
    symmetry in H. apply Qeq_bool_iff in H. congruence. }
  assert (Hb : 0 < b) by (eapply Qlt_le_trans; eassumption).
  pose proof (Qfloor_log2_le Ha' Hab) as L.
  destruct (Z.eq_dec (ulp_exponent a) (ulp_exponent b)) as [U | U].
  - rewrite (to_double_pos Ha'), (to_double_pos Hb), U.
    apply Qmult_le_r; [apply pow2_pos |]. rewrite <- Zle_Qle.
    apply round_half_even_le. apply Qmult_le_r; [apply pow2_pos | exact Hab].
  - unfold ulp_exponent in U.
    destruct (Qfloor_log2_spec Ha') as [_ A2].
    destruct (Qfloor_log2_spec Hb) as [B1 _].
    apply Qle_trans with (2 ^ Qfloor_log2 b).
    + apply (@to_double_below a (2 ^ Qfloor_log2 b)
               (2 ^ (Qfloor_log2 b - ulp_exponent a))%Z Ha').
      * apply Qlt_le_weak. eapply Qlt_le_trans; [exact A2 |].
        apply pow2_le. lia.
      * apply pow2_scaled. unfold ulp_exponent. lia.
    + apply (@to_double_above b (2 ^ Qfloor_log2 b)
               (2 ^ (Qfloor_log2 b - ulp_exponent b))%Z Hb B1).
      apply pow2_scaled. unfold ulp_exponent. lia.
Qed.

Lemma Qabs_pos_iff (q : Q) : ~ q == 0 -> 0 < Qabs q.
Proof.
  destruct q as [n d]. unfold Qeq, Qlt, Qabs. cbn. lia.
Qed.

Lemma Qfloor_log2_eq (a b : Q) :
  0 < a -> a == b -> Qfloor_log2 a = Qfloor_log2 b.
Proof.
  intros Ha E. assert (Hb : 0 < b) by now rewrite <- E.
  destruct (Qfloor_log2_spec Hb) as [B1 B2].
  apply Qfloor_log2_unique; now rewrite E.
Qed.

(** Rounding depends on the value only, not on the fraction that
    carries it. *)
Lemma to_double_eq (a b : Q) : a == b -> to_double a = to_double b.
Proof.
  intro E. unfold to_double.
  destruct (Qeq_bool a 0) eqn:A; destruct (Qeq_bool b 0) eqn:B;
    try reflexivity.
  - apply Qeq_bool_iff in A. rewrite E in A. apply Qeq_bool_iff in A. congruence.
  - apply Qeq_bool_iff in B. rewrite <- E in B. apply Qeq_bool_iff in B. congruence.
  - assert (Na : ~ a == 0).
    { intro H. apply Qeq_bool_iff in H. congruence. }
    assert (U : ulp_exponent (Qabs a) = ulp_exponent (Qabs b)).
    { unfold ulp_exponent. f_equal. f_equal.
      apply Qfloor_log2_eq; [now apply Qabs_pos_iff | now rewrite E]. }
    rewrite <- U. apply Qred_complete.
    rewrite (round_half_even_eq (a := a * 2 ^ (- ulp_exponent (Qabs a)))
                                (b := b * 2 ^ (- ulp_exponent (Qabs a))));
      [reflexivity | apply Qmult_comp; [exact E | reflexivity]].
Qed.

(** A positive multiple [r * 2^u] of a power of two with at most 53 bits
    in [r] and [u] not under the floor is a double. *)
Lemma to_double_multiple (r u : Z) :
  (0 < r <= 2 ^ 53)%Z -> (-1074 <= u)%Z ->
  to_double (inject_Z r * 2 ^ u) == inject_Z r * 2 ^ u.
Proof.
  intros Hr Hu. set (y := inject_Z r * 2 ^ u).
  assert (Hy : 0 < y).
  { apply Qmult_lt_0_compat; [| apply pow2_pos].
    change 0 with (inject_Z 0). rewrite <- Zlt_Qlt. lia. }
  destruct (Z.log2_spec r (proj1 Hr)) as [R1 R2].
  pose proof (Z.log2_nonneg r) as R0.
  assert (L : Qfloor_log2 y = (Z.log2 r + u)%Z).
  { apply Qfloor_log2_unique; unfold y.
    - rewrite pow2_plus. apply Qmult_le_r; [apply pow2_pos |].
      rewrite <- pow2_Z by lia. now rewrite <- Zle_Qle.
    - replace (Z.log2 r + u + 1)%Z with ((Z.log2 r + 1) + u)%Z by lia.
      rewrite pow2_plus. apply Qmult_lt_r; [apply pow2_pos |].
      rewrite <- pow2_Z by lia. rewrite <- Zlt_Qlt. exact R2. }
  assert (R53 : (Z.log2 r <= 53)%Z).
  { rewrite <- (Z.log2_pow2 53) by lia. apply Z.log2_le_mono. lia. }
  destruct (Z.eq_dec (Z.log2 r) 53) as [E | N].
  - assert (Er : r = (2 ^ 53)%Z).
    { rewrite E in R1. lia. }
    apply (@to_double_exact y (2 ^ 52)%Z Hy).
    unfold ulp_exponent. rewrite L, E.
    replace (Z.max (53 + u - 52) (-1074)) with (u + 1)%Z by lia.
    unfold y. rewrite Er, <- Qmult_assoc, <- pow2_plus.
    replace (u + - (u + 1))%Z with (-1)%Z by lia. reflexivity.
  - apply (@to_double_exact y (r * 2 ^ (u - ulp_exponent y))%Z Hy).
    assert (U : (ulp_exponent y <= u)%Z) by (unfold ulp_exponent; lia).
    unfold y at 1. rewrite <- Qmult_assoc, pow2_scaled by exact U.
    now rewrite inject_Z_mult.
Qed.

(** The result of rounding is a double: rounding it again changes
    nothing. *)
Lemma to_double_idempotent (q : Q) :
  0 <= q -> to_double (to_double q) == to_double q.
Proof.
  intro H. destruct (Qeq_bool q 0) eqn:E.
  { apply Qeq_bool_iff in E. rewrite (to_double_zero E). reflexivity. }
  assert (Hq : 0 < q).
  { apply Qle_lteq in H. destruct H as [H | H]; [exact H |].
    symmetry in H. apply Qeq_bool_iff in H. congruence. }
  pose proof (to_double_pos Hq) as P.
  set (u := ulp_exponent q) in *.
  set (r := round_half_even (q * 2 ^ (- u))) in *.
  assert (Hu : (-1074 <= u)%Z) by (unfold u, ulp_exponent; lia).
  destruct (Qfloor_log2_spec Hq) as [_ Q2].
  assert (R0 : (0 <= r)%Z).
  { rewrite <- (round_half_even_Z 0). apply round_half_even_le.
    apply Qmult_le_0_compat; [exact H | apply Qlt_le_weak, pow2_pos]. }
  assert (R53 : (r <= 2 ^ 53)%Z).
  { rewrite <- (round_half_even_Z (2 ^ 53)). apply round_half_even_le.
    apply Qle_trans with (2 ^ (Qfloor_log2 q + 1) * 2 ^ (- u)).
    - apply Qmult_le_r; [apply pow2_pos | now apply Qlt_le_weak].
    - rewrite <- pow2_plus.
      change (inject_Z (2 ^ 53)) with (inject_Z (2 ^ 53)%Z).
      rewrite pow2_Z by lia. apply pow2_le. unfold u, ulp_exponent. lia. }
  destruct (Z.eq_dec r 0) as [Z0 | NZ].
  - assert (Y : to_double q == 0).
    { rewrite P, Z0. apply Qmult_0_l. }
    rewrite (to_double_zero Y). symmetry. exact Y.
  - assert (Y : to_double (inject_Z r * 2 ^ u) == inject_Z r * 2 ^ u)
      by (apply to_double_multiple; lia).
    rewrite (to_double_eq P), Y. symmetry. exact P.
Qed.

(** Adding a number that is not negative to a double that is not
    negative, the sum as rounded is not below the double. *)
Lemma double_add_le (s d : Q) :
  0 <= s -> is_double s -> 0 <= d -> s <= to_double (s + d).
Proof.
  intros Hs Ds Hd. unfold is_double in Ds. rewrite <- Ds at 1.
  apply to_double_le; [exact Hs | lra].
Qed.

Lemma zero_double : is_double 0.
Proof. reflexivity. Qed.

End Rounding.

(** ** Playback scheduling *)

Lemma Math_max_ge_l (a b : Q) : (a <= Math_max a b)%Q.
Proof.
  unfold Math_max. destruct (Qle_bool a b) eqn:E.
  - now apply Qle_bool_iff.
  - apply Qle_refl.
Qed.

Lemma Math_max_ge_r (a b : Q) : (b <= Math_max a b)%Q.
Proof.
  unfold Math_max. destruct (Qle_bool a b) eqn:E.
  - apply Qle_refl.
  - apply Qlt_le_weak, Qnot_le_lt. intro H.
    apply Qle_bool_iff in H. congruence.
Qed.

Lemma Math_max_zero (clock : Q) : (0 <= clock)%Q -> Math_max 0 clock = clock.
Proof.
  intro H. unfold Math_max. apply Qle_bool_iff in H. now rewrite H.
Qed.

Lemma duration_nonneg (b : AudioBuffer) : (0 <= duration b)%Q.
Proof. apply to_double_nonneg. unfold Qle. cbn. lia. Qed.

Lemma start_nonneg (next clock : Q) (b : AudioBuffer) :
  (0 <= next)%Q -> (0 <= Math_max next clock + duration b)%Q.
Proof.
  intro H. pose proof (Math_max_ge_l next clock).
  pose proof (duration_nonneg b). lra.
Qed.

Lemma start_advances (next clock d : Q) :
  (0 <= next)%Q -> is_double next -> (0 <= d)%Q ->
  (next <= to_double (Math_max next clock + d))%Q.
Proof.
  intros H0 Hd Hb. unfold is_double in Hd. rewrite <- Hd at 1.
  apply to_double_le; [exact H0 |].
  pose proof (Math_max_ge_l next clock). lra.
Qed.

Lemma start_timely (next clock d : Q) :
  (0 <= next)%Q -> (0 <= d)%Q ->
  (0 <= to_double (Math_max next clock + d))%Q
  /\ is_double (to_double (Math_max next clock + d)).
Proof.
  intros H0 Hd. pose proof (Math_max_ge_l next clock).
  split; [apply to_double_nonneg | apply to_double_idempotent]; lra.
Qed.

Lemma start_times_app (t u : list Event) :
  start_times (t ++ u) = start_times t ++ start_times u.
Proof. unfold start_times. apply flat_map_app. Qed.

Lemma last_cons_default (A : Type) (l : list A) (a d : A) :
  last (a :: l) d = last l a.
Proof.
  revert a d. induction l as [| b l IH]; intros a d; [reflexivity |].
  change (last (a :: b :: l) d) with (last (b :: l) d).
  now rewrite !IH.
Qed.

(** *** The start time of the session is a double *)

Lemma scheduled_timely audioBuffer clock w :
  timely (state w) -> timely (state (scheduled audioBuffer clock w)).
Proof.
  intros [H0 _]. unfold scheduled, timely. simpl_worlds.
  apply start_timely; [exact H0 | apply duration_nonneg].
Qed.

Ltac keep_timely :=
  preserve;
  match goal with
  | H : timely _ |- timely _ =>
      unfold timely in *; simpl_worlds;
      first [ exact H | split; [apply Qle_refl | apply zero_double] ]
  end.

Lemma stopConversation_timely : Preserves timely stopConversation.
Proof. unfold stopConversation. keep_timely. Qed.

Lemma startConversation_timely : Preserves timely startConversation.
Proof. unfold startConversation. keep_timely. Qed.

Lemma startConversation_resume_timely env :
  Preserves timely (startConversation_resume env).
Proof.
  unfold startConversation_resume.
  apply preserves_try_catch; [keep_timely | intro e].
  do 3 (apply preserves_bind; [keep_timely | intro]).
  apply stopConversation_timely.
Qed.

Lemma onopen_timely : Preserves timely onopen.
Proof. unfold onopen. keep_timely. Qed.

Lemma onaudioprocess_timely inputData :
  Preserves timely (onaudioprocess inputData).
Proof. unfold onaudioprocess. keep_timely. Qed.

Lemma onerror_timely e : Preserves timely (onerror e).
Proof.
  unfold onerror. apply preserves_bind; [apply preserves_emit | intro].
  apply stopConversation_timely.
Qed.

Lemma onclose_timely : Preserves timely onclose.
Proof.
  unfold onclose. apply preserves_bind; [apply preserves_emit | intro].
  apply stopConversation_timely.
Qed.

Lemma ended_timely source : Preserves timely (ended source).
Proof. unfold ended. keep_timely. Qed.

Lemma fulfil_timely p session : Preserves timely (fulfil p session).
Proof. apply preserves_fulfil. intros s H. exact H. Qed.

Lemma onmessage_timely r message : Preserves timely (onmessage r message).
Proof.
  unfold onmessage.
  apply preserves_bind; [| intro]; [| apply preserves_bind; [| intro];
    [| apply preserves_bind; [| intro]; [| apply preserves_bind; [| intro]]]].
  - unfold processTranscription. keep_timely.
  - unfold processTurnComplete. keep_timely.
  - apply processAudio_preserves. intros w audioBuffer.
    apply scheduled_timely.
  - unfold handleInterruption. keep_timely.
  - unfold handleToolCalls. keep_timely.
Qed.

Lemma reachable_timely w : reachable w -> timely (state w).
Proof.
  induction 1 as [| w w' _ IH HS].
  - split; [apply Qle_refl | apply zero_double].
  - destruct HS.
    + now apply startConversation_timely.
    + now apply startConversation_resume_timely.
    + now apply onopen_timely.
    + now apply onaudioprocess_timely.
    + now apply onmessage_timely.
    + now apply onerror_timely.
    + now apply onclose_timely.
    + now apply stopConversation_timely.
    + now apply ended_timely.
    + now apply fulfil_timely.
Qed.

(** *** One message *)

Lemma processTranscription_quiet message w :
  exists i o t,
    processTranscription message w
    = (Returned tt,
       mkWorld (with_transcript (state w) (transcriptionHistory (state w)) i o)
               (trace w ++ t) (reactions w) (created w))
    /\ start_times t = [].
Proof.
  open_world w. unfold processTranscription.
  assert (Same : exists i o t,
             (Returned tt,
              mkWorld (mkState connecting connected history input output mic
                         ictx octx processor insource gain next active promise)
                      events pending count)
             = (Returned tt,
                mkWorld (with_transcript
                           (mkState connecting connected history input output
                              mic ictx octx processor insource gain next active
                              promise) history i o)
                        (events ++ t) pending count)
             /\ start_times t = []).
  { exists input, output, []. simpl_worlds. now rewrite app_nil_r. }
  destruct (content_field message outputTranscription) as [[[text |]] |];
    cbn [transcription_text].
  - destruct (truthy text); [| exact Same].
    exists input, (output ++ text)%string,
      [onTranscription (output ++ text) false].
    split; reflexivity.
  - exact Same.
  - destruct (content_field message inputTranscription) as [[[text |]] |];
      cbn [transcription_text].
    + destruct (truthy text); [| exact Same].
      exists (input ++ text)%string, output,
        [onTranscription (input ++ text) true].
      split; reflexivity.
    + exact Same.
    + exact Same.
Qed.

Lemma before_interruption_audio r message w :
  exists w2,
    playbackNextStartTime (state w2) = playbackNextStartTime (state w)
    /\ activeAudioSources (state w2) = activeAudioSources (state w)
    /\ outputAudioContext (state w2) = outputAudioContext (state w)
    /\ outputGainNode (state w2) = outputGainNode (state w)
    /\ created w2 = created w
    /\ start_times (trace w2) = start_times (trace w)
    /\ before_interruption r message w = audio_outcome r message w2.
Proof.
  unfold before_interruption.
  destruct (processTranscription_quiet message w) as (i1 & o1 & t & E1 & Ht).
  erewrite bind_returned by exact E1.
  match type of E1 with _ = (_, ?W) => set (w1 := W) in * end.
  destruct (processTurnComplete_run r message w1) as (h & i & o & E2 & _).
  erewrite bind_returned by exact E2.
  match type of E2 with _ = (_, ?W) => set (w2 := W) in * end.
  exists w2. subst w2 w1. simpl_worlds.
  do 6 (split; [first [reflexivity
                      | rewrite start_times_app, Ht; apply app_nil_r] |]).
  apply processAudio_cases.
Qed.

(** What one message without the interruption marker does to the
    playback: the buffer it carries, if any, is started at
    [max(nextStartTime, clock)], and [playbackNextStartTime] becomes that
    start plus the duration; with no buffer nothing is started and the
    field keeps its value.  This holds whether the handler returns or
    raises. *)
Lemma onmessage_schedule r message w :
  content_flag message interrupted = false ->
  let w' := after (onmessage r message) w in
  let next := playbackNextStartTime (state w) in
  let start := Math_max next (currentTime r) in
  match decoded (state w) message with
  | Some audioBuffer =>
      playbackNextStartTime (state w')
      = to_double (start + duration audioBuffer)
      /\ start_times (trace w') = start_times (trace w) ++ [start]
      /\ activeAudioSources (state w')
         = Set_add (mkSource (created w) (Some audioBuffer) true)
                   (activeAudioSources (state w))
  | None =>
      playbackNextStartTime (state w') = next
      /\ start_times (trace w') = start_times (trace w)
      /\ activeAudioSources (state w') = activeAudioSources (state w)
  end
  /\ outputAudioContext (state w') = outputAudioContext (state w)
  /\ outputGainNode (state w') = outputGainNode (state w).
Proof.
  intros Hi w' next start. subst w' next start. unfold after.
  destruct (before_interruption_audio r message w)
    as (w2 & N2 & A2 & C2 & G2 & K2 & T2 & E).
  assert (Quiet : forall w3,
             snd ((handleInterruption message ;; handleToolCalls message) w3)
             = mkWorld (state w3) (trace w3)
                       (reactions w3
                        ++ tool_reactions (sessionPromise (state w3))
                                          (requests message))
                       (created w3)).
  { intro w3.
    erewrite bind_returned by (apply handleInterruption_skip; exact Hi).
    now rewrite handleToolCalls_run. }
  assert (Run : snd (onmessage r message w)
                = match audio_outcome r message w2 with
                  | (Returned _, w3) =>
                      mkWorld (state w3) (trace w3)
                              (reactions w3
                               ++ tool_reactions (sessionPromise (state w3))
                                                 (requests message))
                              (created w3)
                  | (Thrown _, w3) => w3
                  end).
  { rewrite onmessage_split. unfold bind at 1. rewrite E.
    destruct (audio_outcome r message w2) as [[[] | e] w3];
      [apply Quiet | reflexivity]. }
  rewrite Run. clear Run Quiet E.
  unfold audio_outcome, decoded. rewrite C2, G2.
  destruct (audioPayload message) as [base64 |];
    destruct (outputAudioContext (state w)) as [ctx |];
    destruct (outputGainNode (state w)) as [gain |];
    try (simpl_worlds; now repeat split).
  destruct (truthy base64); [| simpl_worlds; now repeat split].
  destruct (decodeBase64 base64) as [bytes |]; [| now repeat split].
  destruct (decodeAudioData bytes ctx 24000 1) as [audioBuffer | e];
    [| now repeat split].
  unfold scheduled. simpl_worlds.
  rewrite N2, A2, K2, !start_times_app, T2. now repeat split.
Qed.

Lemma decoded_same (s s' : LiveAssistantState) message :
  outputAudioContext s' = outputAudioContext s ->
  outputGainNode s' = outputGainNode s ->
  decoded s' message = decoded s message.
Proof. intros C G. unfold decoded. now rewrite C, G. Qed.

Lemma arriving_same (s s' : LiveAssistantState) arrivals :
  outputAudioContext s' = outputAudioContext s ->
  outputGainNode s' = outputGainNode s ->
  arriving s' arrivals = arriving s arrivals.
Proof.
  intros C G. unfold arriving. apply flat_map_ext. intro a.
  now rewrite (@decoded_same s s' (snd a) C G).
Qed.

Lemma arriving_nonneg (s : LiveAssistantState) arrivals :
  Forall (fun a => (0 <= fst a)%Q) (arriving s arrivals).
Proof.
  unfold arriving. apply Forall_flat_map, Forall_forall. intros a _.
  destruct (decoded s (snd a)); repeat constructor. apply duration_nonneg.
Qed.

(** *** A run of messages *)

Lemma deliver_schedule (arrivals : list (Readings * LiveServerMessage)) :
  forall w,
    Forall (fun a => content_flag (snd a) interrupted = false) arrivals ->
    let schedule :=
      gapless_schedule (playbackNextStartTime (state w))
                       (arriving (state w) arrivals) in
    start_times (trace (deliver arrivals w))
    = start_times (trace w) ++ map fst schedule
    /\ playbackNextStartTime (state (deliver arrivals w))
       = last (map snd schedule) (playbackNextStartTime (state w)).
Proof.
  induction arrivals as [| [r message] rest IH]; intros w Hall schedule;
    subst schedule.
  - cbn. now rewrite app_nil_r.
  - inversion_clear Hall as [| ? ? Hi Hrest]. cbn [snd] in Hi.
    change (deliver ((r, message) :: rest) w)
      with (deliver rest (after (onmessage r message) w)).
    destruct (@onmessage_schedule r message w Hi) as (Hm & C & G).
    cbv zeta in Hm.
    destruct (IH (after (onmessage r message) w) Hrest) as [IH1 IH2].
    cbv zeta in IH1, IH2. rewrite (@arriving_same _ _ rest C G) in IH1, IH2.
    change (arriving (state w) ((r, message) :: rest))
      with (match decoded (state w) message with
            | Some audioBuffer => [(duration audioBuffer, currentTime r)]
            | None => []
            end ++ arriving (state w) rest).
    destruct (decoded (state w) message) as [audioBuffer |].
    + destruct Hm as (N & T & _). rewrite N, T in *.
      cbn [app gapless_schedule map fst snd]. split.
      * rewrite IH1, <- app_assoc. reflexivity.
      * rewrite IH2. symmetry. apply last_cons_default.
    + destruct Hm as (N & T & _). rewrite N, T in *.
      cbn [app]. split; assumption.
Qed.

Lemma gapless_sorted (arrivals : list (Q * Q)) :
  forall next,
    (0 <= next)%Q -> is_double next ->
    Forall (fun a => (0 <= fst a)%Q) arrivals ->
    Sorted Qle (next :: map snd (gapless_schedule next arrivals)).
Proof.
  induction arrivals as [| [d clock] rest IH]; intros next H0 Hd Hall.
  - repeat constructor.
  - inversion_clear Hall as [| ? ? Hpos Hrest]. cbn [fst] in Hpos.
    cbn [gapless_schedule map snd].
    destruct (@start_timely next clock d H0 Hpos) as [T0 Td].
    constructor; [now apply IH |].
    constructor. now apply start_advances.
Qed.

(** Buffers of 2400 and of 4800 frames, both arriving at clock 0: the
    first leaves [nextStartTime] at the double 0.1, the second at
    0.30000000000000004, the sum of the doubles 0.1 and 0.2, which is not
    the double 0.3. *)
Example sum_of_durations_is_rounded :
  map snd (gapless_schedule 0
             [(duration (mkAudioBuffer 1 2400 24000 []), 0);
              (duration (mkAudioBuffer 1 4800 24000 []), 0)]%Q)
  = [3602879701896397 # 36028797018963968;
     1351079888211149 # 4503599627370496]%Q
  /\ to_double (3 # 10) = (5404319552844595 # 18014398509481984)%Q.
Proof. split; vm_compute; reflexivity. Qed.

(** C1.  Messages that carry no interruption marker, handled one after
    the other by [onmessage] in a state that the session can reach, each
    with its own reading of the output clock.  The buffers they carry
    are started, in the order of arrival, at the times of
    [gapless_schedule]: each at [max(previous nextStartTime, clock at
    arrival)], which leaves [nextStartTime = start + duration], the sum
    being that of doubles; [playbackNextStartTime] ends as the last of
    these values, and the successive values never decrease.  For a single
    message: its buffer is started at that maximum, which is neither before
    the previous [nextStartTime] nor before the clock, the field is set to
    the start plus the duration and is not below its former value, and
    the source joins the active set.  [playAudioBuffer] itself returns
    that sum and starts the source at that maximum whatever the state. *)
Theorem gapless_playback (arrivals : list (Readings * LiveServerMessage))
    (w : World) :
  reachable w ->
  Forall (fun a => content_flag (snd a) interrupted = false) arrivals ->
  let nextStartTime := playbackNextStartTime (state w) in
  let schedule := gapless_schedule nextStartTime (arriving (state w) arrivals) in
  start_times (trace (deliver arrivals w))
  = start_times (trace w) ++ map fst schedule
  /\ playbackNextStartTime (state (deliver arrivals w))
     = last (map snd schedule) nextStartTime
  /\ Sorted Qle (nextStartTime :: map snd schedule)
  /\ (forall r message audioBuffer,
        content_flag message interrupted = false ->
        decoded (state w) message = Some audioBuffer ->
        let start := Math_max nextStartTime (currentTime r) in
        let w' := after (onmessage r message) w in
        start_times (trace w') = start_times (trace w) ++ [start]
        /\ playbackNextStartTime (state w')
           = to_double (start + duration audioBuffer)
        /\ activeAudioSources (state w')
           = Set_add (mkSource (created w) (Some audioBuffer) true)
                     (activeAudioSources (state w))
        /\ (nextStartTime <= start)%Q
        /\ (currentTime r <= start)%Q
        /\ (start = nextStartTime \/ start = currentTime r)
        /\ (nextStartTime <= playbackNextStartTime (state w'))%Q)
  /\ (forall r message,
        content_flag message interrupted = false ->
        decoded (state w) message = None ->
        let w' := after (onmessage r message) w in
        start_times (trace w') = start_times (trace w)
        /\ playbackNextStartTime (state w') = nextStartTime)
  /\ (forall audioBuffer clock outputNode,
        playAudioBuffer audioBuffer clock outputNode nextStartTime w
        = (Returned (to_double (Math_max nextStartTime clock
                                + duration audioBuffer)),
           mkWorld
             (set_activeAudioSources (state w)
                (Set_add (mkSource (created w) (Some audioBuffer) true)
                         (activeAudioSources (state w))))
             (trace w ++ [node_connect (BufferSource (created w)) OutputGain;
                          source_start (created w)
                                       (Math_max nextStartTime clock)])
             (reactions w) (S (created w)))).
Proof.
  intros Hr Hall nextStartTime schedule. subst nextStartTime schedule.
  destruct (reachable_timely Hr) as [H0 Hd].
  destruct (@deliver_schedule arrivals w Hall) as [H1 H2].
  split; [exact H1 |]. split; [exact H2 |].
  split; [apply gapless_sorted; [exact H0 | exact Hd | apply arriving_nonneg] |].
  split; [| split].
  - intros r message audioBuffer Hi Hb start w'.
    destruct (@onmessage_schedule r message w Hi) as (Hm & _).
    cbv zeta in Hm. rewrite Hb in Hm. destruct Hm as (N & T & A).
    subst start w'.
    split; [exact T |]. split; [exact N |]. split; [exact A |].
    split; [apply Math_max_ge_l |]. split; [apply Math_max_ge_r |].
    split; [unfold Math_max; destruct (Qle_bool _ _); auto |].
    rewrite N. apply start_advances; [exact H0 | exact Hd |].
    apply duration_nonneg.
  - intros r message Hi Hb w'.
    destruct (@onmessage_schedule r message w Hi) as (Hm & _).
    cbv zeta in Hm. rewrite Hb in Hm. destruct Hm as (N & T & _).
    subst w'. split; [exact T | exact N].
  - intros audioBuffer clock outputNode. apply playAudioBuffer_result.
Qed.

(** ** Interruption *)

Lemma Set_add_keeps x y l : In y l -> In y (Set_add x l).
Proof.
  intro H. unfold Set_add. destruct (Set_has (source_id x) l); [exact H |].
  apply in_or_app. now left.
Qed.

(** C2.  A message with the interruption marker whose handling reaches
    the interruption block (its audio payload, if any, decodes): the
    handler returns; the active set, as it stands when the interruption
    block runs, holds every source that was active before the message, and
    every source of it is stopped; afterwards the set is empty and
    [playbackNextStartTime] is 0; hence the next buffer, arriving at clock
    [clock >= 0], starts at [clock]. *)
Theorem interruption_resets_playback r message w :
  reachable w ->
  content_flag message interrupted = true ->
  audio_decodes message (state w) = true ->
  let at_interruption := after (before_interruption r message) w in
  let w' := after (onmessage r message) w in
  fst (onmessage r message w) = Returned tt
  /\ (forall x, In x (activeAudioSources (state w)) ->
                In x (activeAudioSources (state at_interruption)))
  /\ (forall x, In x (activeAudioSources (state at_interruption)) ->
                In (source_stop (source_id x)) (trace w'))
  /\ trace w'
     = trace at_interruption
       ++ map (fun x => source_stop (source_id x))
              (activeAudioSources (state at_interruption))
  /\ activeAudioSources (state w') = []
  /\ playbackNextStartTime (state w') = 0%Q
  /\ (forall audioBuffer clock outputNode,
        (0 <= clock)%Q ->
        let next :=
          playAudioBuffer audioBuffer clock outputNode
                          (playbackNextStartTime (state w')) w' in
        fst next = Returned (to_double (clock + duration audioBuffer))
        /\ start_times (trace (snd next)) = start_times (trace w') ++ [clock]).
Proof.
  intros Hr Hi Hd at_interruption w'. subst at_interruption w'. unfold after.
  pose proof (reachable_consistent Hr) as Hc.
  destruct (@before_interruption_run r message w Hc Hd)
    as (h & i & o & t & w3 & Hw3 & _ & E).
  destruct (@onmessage_run r message w Hc Hd) as (w3' & E' & _ & Eo).
  assert (w3' = w3) by congruence. subst w3'. clear E'.
  cbv zeta in Hw3. rewrite E, Eo. unfold interruption, answered. rewrite Hi.
  cbn [fst snd]. simpl_worlds.
  repeat apply conj; try reflexivity.
  - intros x Hx. destruct Hw3 as [-> | [b ->]]; unfold scheduled; simpl_worlds.
    + exact Hx.
    + now apply Set_add_keeps.
  - intros x Hx. apply in_or_app. right.
    now apply (in_map (fun y => source_stop (source_id y))).
  - intros audioBuffer clock outputNode Hclock.
    rewrite playAudioBuffer_result. cbn [fst snd trace].
    rewrite (Math_max_zero Hclock), start_times_app. split; reflexivity.
Qed.

(** The scenario worlds are reachable. *)
Lemma reachable_connecting : reachable connecting_world.
Proof.
  unfold connecting_world.
  eapply reachable_step; [| apply step_resume].
  eapply reachable_step; [apply reachable_initial | apply step_startConversation].
Qed.

Lemma reachable_active : reachable active_world.
Proof.
  unfold active_world.
  eapply reachable_step; [apply reachable_connecting | apply step_onopen].
Qed.

Lemma reachable_playing : reachable playing_world.
Proof.
  unfold playing_world.
  eapply reachable_step; [apply reachable_active | apply step_onmessage].
Qed.

Lemma reachable_talking : reachable talking_world.
Proof.
  unfold talking_world.
  eapply reachable_step; [| apply step_onmessage].
  eapply reachable_step; [apply reachable_active | apply step_onmessage].
Qed.

(** Two buffers of two and of three frames, both arriving at clock 0 in
    a session that has just opened: the first starts at 0, the second
    at the double next to 2/24000 where the first ends, and
    [playbackNextStartTime] ends as the sum of the two durations as
    doubles add them, 3843071682022823 / 2^64, which is not the double next
    to 5/24000. *)
Lemma gapless_playback_witness :
  reachable active_world
  /\ Forall (fun a => content_flag (snd a) interrupted = false) two_arrivals
  /\ start_times (trace (deliver two_arrivals active_world))
     = [0; 6148914691236517 # 73786976294838206464]%Q
  /\ playbackNextStartTime (state (deliver two_arrivals active_world))
     = (3843071682022823 # 18446744073709551616)%Q
  /\ to_double (5 # 24000) = (7686143364045647 # 36893488147419103232)%Q.
Proof.
  assert (Hall : Forall (fun a => content_flag (snd a) interrupted = false)
                        two_arrivals)
    by (repeat constructor).
  destruct (@gapless_playback two_arrivals active_world reachable_active Hall)
    as (H1 & H2 & _).
  split; [exact reachable_active |]. split; [exact Hall |].
  split; [rewrite H1; vm_compute; reflexivity |].
  split; [rewrite H2; vm_compute; reflexivity | vm_compute; reflexivity].
Defined.

(** One source is playing; the interruption stops it, empties the set and
    resets the start time. *)
Lemma interruption_resets_playback_witness :
  let w' := after (onmessage readings0 interrupted_message) playing_world in
  List.length (activeAudioSources (state playing_world)) = 1%nat
  /\ activeAudioSources (state w') = []
  /\ playbackNextStartTime (state w') = 0%Q
  /\ In (source_stop 0) (trace w').
Proof.
  intro w'. split; [reflexivity |].
  destruct (@interruption_resets_playback readings0 interrupted_message
              playing_world reachable_playing eq_refl eq_refl)
    as (_ & _ & Hstop & _ & Hset & Hnext & _).
  split; [exact Hset |]. split; [exact Hnext |].
  apply (Hstop (mkSource 0 (Some (mkAudioBuffer 1 2 24000 [[0 # 32768; 0 # 32768]%Q])) true)).
  left. reflexivity.
Defined.

(** C2 as stated fails on a message that carries the interruption marker
    together with a payload that does not decode: the handler raises in
    the audio block, the source that was playing is not stopped and stays
    in the active set, and [playbackNextStartTime] keeps its value. *)
Lemma interruption_skipped_counterexample :
  let w' := after (onmessage readings0 interrupted_garbled_message)
                  playing_world in
  reachable playing_world
  /\ content_flag interrupted_garbled_message interrupted = true
  /\ fst (onmessage readings0 interrupted_garbled_message playing_world)
     = Thrown "InvalidCharacterError"
  /\ List.length (activeAudioSources (state playing_world)) = 1%nat
  /\ activeAudioSources (state w') = activeAudioSources (state playing_world)
  /\ playbackNextStartTime (state w') = to_double (2 # 24000)
  /\ trace w' = trace playing_world.
Proof. split; [apply reachable_playing | repeat split]. Qed.

Lemma reachable_spoken : reachable spoken_world.
Proof.
  unfold spoken_world.
  eapply reachable_step; [| apply step_onmessage].
  eapply reachable_step; [apply reachable_talking | apply step_onmessage].
Qed.

(** ** Turns *)

Lemma getJarvisPrefix_constant (hour : nat) : getJarvisPrefix hour = JARVIS_PREFIX.
Proof.
  unfold getJarvisPrefix.
  destruct (hour <? 12)%nat; [reflexivity |].
  destruct (hour <? 18)%nat; reflexivity.
Qed.

Lemma turns_push (h : list ChatMessage) (u a : ChatMessage) :
  Nat.even (List.length h) = true ->
  turns (h ++ [u; a]) = turns h ++ [mkTurn (chat_text u) (chat_text a)].
Proof.
  assert (H : forall h,
             (Nat.even (List.length h) = true ->
              turns (h ++ [u; a]) = turns h ++ [mkTurn (chat_text u) (chat_text a)])
             /\ (forall x, Nat.even (List.length (x :: h)) = true ->
                   turns ((x :: h) ++ [u; a])
                   = turns (x :: h) ++ [mkTurn (chat_text u) (chat_text a)])).
  { clear h. induction h as [| y h [IH0 IH1]].
    - split; [reflexivity | discriminate].
    - split; [apply IH1 |].
      intros x Hx. cbn [List.length Nat.even] in Hx.
      cbn [app turns]. now rewrite IH0. }
  apply H.
Qed.

(** The blocks that follow the turn-complete block leave the history and
    the partials alone, whether they return or raise. *)
Lemma after_turn_preserves r message (P : LiveAssistantState -> Prop) :
  (forall s v, P s -> P (set_activeAudioSources s v)) ->
  (forall s v, P s -> P (set_playbackNextStartTime s v)) ->
  Preserves P (processAudio r message ;;
               handleInterruption message ;;
               handleToolCalls message).
Proof.
  intros Ha Hn.
  apply preserves_bind; [| intro; apply preserves_bind; [| intro]].
  - apply processAudio_preserves. intros w b H. unfold scheduled. cbn [state].
    apply Hn, Ha, H.
  - unfold handleInterruption. preserve; auto.
  - unfold handleToolCalls. preserve.
Qed.

(** C4.  On a turn-complete marker, with [u] and [a] the user and
    assistant partials as they stand when the marker is handled (that is,
    after the transcription block of the same message): the history gains
    the two entries of exactly one turn, whose user text is [trim u] and
    whose assistant text is the persona prefix, a space and [trim a]; both
    partials are then empty.  Nothing here depends on the partials having
    been written: an empty partial gives an empty text. *)
Theorem turn_complete_finalizes r message w :
  reachable w ->
  content_flag message turnComplete = true ->
  let w1 := after (processTranscription message) w in
  let u := currentInputTranscription (state w1) in
  let a := currentOutputTranscription (state w1) in
  let w' := after (onmessage r message) w in
  transcriptionHistory (state w')
  = transcriptionHistory (state w)
    ++ [mkChatMessage ("user-" ++ decimal (Date_now_user r) ++ "-live")
                      user (trim u);
        mkChatMessage ("jarvis-" ++ decimal (Date_now_jarvis r) ++ "-live")
                      jarvis (JARVIS_PREFIX ++ " " ++ trim a)]
  /\ turns (transcriptionHistory (state w'))
     = turns (transcriptionHistory (state w))
       ++ [mkTurn (trim u) (JARVIS_PREFIX ++ " " ++ trim a)]
  /\ currentInputTranscription (state w') = ""%string
  /\ currentOutputTranscription (state w') = ""%string
  /\ (content_field message outputTranscription = None ->
      content_field message inputTranscription = None ->
      u = currentInputTranscription (state w)
      /\ a = currentOutputTranscription (state w)).
Proof.
  intros Hr Ht w1 u a w'.
  destruct (reachable_consistent Hr) as [_ Heven].
  destruct (processTranscription_run message w) as (i & o & t & E1).
  assert (Hu : u = i) by (subst u w1; unfold after; rewrite E1; reflexivity).
  assert (Ha : a = o) by (subst a w1; unfold after; rewrite E1; reflexivity).
  remember (mkWorld (with_transcript (state w) (transcriptionHistory (state w)) i o)
                    (trace w ++ t) (reactions w) (created w)) as w1' eqn:Hw1.
  remember (mkWorld
              (with_transcript (state w)
                 (transcriptionHistory (state w)
                  ++ [mkChatMessage
                        ("user-" ++ decimal (Date_now_user r) ++ "-live")
                        user (trim i);
                      mkChatMessage
                        ("jarvis-" ++ decimal (Date_now_jarvis r) ++ "-live")
                        jarvis (JARVIS_PREFIX ++ " " ++ trim o)])
                 "" "")
              (trace w1') (reactions w1') (created w1')) as w2 eqn:Hw2.
  assert (E2 : processTurnComplete r message w1' = (Returned tt, w2)).
  { unfold processTurnComplete. rewrite Ht. subst w2 w1'.
    unfold_handlers. simpl_world. rewrite getJarvisPrefix_constant.
    reflexivity. }
  assert (E : w' = after (processAudio r message ;;
                          handleInterruption message ;;
                          handleToolCalls message) w2).
  { subst w'. unfold after, onmessage.
    erewrite bind_returned by exact E1.
    erewrite bind_returned by exact E2. reflexivity. }
  assert (K : transcriptionHistory (state w') = transcriptionHistory (state w2)
              /\ currentInputTranscription (state w') = ""%string
              /\ currentOutputTranscription (state w') = ""%string).
  { rewrite E.
    apply (@after_turn_preserves r message
             (fun s => transcriptionHistory s = transcriptionHistory (state w2)
                       /\ currentInputTranscription s = ""%string
                       /\ currentOutputTranscription s = ""%string)).
    - intros s v K. exact K.
    - intros s v K. exact K.
    - subst w2. simpl_world. repeat split. }
  destruct K as (K1 & K2 & K3).
  assert (H2 : transcriptionHistory (state w2)
               = transcriptionHistory (state w)
                 ++ [mkChatMessage
                       ("user-" ++ decimal (Date_now_user r) ++ "-live")
                       user (trim i);
                     mkChatMessage
                       ("jarvis-" ++ decimal (Date_now_jarvis r) ++ "-live")
                       jarvis (JARVIS_PREFIX ++ " " ++ trim o)]).
  { subst w2. simpl_world. reflexivity. }
  rewrite Hu, Ha, K1, H2. repeat apply conj.
  - reflexivity.
  - now apply turns_push.
  - exact K2.
  - exact K3.
  - intros Ho Hi. clear - E1 Ho Hi Hw1. subst w1'.
    unfold processTranscription in E1. rewrite Ho, Hi in E1.
    injection E1 as E1.
    pose proof (f_equal (fun x => currentInputTranscription (state x)) E1) as Ei.
    pose proof (f_equal (fun x => currentOutputTranscription (state x)) E1) as Eo.
    cbv beta in Ei, Eo. revert Ei Eo. simpl_world. intros Ei Eo.
    split; symmetry; assumption.
Qed.

(** The scenario of the specification: "Hel", "lo " and "Sir" after
    "Hi", then the turn-complete marker. *)
Lemma turn_complete_finalizes_witness :
  let w' := after (onmessage readings0 turn_complete_message) spoken_world in
  transcriptionHistory (state w')
  = [mkChatMessage "user-1700000000000-live" user "Hi";
     mkChatMessage "jarvis-1700000000001-live" jarvis "Indeed, Sir. Hello Sir"]
  /\ currentInputTranscription (state w') = ""%string
  /\ currentOutputTranscription (state w') = ""%string.
Proof.
  intro w'.
  destruct (@turn_complete_finalizes readings0 turn_complete_message
              spoken_world reachable_spoken eq_refl)
    as (Hh & _ & Hi & Ho & _).
  split; [exact Hh |]. split; [exact Hi | exact Ho].
Defined.

(** ** The order of handling within one message *)

Lemma forEach_one A (x : A) (f : A -> Handler unit) w :
  forEach [x] f w = f x w.
Proof. cbn [forEach]. apply bind_ret_tt. Qed.

Lemma bind_ext A B (m m' : Handler A) (k k' : A -> Handler B) w :
  (forall w, m w = m' w) -> (forall a w, k a w = k' a w) ->
  bind m k w = bind m' k' w.
Proof.
  intros Hm Hk. unfold bind. rewrite Hm.
  destruct (m' w) as [[a | e] w1]; [apply Hk | reflexivity].
Qed.

Lemma processTranscription_dispatch r message w :
  processTranscription message w
  = dispatch r (transcript_events (content_field message outputTranscription)
                                  (content_field message inputTranscription)) w.
Proof.
  unfold processTranscription, dispatch, transcript_events.
  destruct (content_field message outputTranscription) as [[text] |].
  - rewrite forEach_one. reflexivity.
  - destruct (content_field message inputTranscription) as [[text] |].
    + rewrite forEach_one. reflexivity.
    + reflexivity.
Qed.

Lemma processTurnComplete_dispatch r message w :
  processTurnComplete r message w
  = dispatch r (if content_flag message turnComplete then [TurnComplete] else []) w.
Proof.
  unfold processTurnComplete, dispatch.
  destruct (content_flag message turnComplete); [| reflexivity].
  rewrite forEach_one. reflexivity.
Qed.

Lemma processAudio_dispatch r message w :
  processAudio r message w
  = dispatch r match audioPayload message with
               | Some base64 => [AudioPayload base64]
               | None => []
               end w.
Proof.
  unfold dispatch. rewrite processAudio_cases. unfold audio_outcome.
  destruct (audioPayload message) as [base64 |]; [| reflexivity].
  rewrite forEach_one. cbn [handle_event].
  unfold schedulePayload. unfold bind at 1. unfold get at 1. cbv beta iota.
  destruct (outputAudioContext (state w)) as [ctx |]; [| reflexivity].
  destruct (outputGainNode (state w)) as [gain |]; [| reflexivity].
  destruct (truthy base64); [| reflexivity].
  destruct (decodeBase64 base64) as [bytes |]; [| reflexivity].
  unfold bind at 1, lift at 1.
  destruct (decodeAudioData bytes ctx 24000 1) as [audioBuffer | e];
    [| reflexivity].
  unfold bind at 1. unfold get at 1. cbv beta iota.
  unfold bind at 1. rewrite playAudioBuffer_result.
  unfold bind, assign, emit, scheduled. simpl_world.
  now rewrite <- app_assoc.
Qed.

Lemma handleInterruption_dispatch r message w :
  handleInterruption message w
  = dispatch r (if content_flag message interrupted then [Interrupted] else []) w.
Proof.
  unfold handleInterruption, dispatch.
  destruct (content_flag message interrupted); [| reflexivity].
  rewrite forEach_one. reflexivity.
Qed.

Lemma handleToolCalls_dispatch r message w :
  handleToolCalls message w
  = dispatch r match toolCall message with
               | Some call => map ToolCallRequest (functionCalls call)
               | None => []
               end w.
Proof.
  unfold handleToolCalls, dispatch.
  destruct (toolCall message) as [call |]; [| reflexivity].
  generalize (functionCalls call) as l. intro l. revert w.
  induction l as [| fc l IH]; intro w; [reflexivity |].
  cbn [map forEach]. apply bind_ext; [reflexivity | intros _ w1; apply IH].
Qed.

(** C3, as the handler does it.  One message is handled as the list
    [events_of_message] of its events, one event after the other and in
    this order: the output-transcript delta, or else (only when the
    message has no output-transcript field) the input-transcript delta; the
    turn-complete marker; the audio payload; the interruption marker; the
    tool-call requests in the order received.  An event whose handling
    raises ends the handling of the message.  In particular a message with
    an output-transcript field leaves the user partial as it was. *)
Theorem onmessage_order r message w :
  onmessage r message w = dispatch r (events_of_message message) w
  /\ (forall t,
        content_field message outputTranscription = Some t ->
        currentInputTranscription (state (after (processTranscription message) w))
        = currentInputTranscription (state w)).
Proof.
  split.
  - unfold onmessage, events_of_message, dispatch.
    rewrite forEach_app.
    apply bind_ext; [apply processTranscription_dispatch | intros _ w1].
    rewrite forEach_app.
    apply bind_ext; [apply processTurnComplete_dispatch | intros _ w2].
    rewrite forEach_app.
    apply bind_ext; [apply processAudio_dispatch | intros _ w3].
    rewrite forEach_app.
    apply bind_ext; [apply handleInterruption_dispatch | intros _ w4].
    apply handleToolCalls_dispatch.
  - intros t Ht. unfold after, processTranscription. rewrite Ht.
    destruct (transcription_text t) as [text |]; [| reflexivity].
    destruct (truthy text); reflexivity.
Qed.

(** C3 as stated fails on a message that carries both deltas: the
    handler appends "A" to the assistant partial and leaves the user
    partial empty, where the stated order would append "B" to it. *)
Lemma both_deltas_counterexample :
  let w' := after (onmessage readings0 both_deltas) active_world in
  let specified := after (dispatch readings0 (events_as_specified both_deltas))
                         active_world in
  reachable active_world
  /\ currentOutputTranscription (state w') = "A"%string
  /\ currentInputTranscription (state w') = ""%string
  /\ trace w' = trace active_world ++ [onTranscription "A" false]
  /\ currentInputTranscription (state specified) = "B"%string.
Proof. split; [apply reachable_active | repeat split]. Qed.

(** ** Settlement of the session promise *)

Lemma run_reactions session (l : list Reaction) :
  forall w,
    forEach l (run_reaction session) w
    = (Returned tt,
       mkWorld (if closes l then set_sessionPromise (state w) None else state w)
               (trace w ++ map (event_of_reaction session) l)
               (reactions w) (created w)).
Proof.
  induction l as [| r l IH]; intro w; cbn [forEach map].
  - cbn. now rewrite app_nil_r, world_eta.
  - destruct r; cbn [run_reaction event_of_reaction].
    + unfold bind at 1, emit at 1. rewrite IH. cbn [state trace reactions created].
      rewrite <- app_assoc. reflexivity.
    + unfold bind at 1, emit at 1. rewrite IH. cbn [state trace reactions created].
      rewrite <- app_assoc. reflexivity.
    + unfold bind at 1. unfold bind at 1, emit at 1, assign at 1.
      rewrite IH. cbn [state trace reactions created closes existsb orb].
      rewrite <- app_assoc. fold (closes l).
      destruct (closes l); reflexivity.
Qed.

Lemma fulfil_run p session w :
  let mine := map snd (filter (registered_on p) (reactions w)) in
  fulfil p session w
  = (Returned tt,
     mkWorld (if closes mine then set_sessionPromise (state w) None else state w)
             (trace w ++ map (event_of_reaction session) mine)
             (filter (fun entry => negb (registered_on p entry)) (reactions w))
             (created w)).
Proof. intro mine. unfold fulfil. now rewrite run_reactions. Qed.

(** ** Tool calls *)

Lemma responses_with_app X t u :
  responses_with X (t ++ u) = (responses_with X t + responses_with X u)%nat.
Proof. unfold responses_with. now rewrite filter_app, length_app. Qed.

Lemma responses_to_requests X session (l : list FunctionCall) :
  responses_with X (map (response_to session) l) = requests_with X l.
Proof.
  unfold responses_with, requests_with.
  induction l as [| fc l IH]; [reflexivity |].
  cbn [map filter response_to].
  destruct (String.eqb (call_id fc) X); cbn [List.length]; now rewrite IH.
Qed.

Lemma filter_registered_tool p (l : list FunctionCall) :
  filter (registered_on p) (tool_reactions (Some p) l)
  = tool_reactions (Some p) l.
Proof.
  unfold tool_reactions. induction l as [| fc l IH]; [reflexivity |].
  cbn [map filter]. unfold registered_on at 1. cbn [fst].
  rewrite Nat.eqb_refl. now rewrite IH.
Qed.

Lemma tool_reactions_events p session (l : list FunctionCall) :
  map (event_of_reaction session) (map snd (tool_reactions (Some p) l))
  = map (response_to session) l.
Proof. unfold tool_reactions. rewrite !map_map. reflexivity. Qed.

(** C5.  While the session promise is set and the handling of the
    message reaches the tool-call block (its audio payload, if any,
    decodes), every tool-call request of the message gets one callback
    registered on the session promise, in the order received, and nothing
    else is registered; when the promise is fulfilled these callbacks issue
    exactly one [sendToolResponse] call per request, carrying the
    identifier and the name of the request and the fixed result.  So the
    calls that carry identifier [X] are as many as the requests that carry
    it.  No function is invoked on the way: the response does not depend
    on the name being known or on an execution succeeding. *)
Theorem tool_calls_answered r message w p :
  reachable w ->
  audio_decodes message (state w) = true ->
  sessionPromise (state w) = Some p ->
  let w' := after (onmessage r message) w in
  fst (onmessage r message w) = Returned tt
  /\ reactions w'
     = reactions w
       ++ map (fun fc => (p, thenSendToolResponse (call_id fc) (call_name fc)
                                                  TOOL_RESULT))
              (requests message)
  /\ (forall session,
        let earlier :=
          trace w' ++ map (event_of_reaction session)
                          (map snd (filter (registered_on p) (reactions w))) in
        fst (fulfil p session w') = Returned tt
        /\ trace (after (fulfil p session) w')
           = earlier ++ map (response_to session) (requests message)
        /\ (forall X,
              responses_with X (trace (after (fulfil p session) w'))
              = (responses_with X earlier
                 + requests_with X (requests message))%nat)).
Proof.
  intros Hr Hd Hp w'. subst w'. unfold after.
  pose proof (reachable_consistent Hr) as Hc.
  destruct (@before_interruption_run r message w Hc Hd)
    as (h & i & o & t & w3 & Hw3 & _ & E).
  destruct (@onmessage_run r message w Hc Hd) as (w3' & E' & _ & Eo).
  assert (w3' = w3) by congruence. subst w3'. clear E'.
  cbv zeta in Hw3. rewrite Eo. cbn [fst snd].
  assert (Hp3 : sessionPromise (state (interruption message w3)) = Some p).
  { unfold interruption.
    destruct (content_flag message interrupted);
      destruct Hw3 as [-> | [b ->]]; unfold scheduled; simpl_world; exact Hp. }
  assert (Hr3 : reactions (interruption message w3) = reactions w).
  { unfold interruption.
    destruct (content_flag message interrupted);
      destruct Hw3 as [-> | [b ->]]; unfold scheduled; simpl_world; reflexivity. }
  unfold answered. cbn [reactions trace]. rewrite Hp3, Hr3.
  split; [reflexivity |]. split; [reflexivity |].
  intro session. cbv zeta. rewrite fulfil_run. cbn [fst snd trace reactions].
  rewrite filter_app, filter_registered_tool, map_app, map_app.
  rewrite tool_reactions_events, app_assoc.
  split; [reflexivity |]. split; [reflexivity |].
  intro X. now rewrite responses_with_app, responses_to_requests.
Qed.

(** One request with identifier "X" arrives in an open session: one
    response with identifier "X" is sent once the promise is fulfilled. *)
Lemma tool_calls_answered_witness :
  let w' := after (onmessage readings0 (tool_message [light_on])) active_world in
  reactions w' = [(1%nat, thenSendToolResponse "X" "controlLight" TOOL_RESULT)]
  /\ responses_with "X" (trace (after (fulfil 1%nat 7%nat) w')) = 1%nat.
Proof.
  intro w'.
  destruct (@tool_calls_answered readings0 (tool_message [light_on])
              active_world 1%nat reachable_active eq_refl eq_refl)
    as (_ & Hq & Hs).
  split; [exact Hq |].
  destruct (Hs 7%nat) as (_ & _ & Hx).
  exact (eq_trans (Hx "X"%string) eq_refl).
Defined.

Lemma reachable_overtaken : reachable overtaken_world.
Proof.
  unfold overtaken_world.
  eapply reachable_step; [| apply step_fulfil].
  eapply reachable_step; [| apply step_onopen].
  eapply reachable_step; [| apply step_resume].
  eapply reachable_step; [| apply step_startConversation].
  eapply reachable_step; [apply reachable_connecting | apply step_stopConversation].
Qed.

(** C5 as stated fails in two ways.  A request that arrives in a message
    whose payload does not decode is never answered: the handler raises
    before the tool-call block, and no callback is registered.  And a
    request that arrives while [sessionPromise] is [null] is never answered
    either; the field is [null] in an open session when the closing
    callback of an earlier session, stopped while it was connecting, has
    run after the new session was started. *)
Lemma unanswered_request_counterexample :
  let w' := after (onmessage readings0 tool_garbled_message) active_world in
  let w'' := after (onmessage readings0 (tool_message [light_on]))
                   overtaken_world in
  (reachable active_world
   /\ fst (onmessage readings0 tool_garbled_message active_world)
      = Thrown "InvalidCharacterError"
   /\ reactions w' = []
   /\ responses_with "X" (trace (after (fulfil 1%nat 7%nat) w')) = 0%nat)
  /\ (reachable overtaken_world
      /\ isConnected (state overtaken_world) = true
      /\ sessionPromise (state overtaken_world) = None
      /\ fst (onmessage readings0 (tool_message [light_on]) overtaken_world)
         = Returned tt
      /\ reactions w'' = []
      /\ responses_with "X" (trace (after (fulfil 2%nat 8%nat) w'')) = 0%nat).
Proof.
  split; (split; [| repeat split]).
  - apply reachable_active.
  - apply reachable_overtaken.
Qed.

(** ** [startConversation] while a session is under way *)

(** C6.  Called while [isConnected] or [isConnecting] holds,
    [startConversation] reports one error through [onError] and returns at
    once: no field of the state changes, no callback is registered on the
    promise, and the error is the only call made. *)
Theorem startConversation_rejected w :
  isConnected (state w) || isConnecting (state w) = true ->
  startConversation w
  = (Returned Done,
     mkWorld (state w)
             (trace w ++ [onError (JARVIS_ERROR_PREFIX
                                     ++ " Live session already in progress.")])
             (reactions w) (created w)).
Proof.
  intro H. unfold startConversation, bind at 1, get at 1. cbv beta iota.
  rewrite H. reflexivity.
Qed.

(** A second start in an open session. *)
Lemma startConversation_rejected_witness :
  isConnected (state active_world) = true
  /\ state (after startConversation active_world) = state active_world
  /\ trace (after startConversation active_world)
     = trace active_world
       ++ [onError "System status: Operational anomaly detected. Live session already in progress."].
Proof.
  split; [reflexivity |].
  unfold after.
  rewrite (@startConversation_rejected active_world eq_refl).
  split; reflexivity.
Defined.

(** ** [stopConversation] *)

Lemma bind_get A (k : LiveAssistantState -> Handler A) w :
  bind get k w = k (state w) w.
Proof. reflexivity. Qed.

Lemma assign_run (f : LiveAssistantState -> LiveAssistantState) w :
  assign f w
  = (Returned tt, mkWorld (f (state w)) (trace w) (reactions w) (created w)).
Proof. reflexivity. Qed.

Ltac release_block w :=
  open_world w; simpl_world;
  match goal with
  | |- context [match ?x with Some _ => _ | None => _ end] => destruct x
  end;
  unfold bind, assign, emit, ret; simpl_world;
  rewrite ?forEach_emit, ?app_nil_r; reflexivity.

Lemma release_microphoneStream w :
  match microphoneStream (state w) with
  | Some stream =>
      forEach (getTracks stream) (fun track => emit (track_stop track)) ;;
      assign (fun s => set_microphoneStream s None)
  | None => ret tt
  end w
  = (Returned tt,
     mkWorld (set_microphoneStream (state w) None)
             (trace w ++ match microphoneStream (state w) with
                         | Some stream => map track_stop (getTracks stream)
                         | None => []
                         end)
             (reactions w) (created w)).
Proof.
  open_world w. simpl_world. destruct mic as [stream |].
  - unfold bind. rewrite forEach_emit. reflexivity.
  - now rewrite app_nil_r.
Qed.

Lemma release_inputAudioContext w :
  match inputAudioContext (state w) with
  | Some ctx =>
      emit (context_close ctx) ;;
      assign (fun s => set_inputAudioContext s None)
  | None => ret tt
  end w
  = (Returned tt,
     mkWorld (set_inputAudioContext (state w) None)
             (trace w ++ match inputAudioContext (state w) with
                         | Some ctx => [context_close ctx]
                         | None => []
                         end)
             (reactions w) (created w)).
Proof. release_block w. Qed.

Lemma release_outputAudioContext w :
  match outputAudioContext (state w) with
  | Some ctx =>
      emit (context_close ctx) ;;
      assign (fun s => set_outputAudioContext s None)
  | None => ret tt
  end w
  = (Returned tt,
     mkWorld (set_outputAudioContext (state w) None)
             (trace w ++ match outputAudioContext (state w) with
                         | Some ctx => [context_close ctx]
                         | None => []
                         end)
             (reactions w) (created w)).
Proof. release_block w. Qed.

Lemma release_inputScriptProcessor w :
  match inputScriptProcessor (state w) with
  | Some processor =>
      emit (node_disconnect ScriptProcessor) ;;
      assign (fun s => set_inputScriptProcessor s
                         (Some (mkScriptProcessor (bufferSize processor) false))) ;;
      assign (fun s => set_inputScriptProcessor s None)
  | None => ret tt
  end w
  = (Returned tt,
     mkWorld (set_inputScriptProcessor (state w) None)
             (trace w ++ match inputScriptProcessor (state w) with
                         | Some _ => [node_disconnect ScriptProcessor]
                         | None => []
                         end)
             (reactions w) (created w)).
Proof. release_block w. Qed.

Lemma release_inputAudioSource w :
  match inputAudioSource (state w) with
  | Some _ =>
      emit (node_disconnect InputSource) ;;
      assign (fun s => set_inputAudioSource s None)
  | None => ret tt
  end w
  = (Returned tt,
     mkWorld (set_inputAudioSource (state w) None)
             (trace w ++ match inputAudioSource (state w) with
                         | Some _ => [node_disconnect InputSource]
                         | None => []
                         end)
             (reactions w) (created w)).
Proof. release_block w. Qed.

Lemma release_outputGainNode w :
  match outputGainNode (state w) with
  | Some _ =>
      emit (node_disconnect OutputGain) ;;
      assign (fun s => set_outputGainNode s None)
  | None => ret tt
  end w
  = (Returned tt,
     mkWorld (set_outputGainNode (state w) None)
             (trace w ++ match outputGainNode (state w) with
                         | Some _ => [node_disconnect OutputGain]
                         | None => []
                         end)
             (reactions w) (created w)).
Proof. release_block w. Qed.

Lemma register_closing w :
  promise_then (sessionPromise (state w)) thenClose w
  = (Returned tt,
     mkWorld (state w) (trace w) (reactions w ++ closing (state w)) (created w)).
Proof.
  unfold promise_then, closing. destruct (sessionPromise (state w)).
  - reflexivity.
  - now rewrite app_nil_r, world_eta.
Qed.

(** [stopConversation] in one piece: it returns whenever every active
    source has been started. *)
Lemma stopConversation_run w :
  Forall (fun x => started x = true) (activeAudioSources (state w)) ->
  stopConversation w
  = (Returned tt,
     mkWorld (released (state w)) (trace w ++ released_events (state w))
             (reactions w ++ closing (state w)) (created w)).
Proof.
  intro Hs. unfold stopConversation.
  rewrite bind_get. erewrite bind_returned by apply release_microphoneStream.
  simpl_world.
  rewrite bind_get. erewrite bind_returned by apply release_inputAudioContext.
  simpl_world.
  rewrite bind_get. erewrite bind_returned by apply release_outputAudioContext.
  simpl_world.
  rewrite bind_get. erewrite bind_returned by apply release_inputScriptProcessor.
  simpl_world.
  rewrite bind_get. erewrite bind_returned by apply release_inputAudioSource.
  simpl_world.
  rewrite bind_get. erewrite bind_returned by apply release_outputGainNode.
  simpl_world.
  rewrite bind_get. simpl_world.
  erewrite bind_returned by (apply forEach_stop; exact Hs). simpl_world.
  erewrite bind_returned by apply assign_run. simpl_world.
  erewrite bind_returned by apply assign_run. simpl_world.
  rewrite bind_get. erewrite bind_returned by apply register_closing.
  simpl_world.
  erewrite bind_returned by apply assign_run. simpl_world.
  rewrite assign_run. simpl_world.
  unfold released_events. rewrite <- !app_assoc. reflexivity.
Qed.

Lemma released_Idle s : Idle (released s).
Proof. repeat split. Qed.

(** On an idle state [stopConversation] touches no field and makes no
    call; it only registers its callback, when the promise is still
    set. *)
Lemma stopConversation_idle w :
  Idle (state w) ->
  stopConversation w
  = (Returned tt,
     mkWorld (state w) (trace w) (reactions w ++ closing (state w)) (created w)).
Proof.
  open_world w. unfold Idle. simpl_world.
  intros (-> & -> & -> & -> & -> & -> & -> & -> & -> & ->).
  rewrite stopConversation_run by constructor.
  unfold released, released_events. simpl_world.
  now rewrite app_nil_r.
Qed.

Lemma closes_last (l : list Reaction) : closes (l ++ [thenClose]) = true.
Proof.
  unfold closes. rewrite existsb_app. cbn. apply orb_true_r.
Qed.

(** C7, as the code does it.  From any reachable state, also the
    initial one, [stopConversation] returns without raising and leaves the
    state idle: [isConnected] and [isConnecting] false, every device and
    node field [null], the active set empty and [playbackNextStartTime] 0;
    the other fields, [sessionPromise] among them, are as before.  The
    channel is closed, and [sessionPromise] cleared, by a callback
    registered on the promise, which runs once the promise is fulfilled.  A
    second consecutive call returns without raising, changes no field and
    makes no call, and leaves the state idle; it registers one more such
    callback while [sessionPromise] is still set, and does nothing at all
    once it is [null]. *)
Theorem stopConversation_idempotent w :
  reachable w ->
  let w1 := after stopConversation w in
  let w2 := after stopConversation w1 in
  fst (stopConversation w) = Returned tt
  /\ state w1 = released (state w)
  /\ Idle (state w1)
  /\ reactions w1 = reactions w ++ closing (state w)
  /\ fst (stopConversation w1) = Returned tt
  /\ state w2 = state w1
  /\ trace w2 = trace w1
  /\ Idle (state w2)
  /\ reactions w2 = reactions w1 ++ closing (state w)
  /\ (sessionPromise (state w) = None -> w2 = w1)
  /\ (forall p session,
        sessionPromise (state w) = Some p ->
        let w3 := after (fulfil p session) w1 in
        sessionPromise (state w3) = None
        /\ In (session_close session) (trace w3)
        /\ Idle (state w3)
        /\ stopConversation w3 = (Returned tt, w3)).
Proof.
  intros Hr w1 w2.
  destruct (reachable_consistent Hr) as [Hs _].
  pose proof (stopConversation_run w Hs) as E1.
  assert (E1' : w1 = mkWorld (released (state w))
                             (trace w ++ released_events (state w))
                             (reactions w ++ closing (state w)) (created w)).
  { subst w1. unfold after. now rewrite E1. }
  assert (I1 : Idle (state w1)) by (rewrite E1'; apply released_Idle).
  pose proof (stopConversation_idle w1 I1) as E2.
  assert (C1 : closing (state w1) = closing (state w)).
  { rewrite E1'. reflexivity. }
  assert (E2' : w2 = mkWorld (state w1) (trace w1)
                             (reactions w1 ++ closing (state w)) (created w1)).
  { subst w2. unfold after. rewrite E2, C1. reflexivity. }
  split; [now rewrite E1 |].
  split; [now rewrite E1' |].
  split; [exact I1 |].
  split; [now rewrite E1' |].
  split; [now rewrite E2 |].
  split; [now rewrite E2' |].
  split; [now rewrite E2' |].
  split; [rewrite E2'; exact I1 |].
  split; [now rewrite E2' |].
  split.
  - intro Hp. rewrite E2'. unfold closing. rewrite Hp, app_nil_r.
    apply world_eta.
  - intros p session Hp w3.
    assert (E3 : w3 = mkWorld (set_sessionPromise (released (state w)) None)
                   (trace w1
                    ++ map (event_of_reaction session)
                         (map snd (filter (registered_on p) (reactions w1))))
                   (filter (fun entry => negb (registered_on p entry))
                           (reactions w1))
                   (created w1)).
    { subst w3. unfold after. rewrite fulfil_run. cbn [snd].
      replace (closes (map snd (filter (registered_on p) (reactions w1))))
        with true.
      - rewrite E1'. reflexivity.
      - rewrite E1'. cbn [reactions]. unfold closing. rewrite Hp.
        rewrite filter_app, map_app. cbn [filter]. unfold registered_on at 2.
        cbn [fst]. rewrite Nat.eqb_refl. cbn [map snd].
        symmetry. apply closes_last. }
    assert (I3 : Idle (state w3)) by (rewrite E3; repeat split).
    split; [| split; [| split]].
    + now rewrite E3.
    + rewrite E3. cbn [trace]. apply in_or_app. right.
      rewrite E1'. cbn [reactions]. unfold closing. rewrite Hp.
      rewrite filter_app, !map_app. apply in_or_app. right.
      cbn [filter]. unfold registered_on. cbn [fst]. rewrite Nat.eqb_refl.
      left. reflexivity.
    + exact I3.
    + rewrite (stopConversation_idle w3 I3). unfold closing.
      replace (sessionPromise (state w3)) with (@None Promise)
        by (rewrite E3; reflexivity).
      now rewrite app_nil_r, world_eta.
Qed.

(** [stopConversation] before anything was allocated, and in an open
    session. *)
Lemma stopConversation_idempotent_witness :
  (fst (stopConversation initial_world) = Returned tt
   /\ after stopConversation (after stopConversation initial_world)
      = after stopConversation initial_world)
  /\ (fst (stopConversation active_world) = Returned tt
      /\ Idle (state (after stopConversation active_world))).
Proof.
  split.
  - destruct (@stopConversation_idempotent initial_world reachable_initial)
      as (H1 & _ & _ & _ & _ & _ & _ & _ & _ & H2 & _).
    split; [exact H1 | apply H2; reflexivity].
  - destruct (@stopConversation_idempotent active_world reachable_active)
      as (H1 & _ & H2 & _).
    split; [exact H1 | exact H2].
Defined.

(** C7 as stated fails in an open session: after the call the channel
    field [sessionPromise] is still set, and the second call is not without
    effect, since it registers a second closing callback; once the promise
    is fulfilled the session is closed twice. *)
Lemma second_stop_counterexample :
  let w1 := after stopConversation active_world in
  let w2 := after stopConversation w1 in
  reachable active_world
  /\ sessionPromise (state w1) = Some 1%nat
  /\ reactions w1 = [(1%nat, thenClose)]
  /\ reactions w2 = [(1%nat, thenClose); (1%nat, thenClose)]
  /\ trace (after (fulfil 1%nat 7%nat) w2)
     = trace w2 ++ [session_close 7; session_close 7].
Proof.
  split; [apply reachable_active | repeat split].
Qed.

(** ** Teardown and the partial transcripts *)

Lemma stopConversation_keeps_transcript h i o :
  Preserves (transcript_is h i o) stopConversation.
Proof.
  unfold stopConversation. preserve;
    match goal with H : transcript_is _ _ _ _ |- _ => exact H end.
Qed.

(** C8, as the code does it.  Teardown, whether through
    [stopConversation] itself or through the error and close callbacks of
    the channel, leaves the two partial accumulators (and the history) as
    they were; they are emptied by the next [startConversation], which
    then finds the session idle. *)
Theorem teardown_keeps_partials w :
  let kept (h : Handler unit) :=
    transcript_is (transcriptionHistory (state w))
                  (currentInputTranscription (state w))
                  (currentOutputTranscription (state w))
                  (state (after h w)) in
  kept stopConversation
  /\ (forall e, kept (onerror e))
  /\ kept onclose
  /\ (reachable w ->
      let restarted := after startConversation (after stopConversation w) in
      fst (startConversation (after stopConversation w)) = Returned Awaiting
      /\ currentInputTranscription (state restarted) = ""%string
      /\ currentOutputTranscription (state restarted) = ""%string).
Proof.
  intro kept. subst kept. cbv beta.
  assert (P0 : transcript_is (transcriptionHistory (state w))
                 (currentInputTranscription (state w))
                 (currentOutputTranscription (state w)) (state w))
    by (repeat split).
  split; [| split; [| split]].
  - now apply stopConversation_keeps_transcript.
  - intro e.
    refine ((_ : Preserves (transcript_is _ _ _) (onerror e)) w P0).
    unfold onerror. apply preserves_bind; [apply preserves_emit | intro].
    apply stopConversation_keeps_transcript.
  - refine ((_ : Preserves (transcript_is _ _ _) onclose) w P0).
    unfold onclose. apply preserves_bind; [apply preserves_emit | intro].
    apply stopConversation_keeps_transcript.
  - intros Hr restarted. subst restarted.
    destruct (reachable_consistent Hr) as [Hs _].
    pose proof (stopConversation_run w Hs) as E1.
    unfold after. rewrite E1. cbn [snd].
    unfold startConversation, bind at 1, get at 1. cbv beta iota.
    cbn [state released isConnected isConnecting orb].
    unfold bind at 2, get at 1. cbv beta iota.
    cbn [state released isConnected isConnecting orb].
    repeat split.
Qed.

(** C8 as stated fails in a session where "Hi" and "Hel" have been
    transcribed: after teardown, by any of its three ways, the partials
    still hold them. *)
Lemma teardown_counterexample :
  reachable talking_world
  /\ currentInputTranscription (state (after stopConversation talking_world))
     = "Hi"%string
  /\ currentOutputTranscription (state (after stopConversation talking_world))
     = "Hel"%string
  /\ currentInputTranscription (state (after onclose talking_world))
     = "Hi"%string
  /\ currentInputTranscription (state (after (onerror "lost") talking_world))
     = "Hi"%string.
Proof. split; [apply reachable_talking | repeat split]. Qed.

Section ListInduction2.

Variable A : Type.
Variable P : list A -> Prop.
Hypothesis P0 : P [].
Hypothesis P1 : forall a, P [a].
Hypothesis P2 : forall a b r, P r -> P (a :: b :: r).

Lemma list_ind2 : forall l, P l.
Proof.
  assert (H : forall l, P l /\ (forall a, P (a :: l))).
  { induction l as [| x l [IH0 IH1]]; split; auto. }
  intro l. apply (H l).
Qed.

End ListInduction2.

Lemma map_nth_seq (l : list Z) :
  map (fun i => nth (i * 1 + 0) l 0%Z # 32768) (seq 0 (List.length l))
  = map (fun v => v # 32768) l.
Proof.
  induction l as [| v l IH]; [reflexivity |].
  cbn [List.length seq map]. f_equal.
  rewrite <- seq_shift, map_map. rewrite <- IH.
  apply map_ext. intro i. now rewrite !Nat.mul_1_r, !Nat.add_0_r.
Qed.

Lemma int16_pairs_length (data : list byte) :
  List.length (int16_pairs data) = Nat.div2 (List.length data).
Proof.
  induction data as [| a | a b r IH] using list_ind2; try reflexivity.
  cbn [int16_pairs List.length Nat.div2]. now rewrite IH.
Qed.

Lemma int16_of_bytes_range lo hi :
  (-32768 <= int16_of_bytes lo hi <= 32767)%Z.
Proof.
  unfold int16_of_bytes. cbv zeta.
  pose proof (to_N_octet lo). pose proof (to_N_octet hi).
  destruct (Z.leb_spec 32768
              (Z.of_N (Byte.to_N lo) + 256 * Z.of_N (Byte.to_N hi))); lia.
Qed.

Lemma int16_pairs_range (data : list byte) :
  Forall (fun v => (-32768 <= v <= 32767)%Z) (int16_pairs data).
Proof.
  induction data as [| a | a b r IH] using list_ind2; try constructor.
  - apply int16_of_bytes_range.
  - exact IH.
Qed.

(** The mono decode at the rate of the model's audio, in one piece. *)
Lemma decodeAudioData_mono (data : list byte) (ctx : AudioContext) :
  decodeAudioData data ctx 24000 1
  = if Nat.even (List.length data) then
      match int16_pairs data with
      | [] => Thrown "NotSupportedError"
      | dataInt16 =>
          Returned (mkAudioBuffer 1 (List.length dataInt16) 24000
                      [map (fun v => v # 32768) dataInt16])
      end
    else Thrown "RangeError".
Proof.
  unfold decodeAudioData, Int16Array_of_buffer.
  destruct (Nat.even (List.length data)); [| reflexivity].
  change (Pos.to_nat 1) with 1%nat. rewrite Nat.div_1_r.
  destruct (int16_pairs data) as [| v l] eqn:E; [reflexivity |].
  cbn [List.length createBuffer numberOfChannels frames sampleRate seq map].
  unfold fill_channel. f_equal. f_equal.
  change (S (List.length l)) with (List.length (v :: l)).
  now rewrite map_nth_seq.
Qed.

Lemma int16_pairs_nth (data : list byte) :
  forall i,
    nth_error (int16_pairs data) i
    = match nth_error data (2 * i), nth_error data (2 * i + 1) with
      | Some lo, Some hi => Some (int16_of_bytes lo hi)
      | _, _ => None
      end.
Proof.
  induction data as [| a | a b r IH] using list_ind2; intro i.
  - destruct i; reflexivity.
  - destruct i as [| i]; [reflexivity |].
    replace (2 * S i)%nat with (S (S (2 * i))) by lia.
    cbn [int16_pairs nth_error]. now destruct (2 * i)%nat.
  - destruct i as [| i]; [reflexivity |].
    replace (2 * S i)%nat with (S (S (2 * i))) by lia.
    cbn [int16_pairs nth_error Nat.add]. apply IH.
Qed.

Lemma even_div2_double n : Nat.even n = true -> (2 * Nat.div2 n = n)%nat.
Proof.
  intro H. pose proof (Nat.div2_odd n) as D.
  rewrite <- Nat.negb_even, H in D. cbn in D. lia.
Qed.

(** [decodeAudioData] as both callers invoke it (24000 Hz, one channel)
    raises in two cases only: [RangeError] on an odd number of bytes,
    [NotSupportedError] on no byte at all with no frame to hold; on every
    other input it returns. *)
Theorem decodeAudioData_raises (data : list byte) (ctx : AudioContext) :
  (decodeAudioData data ctx 24000 1 = Thrown "RangeError"
   <-> Nat.odd (List.length data) = true)
  /\ (decodeAudioData data ctx 24000 1 = Thrown "NotSupportedError"
      <-> data = [])
  /\ ((exists buffer, decodeAudioData data ctx 24000 1 = Returned buffer)
      <-> Nat.even (List.length data) = true /\ data <> []).
Proof.
  rewrite decodeAudioData_mono. rewrite <- Nat.negb_even.
  destruct (Nat.even (List.length data)) eqn:E.
  - destruct data as [| a [| b r]]; cbn [int16_pairs]; [| discriminate E |];
      (split; [| split]); (split; intro H);
      first [ discriminate H
            | reflexivity
            | destruct H as [? H]; discriminate H
            | destruct H as [_ H]; now contradiction H
            | eexists; reflexivity
            | split; [reflexivity | discriminate] ].
  - (split; [| split]); (split; intro H);
      first [ discriminate H
            | reflexivity
            | subst data; discriminate E
            | destruct H as [H _]; discriminate H
            | destruct H as [? H]; discriminate H ].
Qed.

(** What [decodeAudioData] returns: one channel at 24000 Hz with one
    frame per pair of bytes; frame [i] is the little-endian signed 16-bit
    value of bytes [2i] and [2i+1] divided by 32768, hence in [-1, 1); the
    duration of the buffer is (number of bytes / 2) / 24000 seconds, as
    the double that this quotient gives. *)
Theorem decodeAudioData_samples (data : list byte) (ctx : AudioContext)
    (buffer : AudioBuffer) :
  decodeAudioData data ctx 24000 1 = Returned buffer ->
  numberOfChannels buffer = 1%positive
  /\ sampleRate buffer = 24000%positive
  /\ (2 * frames buffer = List.length data)%nat
  /\ (1 <= frames buffer)%nat
  /\ duration buffer = to_double (Z.of_nat (frames buffer) # 24000)
  /\ exists channel,
       channels buffer = [channel]
       /\ List.length channel = frames buffer
       /\ (forall i lo hi,
             nth_error data (2 * i) = Some lo ->
             nth_error data (2 * i + 1) = Some hi ->
             nth_error channel i = Some (int16_of_bytes lo hi # 32768))
       /\ Forall (fun q => -1 <= q /\ q < 1) channel.
Proof.
  rewrite decodeAudioData_mono.
  destruct (Nat.even (List.length data)) eqn:E; [| discriminate].
  pose proof (int16_pairs_length data) as L.
  pose proof (int16_pairs_range data) as R.
  pose proof (int16_pairs_nth data) as N.
  destruct (int16_pairs data) as [| v l] eqn:Ep; [discriminate |].
  intro H. injection H as <-. unfold duration.
  cbn [numberOfChannels sampleRate frames channels].
  split; [reflexivity |]. split; [reflexivity |].
  split.
  { change (2 * List.length (v :: l) = List.length data)%nat.
    rewrite L. now apply even_div2_double. }
  split; [cbn; lia |]. split; [reflexivity |].
  exists (map (fun z => z # 32768) (v :: l)).
  split; [reflexivity |]. split; [apply length_map |]. split.
  - intros i lo hi Hlo Hhi. rewrite nth_error_map, N, Hlo, Hhi. reflexivity.
  - apply Forall_map. revert R. apply Forall_impl. intros z Hz.
    unfold Qle, Qlt. cbn. lia.
Qed.

Lemma decodeAudioData_samples_witness :
  exists buffer,
    decodeAudioData [x00; x80; xff; x7f] (mkAudioContext 24000) 24000 1
    = Returned buffer
    /\ frames buffer = 2%nat
    /\ channels buffer = [[-32768 # 32768; 32767 # 32768]].
Proof.
  eexists. split; [reflexivity |].
  destruct (@decodeAudioData_samples [x00; x80; xff; x7f]
              (mkAudioContext 24000) _ eq_refl)
    as (_ & _ & Hf & _).
  split; [| reflexivity]. cbn [List.length] in Hf. cbn. reflexivity.
Defined.

(** ** Capture and playback together *)

Lemma decoded_blob (data : list number) :
  let int16 := map (fun x => ToInt16 (number_mul x 32768)) data in
  decodeBase64 (blob_data (createPcmBlob data)) = Some (Uint8Array_of_Int16 int16)
  /\ Nat.even (List.length (Uint8Array_of_Int16 int16)) = true
  /\ int16_pairs (Uint8Array_of_Int16 int16) = int16.
Proof.
  intro int16. split; [apply decode_encode |].
  assert (H : Int16Array_of_buffer (Uint8Array_of_Int16 int16) = Some int16).
  { apply Int16Array_of_Uint8Array. subst int16.
    apply Forall_map, Forall_forall. intros x _. apply ToInt16_range. }
  unfold Int16Array_of_buffer in H.
  destruct (Nat.even (List.length (Uint8Array_of_Int16 int16)));
    [| discriminate H].
  split; [reflexivity | congruence].
Qed.

Lemma truncated_below (x : Q) :
  0 <= x ->
  Qtrunc (x * 32768) # 32768 <= x /\ x < (Qtrunc (x * 32768) + 1) # 32768.
Proof.
  intro H. rewrite Qtrunc_times_32768.
  destruct x as [n d]. unfold Qle, Qlt in *. cbn [Qnum Qden] in *.
  set (D := Zpos d) in *. assert (HD : (0 < D)%Z) by (subst D; lia).
  pose proof (Z.quot_rem' (n * 32768) D) as E.
  pose proof (Z.rem_bound_pos_pos (n * 32768) D HD ltac:(lia)).
  nia.
Qed.

Lemma truncated_above (x : Q) :
  x <= 0 ->
  x <= Qtrunc (x * 32768) # 32768 /\ (Qtrunc (x * 32768) - 1) # 32768 < x.
Proof.
  intro H. rewrite Qtrunc_times_32768.
  destruct x as [n d]. unfold Qle, Qlt in *. cbn [Qnum Qden] in *.
  set (D := Zpos d) in *. assert (HD : (0 < D)%Z) by (subst D; lia).
  pose proof (Z.quot_rem' (n * 32768) D) as E.
  pose proof (Z.rem_bound_pos_neg (n * 32768) D HD ltac:(lia)).
  nia.
Qed.

(** A captured frame that is encoded by [createPcmBlob], decoded by
    [decodeBase64] and turned into a buffer by [decodeAudioData] comes back
    with one sample per sample; a sample [x] with [-1 <= x < 1] comes back as
    the multiple of 1/32768 next to [x] in the direction of zero, so less
    than 1/32768 away from it.  The empty frame does not come back: it
    has no frame for [createBuffer]. *)
Theorem pcm_loopback (data : list number) (ctx : AudioContext) :
  data <> [] ->
  exists bytes buffer,
    decodeBase64 (blob_data (createPcmBlob data)) = Some bytes
    /\ decodeAudioData bytes ctx 24000 1 = Returned buffer
    /\ frames buffer = List.length data
    /\ channels buffer
       = [map (fun x => ToInt16 (number_mul x 32768) # 32768) data]
    /\ (forall x : Q,
          -1 <= x -> x < 1 ->
          let sample := ToInt16 (number_mul (Finite x) 32768) in
          (0 <= x -> sample # 32768 <= x /\ x < (sample + 1) # 32768)
          /\ (x <= 0 -> x <= sample # 32768 /\ (sample - 1) # 32768 < x)).
Proof.
  intro Hne. destruct data as [| x0 data]; [now contradiction Hne |].
  destruct (decoded_blob (x0 :: data)) as (Hb & He & Hp). cbv zeta in *.
  eexists. eexists. split; [exact Hb |].
  rewrite decodeAudioData_mono, He, Hp.
  cbn [map]. split; [reflexivity |].
  split; [cbn [frames List.length]; now rewrite length_map |].
  split; [cbn [channels map]; now rewrite map_map |].
  intros x Hlo Hhi. cbn [number_mul].
  rewrite ToInt16_small by now apply Qtrunc_in_range.
  split; [apply truncated_below | apply truncated_above].
Qed.

Lemma pcm_loopback_witness :
  exists buffer,
    decodeAudioData
      [x00; x40; x00; xc0] (mkAudioContext 24000) 24000 1 = Returned buffer
    /\ decodeBase64 (blob_data (createPcmBlob [Finite (1 # 2); Finite (- (1 # 2))]))
       = Some [x00; x40; x00; xc0]
    /\ channels buffer = [[16384 # 32768; -16384 # 32768]].
Proof.
  destruct (@pcm_loopback [Finite (1 # 2); Finite (- (1 # 2))]
              (mkAudioContext 24000) ltac:(discriminate))
    as (bytes & buffer & Hb & Hd & _ & Hc & _).
  exists buffer.
  assert (E : bytes = [x00; x40; x00; xc0]).
  { apply (f_equal (fun o => match o with Some b => b | None => [] end)) in Hb.
    rewrite <- Hb. vm_compute. reflexivity. }
  rewrite E in Hd, Hb.
  split; [exact Hd |]. split; [exact Hb | exact Hc].
Defined.

(** ** Frames with samples that are not numbers *)

Lemma Uint8Array_of_Int16_length (int16 : list Z) :
  List.length (Uint8Array_of_Int16 int16) = (2 * List.length int16)%nat.
Proof.
  unfold Uint8Array_of_Int16.
  induction int16 as [| v l IH]; [reflexivity |].
  cbn [flat_map int16_bytes app List.length]. rewrite IH. lia.
Qed.

Lemma int16_of_bytes_zero lo hi :
  int16_of_bytes lo hi = 0%Z -> lo = x00 /\ hi = x00.
Proof.
  unfold int16_of_bytes. cbv zeta.
  pose proof (to_N_octet lo). pose proof (to_N_octet hi).
  destruct (Z.leb_spec 32768
              (Z.of_N (Byte.to_N lo) + 256 * Z.of_N (Byte.to_N hi)));
    intro E; [lia |].
  assert (Hlo : Byte.to_N lo = 0%N) by lia.
  assert (Hhi : Byte.to_N hi = 0%N) by lia.
  split.
  - rewrite <- (uint8_to_N lo), Hlo. reflexivity.
  - rewrite <- (uint8_to_N hi), Hhi. reflexivity.
Qed.

(** [createPcmBlob] never raises.  A frame of [n] samples gives the
    base64 text of [2n] bytes; a sample that is [NaN] or infinite gives the
    two bytes 0, 0 (silence), as the store into an [Int16Array] turns it
    into 0; the empty frame gives the empty text. *)
Theorem createPcmBlob_non_finite (data : list number) :
  exists bytes,
    decodeBase64 (blob_data (createPcmBlob data)) = Some bytes
    /\ List.length bytes = (2 * List.length data)%nat
    /\ (forall i x,
          nth_error data i = Some x ->
          (x = NaN \/ exists negative, x = Infinity negative) ->
          nth_error bytes (2 * i) = Some x00
          /\ nth_error bytes (2 * i + 1) = Some x00)
    /\ (data = [] -> blob_data (createPcmBlob data) = ""%string).
Proof.
  destruct (decoded_blob data) as (Hb & _ & Hp). cbv zeta in *.
  eexists. split; [exact Hb |].
  split; [now rewrite Uint8Array_of_Int16_length, length_map |].
  split; [| intros ->; reflexivity].
  intros i x Hx Hnan.
  pose proof (int16_pairs_nth
                (Uint8Array_of_Int16
                   (map (fun x => ToInt16 (number_mul x 32768)) data)) i) as N.
  rewrite Hp, nth_error_map, Hx in N. cbn [option_map] in N.
  assert (Z0 : ToInt16 (number_mul x 32768) = 0%Z).
  { destruct Hnan as [-> | [negative ->]]; reflexivity. }
  rewrite Z0 in N.
  destruct (nth_error _ (2 * i)) as [lo |]; [| discriminate N].
  destruct (nth_error _ (2 * i + 1)) as [hi |]; [| discriminate N].
  injection N as N. symmetry in N.
  destruct (int16_of_bytes_zero _ _ N) as [-> ->]. split; reflexivity.
Qed.

(** ** The text that [encodeBase64] writes *)

Lemma string_length_of_list (l : list ascii) :
  String.length (string_of_list_ascii l) = List.length l.
Proof. induction l as [| c l IH]; [reflexivity |]. cbn. now rewrite IH. Qed.

Lemma encode_octets_size (l : list N) :
  List.length (Base64.encode_octets l) = (4 * ((List.length l + 2) / 3))%nat.
Proof.
  induction l as [| a | a b | a b c r IH] using list_ind3; try reflexivity.
  cbn [Base64.encode_octets List.length]. rewrite IH.
  replace (S (S (S (List.length r))) + 2)%nat
    with (1 * 3 + (List.length r + 2))%nat by lia.
  rewrite Nat.div_add_l by discriminate. lia.
Qed.

Lemma get_beyond (s : string) :
  forall n, (String.length s <= n)%nat -> String.get n s = None.
Proof.
  induction s as [| c s IH]; intros n H; [reflexivity |].
  destruct n as [| n]; [cbn in H; lia |]. cbn. apply IH. cbn in H. lia.
Qed.

Lemma sextet_char_base64 (n : N) : base64_char (Base64.sextet_char n).
Proof.
  left. destruct (N.lt_ge_cases n 64) as [H | H].
  - destruct (Base64Facts.sextet_char_sound H) as [S _]. rewrite S. discriminate.
  - unfold Base64.sextet_char. rewrite get_beyond; [discriminate |].
    change (String.length Base64.alphabet) with 64%nat. lia.
Qed.

Lemma encode_octets_chars (l : list N) :
  Forall base64_char (Base64.encode_octets l).
Proof.
  induction l as [| a | a b | a b c r IH] using list_ind3;
    cbn [Base64.encode_octets];
    repeat first [ apply Forall_nil
                 | exact IH
                 | apply Forall_cons; [first [apply sextet_char_base64 | now right] |] ].
Qed.

(** [encodeBase64] never raises.  Its text has four characters
    for every three bytes begun, all of them from the base64 alphabet or
    the padding character; in particular no line break. *)
Theorem encodeBase64_text (bytes : list byte) :
  String.length (encodeBase64 bytes)
  = (4 * ((List.length bytes + 2) / 3))%nat
  /\ Forall base64_char (list_ascii_of_string (encodeBase64 bytes))
  /\ Forall (fun c => Base64.is_ascii_whitespace c = false)
            (list_ascii_of_string (encodeBase64 bytes)).
Proof.
  unfold encodeBase64. rewrite binary_of_bytes. cbn [append].
  unfold Base64.btoa.
  rewrite !list_ascii_of_string_of_list_ascii, string_length_of_list.
  rewrite encode_octets_size, !length_map.
  split; [reflexivity |]. split; [apply encode_octets_chars |].
  set (l := map N_of_ascii _).
  assert (Hl : Base64.octets l).
  { subst l. rewrite map_map. apply Forall_map, Forall_forall. intros b _.
    rewrite N_ascii_embedding by apply to_N_octet. apply to_N_octet. }
  pose proof (Base64Facts.encode_octets_no_whitespace Hl) as F.
  apply Forall_forall. intros c Hc. rewrite <- F in Hc.
  apply filter_In in Hc. destruct Hc as [_ Hc].
  now apply negb_true_iff.
Qed.

(** ** The active set *)

Section KeepsRules.

Variable Q : nat -> LiveAssistantState -> Prop.

Lemma keeps_ret A (a : A) : Keeps Q (ret a).
Proof. intros w H; exact H. Qed.

Lemma keeps_throw A e : Keeps Q (@throw A e).
Proof. intros w H; exact H. Qed.

Lemma keeps_lift A (r : Result A) : Keeps Q (lift r).
Proof. intros w H; exact H. Qed.

Lemma keeps_get : Keeps Q get.
Proof. intros w H; exact H. Qed.

Lemma keeps_emit e : Keeps Q (emit e).
Proof. intros w H; exact H. Qed.

Lemma keeps_promise_then p r : Keeps Q (promise_then p r).
Proof. intros w H; destruct p; exact H. Qed.

Lemma keeps_assign f :
  (forall n s, Q n s -> Q n (f s)) -> Keeps Q (assign f).
Proof. intros Hf w H. apply Hf, H. Qed.

Lemma keeps_bind A B (m : Handler A) (k : A -> Handler B) :
  Keeps Q m -> (forall a, Keeps Q (k a)) -> Keeps Q (bind m k).
Proof.
  intros Hm Hk w H. specialize (Hm w H).
  unfold after, bind in *. destruct (m w) as [[a | e] w']; cbn in *.
  - now apply Hk.
  - exact Hm.
Qed.

Lemma keeps_try_catch A (body : Handler A) handler :
  Keeps Q body -> (forall e, Keeps Q (handler e)) ->
  Keeps Q (try_catch body handler).
Proof.
  intros Hb Hh w H. specialize (Hb w H).
  unfold after, try_catch in *. destruct (body w) as [[a | e] w']; cbn in *.
  - exact Hb.
  - now apply Hh.
Qed.

Lemma keeps_forEach A (l : list A) f :
  (forall x, Keeps Q (f x)) -> Keeps Q (forEach l f).
Proof.
  intro Hf. induction l as [| x l IH]; cbn [forEach].
  - apply keeps_ret.
  - apply keeps_bind; [apply Hf | intros _; exact IH].
Qed.

Lemma keeps_stop source : Keeps Q (stop source).
Proof.
  unfold stop. destruct (started source);
    [apply keeps_emit | apply keeps_throw].
Qed.

End KeepsRules.

Ltac keep :=
  repeat first
    [ apply keeps_ret
    | apply keeps_throw
    | apply keeps_lift
    | apply keeps_get
    | apply keeps_emit
    | apply keeps_promise_then
    | apply keeps_stop
    | apply keeps_forEach; intro
    | apply keeps_bind; [| intro]
    | apply keeps_try_catch; [| intro]
    | apply keeps_assign; intros ? ? ?
    | match goal with
      | |- Keeps _ (match ?x with _ => _ end) => destruct x
      end ].

Lemma handles_fresh_other (f : LiveAssistantState -> LiveAssistantState) n s :
  activeAudioSources (f s) = activeAudioSources s ->
  handles_fresh n s -> handles_fresh n (f s).
Proof. unfold handles_fresh. now intros ->. Qed.

Lemma handles_fresh_empty n s : handles_fresh n (set_activeAudioSources s []).
Proof. split; constructor. Qed.

Ltac keep_fresh :=
  keep;
  first [ apply handles_fresh_empty
        | apply handles_fresh_other; [reflexivity | assumption] ].

Lemma Set_has_fresh n (l : list AudioBufferSourceNode) :
  Forall (fun x => (source_id x < n)%nat) l -> Set_has n l = false.
Proof.
  unfold Set_has. induction 1 as [| x l Hx _ IH]; [reflexivity |].
  cbn [existsb]. rewrite IH, orb_false_r. apply Nat.eqb_neq. lia.
Qed.

Lemma Set_add_fresh n buffer (l : list AudioBufferSourceNode) :
  Forall (fun x => (source_id x < n)%nat) l ->
  Set_add (mkSource n buffer true) l = l ++ [mkSource n buffer true].
Proof.
  intro H. unfold Set_add. cbn [source_id]. now rewrite (Set_has_fresh H).
Qed.

Lemma scheduled_fresh audioBuffer clock w :
  handles_fresh (created w) (state w) ->
  handles_fresh (created (scheduled audioBuffer clock w))
                (state (scheduled audioBuffer clock w)).
Proof.
  intros [Hlt Hnd]. unfold scheduled, handles_fresh. simpl_world.
  rewrite (Set_add_fresh _ Hlt). split.
  - apply Forall_app. split.
    + revert Hlt. apply Forall_impl. intros x Hx. lia.
    + constructor; [cbn; lia | constructor].
  - rewrite map_app. cbn [map source_id].
    apply NoDup_app; [exact Hnd | repeat constructor; intros [] |].
    intros i Hi [<- | []].
    apply in_map_iff in Hi. destruct Hi as (x & Hx & Hin).
    rewrite Forall_forall in Hlt. specialize (Hlt x Hin). lia.
Qed.

Lemma processAudio_keeps (Q : nat -> LiveAssistantState -> Prop) r message :
  (forall w audioBuffer,
     Q (created w) (state w) ->
     Q (created (scheduled audioBuffer (currentTime r) w))
       (state (scheduled audioBuffer (currentTime r) w))) ->
  Keeps Q (processAudio r message).
Proof.
  intros H w Hw. unfold after. rewrite processAudio_cases.
  unfold audio_outcome.
  destruct (audioPayload message) as [base64 |];
    destruct (outputAudioContext (state w)) as [ctx |];
    destruct (outputGainNode (state w)) as [gain |]; try exact Hw.
  destruct (truthy base64); [| exact Hw].
  destruct (decodeBase64 base64) as [bytes |]; [| exact Hw].
  destruct (decodeAudioData bytes ctx 24000 1) as [audioBuffer | e];
    [| exact Hw].
  now apply H.
Qed.

Lemma stopConversation_fresh : Keeps handles_fresh stopConversation.
Proof. unfold stopConversation. keep_fresh. Qed.

Lemma startConversation_fresh : Keeps handles_fresh startConversation.
Proof. unfold startConversation. keep_fresh. Qed.

Lemma startConversation_resume_fresh env :
  Keeps handles_fresh (startConversation_resume env).
Proof.
  unfold startConversation_resume.
  apply keeps_try_catch; [keep_fresh | intro e].
  do 3 (apply keeps_bind; [keep_fresh | intro]).
  apply stopConversation_fresh.
Qed.

Lemma onopen_fresh : Keeps handles_fresh onopen.
Proof. unfold onopen. keep_fresh. Qed.

Lemma onaudioprocess_fresh inputData :
  Keeps handles_fresh (onaudioprocess inputData).
Proof. unfold onaudioprocess. keep_fresh. Qed.

Lemma onerror_fresh e : Keeps handles_fresh (onerror e).
Proof.
  unfold onerror. apply keeps_bind; [apply keeps_emit | intro].
  apply stopConversation_fresh.
Qed.

Lemma onclose_fresh : Keeps handles_fresh onclose.
Proof.
  unfold onclose. apply keeps_bind; [apply keeps_emit | intro].
  apply stopConversation_fresh.
Qed.

Lemma Set_delete_fresh source n s :
  handles_fresh n s ->
  handles_fresh n (set_activeAudioSources s
                     (Set_delete source (activeAudioSources s))).
Proof.
  intros [Hlt Hnd]. unfold handles_fresh, Set_delete. simpl_world. split.
  - apply Forall_forall. intros x Hx. apply filter_In in Hx.
    rewrite Forall_forall in Hlt. now apply Hlt.
  - clear Hlt. induction (activeAudioSources s) as [| x l IH]; [constructor |].
    cbn [map] in Hnd. inversion Hnd as [| ? ? Hx Hl]; subst.
    cbn [filter]. destruct (negb (source_id x =? source)%nat).
    + cbn [map]. constructor; [| now apply IH].
      intro Hin. apply Hx. apply in_map_iff in Hin.
      destruct Hin as (y & Ey & Hy). apply filter_In in Hy.
      apply in_map_iff. exists y. now split.
    + now apply IH.
Qed.

Lemma ended_fresh source : Keeps handles_fresh (ended source).
Proof.
  unfold ended. apply keeps_assign. intros n s. apply Set_delete_fresh.
Qed.

Lemma fulfil_fresh p session : Keeps handles_fresh (fulfil p session).
Proof.
  intros w Hw. unfold after, fulfil.
  apply (@keeps_forEach handles_fresh _
           (map snd (filter (registered_on p) (reactions w)))
           (run_reaction session)).
  - intro r. destruct r; cbn [run_reaction]; keep_fresh.
  - exact Hw.
Qed.

Lemma onmessage_fresh r message : Keeps handles_fresh (onmessage r message).
Proof.
  unfold onmessage.
  apply keeps_bind; [| intro]; [| apply keeps_bind; [| intro];
    [| apply keeps_bind; [| intro]; [| apply keeps_bind; [| intro]]]].
  - unfold processTranscription. keep_fresh.
  - unfold processTurnComplete. keep_fresh.
  - apply processAudio_keeps. intros w audioBuffer. apply scheduled_fresh.
  - unfold handleInterruption. keep_fresh.
  - unfold handleToolCalls. keep_fresh.
Qed.

Lemma reachable_fresh w : reachable w -> handles_fresh (created w) (state w).
Proof.
  induction 1 as [| w w' _ IH HS].
  - split; constructor.
  - destruct HS.
    + now apply startConversation_fresh.
    + now apply startConversation_resume_fresh.
    + now apply onopen_fresh.
    + now apply onaudioprocess_fresh.
    + now apply onmessage_fresh.
    + now apply onerror_fresh.
    + now apply onclose_fresh.
    + now apply stopConversation_fresh.
    + now apply ended_fresh.
    + now apply fulfil_fresh.
Qed.

Lemma Set_delete_absent source (l : list AudioBufferSourceNode) :
  ~ In source (map source_id l) -> Set_delete source l = l.
Proof.
  intro H. unfold Set_delete. induction l as [| x l IH]; [reflexivity |].
  cbn [filter]. destruct (Nat.eqb_spec (source_id x) source) as [E | E].
  - exfalso. apply H. left. exact E.
  - cbn [negb]. f_equal. apply IH. intro Hin. apply H. now right.
Qed.

Lemma Set_delete_gone source (l : list AudioBufferSourceNode) :
  ~ In source (map source_id (Set_delete source l)).
Proof.
  intro H. apply in_map_iff in H. destruct H as (x & E & Hx).
  apply filter_In in Hx. destruct Hx as [_ Hx].
  apply negb_true_iff, Nat.eqb_neq in Hx. contradiction.
Qed.

Lemma Set_delete_length source (l : list AudioBufferSourceNode) :
  NoDup (map source_id l) ->
  List.length (Set_delete source l)
  = (List.length l - if Set_has source l then 1 else 0)%nat.
Proof.
  unfold Set_delete, Set_has. induction l as [| x l IH]; intro H;
    [reflexivity |].
  cbn [map] in H. inversion H as [| ? ? Hx Hl]; subst.
  cbn [filter existsb List.length].
  destruct (Nat.eqb_spec (source_id x) source) as [E | E]; cbn [negb orb].
  - assert (A : ~ In source (map source_id l)) by now rewrite <- E.
    fold (Set_delete source l). rewrite (@Set_delete_absent source l A). lia.
  - cbn [List.length]. rewrite (IH Hl).
    destruct (existsb (fun y => source_id y =? source)%nat l) eqn:Ex; [| lia].
    destruct l as [| y l]; [discriminate Ex | cbn [List.length]; lia].
Qed.

(** The active set over the reachable worlds of the session.  Its
    handles are sources created earlier, each held once.  So every call of
    [playAudioBuffer] adds exactly one handle, that of the source it
    creates and starts; the [ended] listener of a source removes that handle
    and no other; and a source that ends right after it is scheduled leaves
    the set as it was. *)
Theorem active_set_handles (w : World) :
  reachable w ->
  NoDup (map source_id (activeAudioSources (state w)))
  /\ Forall (fun x => (source_id x < created w)%nat)
            (activeAudioSources (state w))
  /\ (forall audioBuffer clock outputNode next,
        let w' := after (playAudioBuffer audioBuffer clock outputNode next) w in
        activeAudioSources (state w')
        = activeAudioSources (state w)
          ++ [mkSource (created w) (Some audioBuffer) true]
        /\ activeAudioSources (state (after (ended (created w)) w'))
           = activeAudioSources (state w))
  /\ (forall source,
        let w' := after (ended source) w in
        ~ In source (map source_id (activeAudioSources (state w')))
        /\ (forall x, In x (activeAudioSources (state w)) ->
                      source_id x <> source ->
                      In x (activeAudioSources (state w')))
        /\ List.length (activeAudioSources (state w'))
           = (List.length (activeAudioSources (state w))
              - if Set_has source (activeAudioSources (state w))
                then 1 else 0)%nat).
Proof.
  intro Hr. destruct (reachable_fresh Hr) as [Hlt Hnd].
  split; [exact Hnd |]. split; [exact Hlt |]. split.
  - intros audioBuffer clock outputNode next w'. subst w'. unfold after.
    rewrite playAudioBuffer_result. cbn [snd]. unfold ended, assign.
    simpl_world. rewrite (Set_add_fresh _ Hlt). split; [reflexivity |].
    unfold Set_delete. rewrite filter_app. cbn [filter source_id].
    rewrite Nat.eqb_refl. cbn [negb]. rewrite app_nil_r.
    apply Set_delete_absent. intro Hin.
    apply in_map_iff in Hin. destruct Hin as (x & E & Hx).
    rewrite Forall_forall in Hlt. specialize (Hlt x Hx). lia.
  - intros source w'. subst w'. unfold after, ended, assign. simpl_world.
    split; [apply Set_delete_gone |]. split.
    + intros x Hx Hne. apply filter_In. split; [exact Hx |].
      now apply negb_true_iff, Nat.eqb_neq.
    + now apply Set_delete_length.
Qed.

Lemma active_set_handles_witness :
  activeAudioSources (state playing_world)
  = [mkSource 0 (Some (mkAudioBuffer 1 2 24000 [[0 # 32768; 0 # 32768]])) true]
  /\ activeAudioSources (state (after (ended 0%nat) playing_world)) = [].
Proof.
  destruct (@active_set_handles playing_world reachable_playing)
    as (_ & _ & _ & H).
  destruct (H 0%nat) as (_ & _ & L).
  split; [reflexivity |].
  destruct (activeAudioSources (state (after (ended 0%nat) playing_world)));
    [reflexivity | discriminate L].
Defined.

(** ** The history *)

Lemma whole_turns_push (h : list ChatMessage) (u a : ChatMessage) :
  chat_sender u = user ->
  chat_sender a = jarvis ->
  String.prefix (JARVIS_PREFIX ++ " ") (chat_text a) = true ->
  whole_turns h -> whole_turns (h ++ [u; a]).
Proof.
  intros Hu Ha Hp.
  induction h as [| x | x y r IH] using list_ind2; intro H.
  - cbn. auto.
  - destruct H.
  - destruct H as (H1 & H2 & H3 & H4). cbn [app whole_turns]. auto.
Qed.

Lemma prefix_append (p s : string) : String.prefix p (p ++ s) = true.
Proof.
  induction p as [| c p IH]; [now destruct s |].
  cbn. destruct (ascii_dec c c) as [_ | N]; [exact IH | now contradiction N].
Qed.

Ltac keep_turns :=
  preserve; unfold turns_kept in *; simpl_worlds;
  first [assumption | exact I].

Lemma stopConversation_turns : Preserves turns_kept stopConversation.
Proof. unfold stopConversation. keep_turns. Qed.

Lemma onmessage_turns r message : Preserves turns_kept (onmessage r message).
Proof.
  unfold onmessage.
  apply preserves_bind; [| intro]; [| apply preserves_bind; [| intro]].
  - unfold processTranscription. keep_turns.
  - unfold processTurnComplete. preserve; unfold turns_kept in *; simpl_worlds.
    apply whole_turns_push; try reflexivity; try assumption.
    cbn [chat_text]. rewrite getJarvisPrefix_constant.
    rewrite <- append_assoc. apply prefix_append.
  - apply after_turn_preserves; intros s v H; exact H.
Qed.

Lemma startConversation_turns : Preserves turns_kept startConversation.
Proof. unfold startConversation. keep_turns. Qed.

Lemma startConversation_resume_turns env :
  Preserves turns_kept (startConversation_resume env).
Proof.
  unfold startConversation_resume.
  apply preserves_try_catch; [keep_turns | intro e].
  do 3 (apply preserves_bind; [keep_turns | intro]).
  apply stopConversation_turns.
Qed.

Lemma onopen_turns : Preserves turns_kept onopen.
Proof. unfold onopen. keep_turns. Qed.

Lemma onaudioprocess_turns inputData :
  Preserves turns_kept (onaudioprocess inputData).
Proof. unfold onaudioprocess. keep_turns. Qed.

Lemma onerror_turns e : Preserves turns_kept (onerror e).
Proof.
  unfold onerror. apply preserves_bind; [apply preserves_emit | intro].
  apply stopConversation_turns.
Qed.

Lemma onclose_turns : Preserves turns_kept onclose.
Proof.
  unfold onclose. apply preserves_bind; [apply preserves_emit | intro].
  apply stopConversation_turns.
Qed.

Lemma ended_turns source : Preserves turns_kept (ended source).
Proof. unfold ended. keep_turns. Qed.

Lemma fulfil_turns p session : Preserves turns_kept (fulfil p session).
Proof. apply preserves_fulfil. intros s H. exact H. Qed.

Lemma reachable_turns w : reachable w -> turns_kept (state w).
Proof.
  induction 1 as [| w w' _ IH HS]; [exact I |].
  destruct HS.
  - now apply startConversation_turns.
  - now apply startConversation_resume_turns.
  - now apply onopen_turns.
  - now apply onaudioprocess_turns.
  - now apply onmessage_turns.
  - now apply onerror_turns.
  - now apply onclose_turns.
  - now apply stopConversation_turns.
  - now apply ended_turns.
  - now apply fulfil_turns.
Qed.

Lemma whole_turns_even (h : list ChatMessage) :
  whole_turns h -> Nat.even (List.length h) = true.
Proof.
  induction h as [| x | x y r IH] using list_ind2; intro H.
  - reflexivity.
  - destruct H.
  - cbn [List.length Nat.even]. apply IH, H.
Qed.

Lemma whole_turns_nth (h : list ChatMessage) :
  whole_turns h ->
  forall k m,
    nth_error h k = Some m ->
    if Nat.even k then chat_sender m = user
    else chat_sender m = jarvis
         /\ String.prefix (JARVIS_PREFIX ++ " ") (chat_text m) = true.
Proof.
  induction h as [| x | x y r IH] using list_ind2; intros H k m Hk.
  - destruct k; discriminate Hk.
  - destruct H.
  - destruct H as (H1 & H2 & H3 & H4).
    destruct k as [| [| k]].
    + injection Hk as <-. exact H1.
    + injection Hk as <-. split; assumption.
    + cbn [nth_error] in Hk. cbn [Nat.even]. now apply IH.
Qed.

(** In every reachable world the history is made of whole turns: it has
    an even number of entries, the entries at even positions are the
    user's, and those at odd positions are the assistant's and begin with
    the persona prefix followed by a space.  [turns] therefore loses no
    entry: the history has two entries for each turn. *)
Theorem history_whole_turns (w : World) :
  reachable w ->
  let history := transcriptionHistory (state w) in
  Nat.even (List.length history) = true
  /\ List.length history = (2 * List.length (turns history))%nat
  /\ (forall k m,
        nth_error history k = Some m ->
        if Nat.even k then chat_sender m = user
        else chat_sender m = jarvis
             /\ String.prefix (JARVIS_PREFIX ++ " ") (chat_text m) = true).
Proof.
  intros Hr history. pose proof (reachable_turns Hr) as H.
  unfold turns_kept in H. fold history in H.
  split; [now apply whole_turns_even |]. split; [| now apply whole_turns_nth].
  clear Hr. induction history as [| x | x y r IH] using list_ind2.
  - reflexivity.
  - destruct H.
  - cbn [turns List.length]. rewrite IH by apply H. lia.
Qed.

Lemma history_whole_turns_witness :
  let w := after (onmessage readings0 turn_complete_message) spoken_world in
  List.length (transcriptionHistory (state w)) = 2%nat
  /\ exists m, nth_error (transcriptionHistory (state w)) 1 = Some m
               /\ String.prefix "Indeed, Sir. " (chat_text m) = true.
Proof.
  intro w.
  assert (Hr : reachable w).
  { eapply reachable_step; [apply reachable_spoken | apply step_onmessage]. }
  destruct (@history_whole_turns w Hr) as (_ & _ & H).
  split; [reflexivity |].
  eexists. split; [reflexivity |].
  apply (H 1%nat _ eq_refl).
Defined.

(** ** A start that fails *)

Lemma emit_run (e : Event) w :
  emit e w
  = (Returned tt, mkWorld (state w) (trace w ++ [e]) (reactions w) (created w)).
Proof. reflexivity. Qed.

(** The [catch] block of [startConversation]. *)
Lemma catch_run (error : string) w :
  Forall (fun x => started x = true) (activeAudioSources (state w)) ->
  (emit (onError (JARVIS_ERROR_PREFIX ++ " Failed to start live session: "
                    ++ error)) ;;
   assign (fun s => set_isConnecting s false) ;;
   assign (fun s => set_isConnected s false) ;;
   stopConversation) w
  = (Returned tt,
     mkWorld (released (state w))
             (trace w
              ++ [onError (JARVIS_ERROR_PREFIX
                             ++ " Failed to start live session: " ++ error)]
              ++ released_events (state w))
             (reactions w ++ closing (state w)) (created w)).
Proof.
  intro Hs.
  erewrite bind_returned by apply emit_run.
  erewrite bind_returned by apply assign_run.
  erewrite bind_returned by apply assign_run.
  rewrite stopConversation_run by (simpl_world; exact Hs).
  simpl_world. rewrite <- app_assoc. reflexivity.
Qed.

Lemma bind_thrown A B (m : Handler A) (k : A -> Handler B) w e w' :
  m w = (Thrown e, w') -> bind m k w = (Thrown e, w').
Proof. intro E. unfold bind. now rewrite E. Qed.

Ltac run_step :=
  first [ erewrite bind_returned by (first [apply assign_run | apply emit_run | reflexivity])
        | erewrite bind_thrown by reflexivity ];
  simpl_world.

Ltac failed_here Hs :=
  cbv iota; rewrite catch_run by (simpl_world; exact Hs);
  split;
  [ unfold released, released_events, closing; simpl_world;
    rewrite <- ?app_assoc; reflexivity |];
  split; [apply released_Idle |];
  intros (M & I & O & P & S & G & A);
  unfold released_events; simpl_world;
  rewrite ?M, ?I, ?O, ?P, ?S, ?G, ?A; cbn [map app];
  rewrite <- ?app_assoc; reflexivity.

(** A start that fails, in any state that the session can reach.  When
    a call of the [try] block raises (the microphone is refused, a context
    cannot be made, the client cannot be made), [startConversation] does
    not raise.  The calls it makes from then on are, in this order: the
    report of the error through [onError], once, and the release by
    [stopConversation] of what the state then holds, which includes what
    this start had acquired.  The state is left idle, with the session
    promise as it was.  When nothing was held before the start, what is
    released is exactly what this start acquired: every track of its
    stream is stopped, each context it made is closed, and the gain node is
    disconnected if it was made. *)
Theorem failed_start_releases (env : Startup) (w : World) (error : string) :
  reachable w ->
  startup_error env = Some error ->
  let report :=
    onError (JARVIS_ERROR_PREFIX ++ " Failed to start live session: " ++ error) in
  startConversation_resume env w
  = (Returned tt,
     mkWorld (released (state w))
             (trace w ++ wired env ++ [report]
              ++ released_events (acquired env (state w)))
             (reactions w ++ closing (state w)) (created w))
  /\ Idle (released (state w))
  /\ (nothing_held (state w) ->
      trace (after (startConversation_resume env) w)
      = trace w ++ wired env ++ [report] ++ handed_back env).
Proof.
  intros Hr He report. subst report. unfold after.
  destruct (reachable_consistent Hr) as [Hs _].
  destruct env as [gum nic noc ngg lc].
  unfold startup_error in He. unfold acquired, wired, handed_back.
  cbn [getUserMedia newInputAudioContext newOutputAudioContext newGoogleGenAI] in *.
  unfold startConversation_resume, try_catch.
  cbn [getUserMedia newInputAudioContext newOutputAudioContext newGoogleGenAI
       live_connect].
  destruct gum as [stream | e1];
    [| injection He as <-; run_step; failed_here Hs].
  do 2 run_step.
  destruct nic as [ictx | e2];
    [| injection He as <-; run_step; failed_here Hs].
  do 2 run_step.
  destruct noc as [octx | e3];
    [| injection He as <-; run_step; failed_here Hs].
  do 4 run_step.
  destruct ngg as [[] | e4]; [discriminate He |].
  injection He as <-. run_step. failed_here Hs.
Qed.

(** The microphone and both contexts are obtained and the client cannot
    be made: the gain node had been connected; the error is reported
    once; the two tracks are stopped, both contexts closed and the gain
    node disconnected; nothing else is called. *)
Lemma failed_start_releases_witness :
  let w := after startConversation initial_world in
  reachable w
  /\ startup_error startup_no_client = Some "An API Key must be set"%string
  /\ nothing_held (state w)
  /\ startConversation_resume startup_no_client w
     = (Returned tt,
        mkWorld (released (state w))
          [node_connect OutputGain OutputDestination;
           onError "System status: Operational anomaly detected. Failed to start live session: An API Key must be set";
           track_stop 0; track_stop 1;
           context_close (mkAudioContext 16000);
           context_close (mkAudioContext 24000);
           node_disconnect OutputGain]
          [] 0%nat).
Proof.
  intro w.
  assert (Hr : reachable w).
  { eapply reachable_step; [apply reachable_initial | apply step_startConversation]. }
  destruct (@failed_start_releases startup_no_client w
              "An API Key must be set" Hr eq_refl)
    as (E & _ & _).
  split; [exact Hr |]. split; [reflexivity |].
  split; [repeat split |]. rewrite E. reflexivity.
Defined.

(** ** A start that succeeds *)

Lemma state_ext (s s' : LiveAssistantState) :
  isConnecting s = isConnecting s' ->
  isConnected s = isConnected s' ->
  transcriptionHistory s = transcriptionHistory s' ->
  currentInputTranscription s = currentInputTranscription s' ->
  currentOutputTranscription s = currentOutputTranscription s' ->
  microphoneStream s = microphoneStream s' ->
  inputAudioContext s = inputAudioContext s' ->
  outputAudioContext s = outputAudioContext s' ->
  inputScriptProcessor s = inputScriptProcessor s' ->
  inputAudioSource s = inputAudioSource s' ->
  outputGainNode s = outputGainNode s' ->
  playbackNextStartTime s = playbackNextStartTime s' ->
  activeAudioSources s = activeAudioSources s' ->
  sessionPromise s = sessionPromise s' ->
  s = s'.
Proof.
  destruct s, s'. cbn. intros. subst. reflexivity.
Qed.

Lemma ret_run A (a : A) w : ret a w = (Returned a, w).
Proof. reflexivity. Qed.

(** From a state that is neither connected nor connecting, a start whose
    calls all succeed, followed by the opening of the channel, leaves the
    session connected with every device and node in place, the capture
    graph and the output gain connected, an empty history and empty
    partials, nothing scheduled, and the promise of the new session in
    [sessionPromise].  Between the start and the opening the session is
    connecting and not connected. *)
Theorem session_opens (env : Startup) (w : World)
    (stream : MediaStream) (ictx octx : AudioContext) :
  isConnected (state w) || isConnecting (state w) = false ->
  getUserMedia env = Returned stream ->
  newInputAudioContext env = Returned ictx ->
  newOutputAudioContext env = Returned octx ->
  newGoogleGenAI env = Returned tt ->
  let w1 := after startConversation w in
  let w2 := after (startConversation_resume env) w1 in
  let w3 := after onopen w2 in
  fst (startConversation w) = Returned Awaiting
  /\ isConnecting (state w1) = true
  /\ isConnected (state w1) = false
  /\ fst (startConversation_resume env w1) = Returned tt
  /\ isConnecting (state w2) = true
  /\ isConnected (state w2) = false
  /\ fst (onopen w2) = Returned tt
  /\ state w3
     = {| isConnecting := false;
          isConnected := true;
          transcriptionHistory := [];
          currentInputTranscription := "";
          currentOutputTranscription := "";
          microphoneStream := Some stream;
          inputAudioContext := Some ictx;
          outputAudioContext := Some octx;
          inputScriptProcessor := Some (mkScriptProcessor 4096 true);
          inputAudioSource := Some mediaStreamSource;
          outputGainNode := Some gainNode;
          playbackNextStartTime := 0;
          activeAudioSources := [];
          sessionPromise := Some (live_connect env) |}
  /\ trace w3
     = trace w ++ [node_connect OutputGain OutputDestination;
                   node_connect InputSource ScriptProcessor;
                   node_connect ScriptProcessor InputDestination]
  /\ reactions w3 = reactions w.
Proof.
  intros Hidle Hg Hi Ho Hc w1 w2 w3.
  assert (Hflags : isConnected (state w) = false /\ isConnecting (state w) = false)
    by now apply orb_false_iff.
  destruct Hflags as [Hf1 Hf2].
  assert (E1 : exists W, startConversation w = (Returned Awaiting, W)
                         /\ state W = mkState true false [] "" ""
                                        (microphoneStream (state w))
                                        (inputAudioContext (state w))
                                        (outputAudioContext (state w))
                                        (inputScriptProcessor (state w))
                                        (inputAudioSource (state w))
                                        (outputGainNode (state w)) 0 []
                                        (sessionPromise (state w))
                         /\ trace W = trace w /\ reactions W = reactions w).
  { unfold startConversation. rewrite bind_get, Hidle.
    do 6 run_step. rewrite ret_run. eexists. split; [reflexivity |].
    split; [apply state_ext; simpl_world; auto | split; reflexivity]. }
  destruct E1 as (W1 & E1 & S1 & T1 & R1).
  assert (W1eq : w1 = W1) by (subst w1; unfold after; now rewrite E1).
  assert (E2 : exists W, startConversation_resume env W1 = (Returned tt, W)
                         /\ state W = mkState true false [] "" ""
                                        (Some stream) (Some ictx) (Some octx)
                                        (inputScriptProcessor (state w))
                                        (inputAudioSource (state w))
                                        (Some gainNode) 0 []
                                        (Some (live_connect env))
                         /\ trace W = trace w ++ [node_connect OutputGain OutputDestination]
                         /\ reactions W = reactions w).
  { unfold startConversation_resume, try_catch. rewrite Hg, Hi, Ho, Hc.
    do 9 run_step. rewrite assign_run. cbv iota. eexists.
    split; [reflexivity |]. simpl_world. rewrite T1, R1.
    split; [apply state_ext; simpl_world; rewrite ?S1; reflexivity
           | split; reflexivity]. }
  destruct E2 as (W2 & E2 & S2 & T2 & R2).
  assert (W2eq : w2 = W2) by (subst w2; unfold after; now rewrite W1eq, E2).
  assert (E3 : exists W, onopen W2 = (Returned tt, W)
                         /\ state W = mkState false true [] "" ""
                                        (Some stream) (Some ictx) (Some octx)
                                        (Some (mkScriptProcessor 4096 true))
                                        (Some mediaStreamSource)
                                        (Some gainNode) 0 []
                                        (Some (live_connect env))
                         /\ trace W = trace w ++ [node_connect OutputGain OutputDestination;
                                                 node_connect InputSource ScriptProcessor;
                                                 node_connect ScriptProcessor InputDestination]
                         /\ reactions W = reactions w).
  { unfold onopen. do 2 run_step. rewrite bind_get. simpl_world. rewrite S2.
    simpl_world. do 4 run_step. rewrite emit_run. eexists.
    split; [reflexivity |]. simpl_world. rewrite T2, R2.
    rewrite <- !app_assoc.
    split; [apply state_ext; simpl_world; rewrite ?S2; reflexivity
           | split; reflexivity]. }
  destruct E3 as (W3 & E3 & S3 & T3 & R3).
  assert (W3eq : w3 = W3) by (subst w3; unfold after; now rewrite W2eq, E3).
  rewrite E1, W1eq, E2, W2eq, E3, W3eq, S1, S2, S3, T3, R3.
  repeat split.
Qed.

Lemma session_opens_witness :
  state active_world
  = {| isConnecting := false;
       isConnected := true;
       transcriptionHistory := [];
       currentInputTranscription := "";
       currentOutputTranscription := "";
       microphoneStream := Some (mkMediaStream [0%nat]);
       inputAudioContext := Some (mkAudioContext 16000);
       outputAudioContext := Some (mkAudioContext 24000);
       inputScriptProcessor := Some (mkScriptProcessor 4096 true);
       inputAudioSource := Some mediaStreamSource;
       outputGainNode := Some gainNode;
       playbackNextStartTime := 0;
       activeAudioSources := [];
       sessionPromise := Some 1%nat |}.
Proof.
  destruct (@session_opens startup_ok initial_world (mkMediaStream [0%nat])
              (mkAudioContext 16000) (mkAudioContext 24000)
              eq_refl eq_refl eq_refl eq_refl eq_refl)
    as (_ & _ & _ & _ & _ & _ & _ & H & _).
  exact H.
Defined.

(** ** Captured frames *)

Lemma capture_run (frames : list (list number)) :
  forall w,
    capture frames w
    = (Returned tt,
       mkWorld (state w) (trace w)
               (reactions w
                ++ match sessionPromise (state w) with
                   | Some p =>
                       map (fun f => (p, thenSendRealtimeInput (createPcmBlob f)))
                           frames
                   | None => []
                   end)
               (created w)).
Proof.
  unfold capture. induction frames as [| f frames IH]; intro w; cbn [forEach].
  - rewrite ret_run. destruct (sessionPromise (state w));
      cbn [map]; now rewrite app_nil_r, world_eta.
  - unfold onaudioprocess at 1. unfold bind at 1. rewrite bind_get.
    unfold promise_then.
    destruct (sessionPromise (state w)) as [p |] eqn:Ep.
    + rewrite IH. simpl_world. rewrite Ep. cbn [map].
      now rewrite <- app_assoc.
    + rewrite IH. rewrite Ep. reflexivity.
Qed.

Lemma filter_registered_frames p (frames : list (list number)) :
  filter (registered_on p)
         (map (fun f => (p, thenSendRealtimeInput (createPcmBlob f))) frames)
  = map (fun f => (p, thenSendRealtimeInput (createPcmBlob f))) frames.
Proof.
  induction frames as [| f frames IH]; [reflexivity |].
  cbn [map filter]. unfold registered_on at 1. cbn [fst].
  rewrite Nat.eqb_refl. now rewrite IH.
Qed.

(** Frames captured while the session promise is set are queued on it,
    one [sendRealtimeInput] per frame: when the promise is fulfilled they
    are sent after what was queued before, in the order of capture, each as
    the blob of [createPcmBlob].  Capture changes no field of the state and
    makes no call by itself.  Frames captured while [sessionPromise] is
    [null] are dropped: nothing is queued and nothing is reported. *)
Theorem frames_sent_in_order (frames : list (list number)) (w : World) :
  let w' := after (capture frames) w in
  fst (capture frames w) = Returned tt
  /\ state w' = state w
  /\ trace w' = trace w
  /\ (sessionPromise (state w) = None -> w' = w)
  /\ (forall p session,
        sessionPromise (state w) = Some p ->
        reactions w'
        = reactions w
          ++ map (fun f => (p, thenSendRealtimeInput (createPcmBlob f))) frames
        /\ trace (after (fulfil p session) w')
           = trace w
             ++ map (event_of_reaction session)
                    (map snd (filter (registered_on p) (reactions w)))
             ++ map (fun f => session_sendRealtimeInput session (createPcmBlob f))
                    frames).
Proof.
  intro w'. subst w'. unfold after. rewrite capture_run. cbn [fst snd].
  simpl_world. split; [reflexivity |]. split; [reflexivity |].
  split; [reflexivity |]. split.
  - intros ->. now rewrite app_nil_r, world_eta.
  - intros p session ->. split; [reflexivity |].
    rewrite fulfil_run. cbn [snd trace reactions].
    rewrite filter_app, filter_registered_frames, !map_app, !map_map.
    reflexivity.
Qed.

(** ** The channel opens after the session was stopped *)

Lemma onopen_idle w :
  microphoneStream (state w) = None ->
  onopen w
  = (Returned tt,
     mkWorld (set_isConnecting (set_isConnected (state w) true) false)
             (trace w) (reactions w) (created w)).
Proof.
  intro H. unfold onopen. do 2 run_step. rewrite bind_get. simpl_world.
  rewrite H. destruct (inputAudioContext (state w)); reflexivity.
Qed.

(** When [stopConversation] is called while the channel is still being
    set up and the channel opens afterwards, [onopen] does not raise and
    marks the session connected although every device and node has been
    released: nothing is captured, no node is connected, and a new
    [startConversation] is rejected as long as the state stays so. *)
Theorem opening_after_stop (w : World) :
  reachable w ->
  let w1 := after stopConversation w in
  let w2 := after onopen w1 in
  fst (onopen w1) = Returned tt
  /\ isConnected (state w2) = true
  /\ isConnecting (state w2) = false
  /\ microphoneStream (state w2) = None
  /\ inputAudioContext (state w2) = None
  /\ outputAudioContext (state w2) = None
  /\ inputScriptProcessor (state w2) = None
  /\ inputAudioSource (state w2) = None
  /\ outputGainNode (state w2) = None
  /\ trace w2 = trace w1
  /\ reactions w2 = reactions w1
  /\ fst (startConversation w2) = Returned Done
  /\ state (after startConversation w2) = state w2.
Proof.
  intros Hr w1 w2. destruct (reachable_consistent Hr) as [Hs _].
  assert (E1 : w1 = mkWorld (released (state w))
                            (trace w ++ released_events (state w))
                            (reactions w ++ closing (state w)) (created w)).
  { subst w1. unfold after. now rewrite stopConversation_run. }
  assert (E2 : onopen w1
               = (Returned tt,
                  mkWorld (set_isConnecting (set_isConnected (state w1) true) false)
                          (trace w1) (reactions w1) (created w1))).
  { apply onopen_idle. rewrite E1. reflexivity. }
  assert (E2' : w2 = mkWorld (set_isConnecting (set_isConnected (state w1) true) false)
                             (trace w1) (reactions w1) (created w1)).
  { subst w2. unfold after. now rewrite E2. }
  assert (C : isConnected (state w2) = true).
  { rewrite E2'. reflexivity. }
  assert (E3 : startConversation w2
               = (Returned Done,
                  mkWorld (state w2)
                    (trace w2 ++ [onError (JARVIS_ERROR_PREFIX
                                             ++ " Live session already in progress.")])
                    (reactions w2) (created w2))).
  { unfold startConversation. rewrite bind_get, C. cbn [orb].
    run_step. apply ret_run. }
  rewrite E2. unfold after at 1. rewrite E3. cbn [fst snd state].
  rewrite E2'. simpl_world. rewrite E1. simpl_world.
  repeat split.
Qed.

Lemma opening_after_stop_witness :
  let w2 := after onopen (after stopConversation connecting_world) in
  isConnecting (state connecting_world) = true
  /\ isConnected (state w2) = true
  /\ microphoneStream (state w2) = None
  /\ fst (startConversation w2) = Returned Done.
Proof.
  intro w2.
  destruct (@opening_after_stop connecting_world reachable_connecting)
    as (_ & Hc & _ & Hm & _ & _ & _ & _ & _ & _ & _ & Hd & _).
  split; [reflexivity |]. split; [exact Hc |]. split; [exact Hm | exact Hd].
Defined.

(** ** Teardown from the channel *)

(** An error or the close of the channel, in any reachable world: the
    handler does not raise; it first notifies the caller, once, through
    [onError] (with the error prefix and the text of the error) or through
    [onClose], and then releases as [stopConversation] does, in its order:
    the tracks of the microphone, the input context, the output context,
    the processor, the input source, the gain node, the sources that are
    playing; the closing of the channel is left to the callback registered
    on the session promise. *)
Theorem channel_teardown (w : World) (e : string) :
  reachable w ->
  onerror e w
  = (Returned tt,
     mkWorld (released (state w))
             (trace w
              ++ [onError (JARVIS_ERROR_PREFIX
                             ++ " Live session encountered an error: " ++ e)]
              ++ released_events (state w))
             (reactions w ++ closing (state w)) (created w))
  /\ onclose w
     = (Returned tt,
        mkWorld (released (state w))
                (trace w ++ [onClose] ++ released_events (state w))
                (reactions w ++ closing (state w)) (created w)).
Proof.
  intro Hr. destruct (reachable_consistent Hr) as [Hs _].
  unfold onerror, onclose. split.
  - erewrite bind_returned by apply emit_run.
    rewrite stopConversation_run by exact Hs.
    simpl_world. now rewrite <- app_assoc.
  - erewrite bind_returned by apply emit_run.
    rewrite stopConversation_run by exact Hs.
    simpl_world. now rewrite <- app_assoc.
Qed.

Lemma channel_teardown_witness :
  trace (after onclose active_world)
  = trace active_world
    ++ [onClose; track_stop 0; context_close (mkAudioContext 16000);
        context_close (mkAudioContext 24000);
        node_disconnect ScriptProcessor; node_disconnect InputSource;
        node_disconnect OutputGain]
  /\ reactions (after onclose active_world) = [(1%nat, thenClose)].
Proof.
  destruct (@channel_teardown active_world "" reachable_active) as [_ H].
  unfold after. rewrite H. split; reflexivity.
Defined.

(** ** Partial transcripts *)

Lemma delta_run r (isUser : bool) (text : string) w :
  onmessage r (delta_message isUser text) w
  = (Returned tt,
     if truthy text then
       if isUser then
         mkWorld (set_currentInputTranscription (state w)
                    (currentInputTranscription (state w) ++ text))
                 (trace w ++ [onTranscription
                                (currentInputTranscription (state w) ++ text) true])
                 (reactions w) (created w)
       else
         mkWorld (set_currentOutputTranscription (state w)
                    (currentOutputTranscription (state w) ++ text))
                 (trace w ++ [onTranscription
                                (currentOutputTranscription (state w) ++ text) false])
                 (reactions w) (created w)
     else w).
Proof.
  unfold onmessage.
  assert (Rest : forall w0,
             (processTurnComplete r (delta_message isUser text) ;;
              processAudio r (delta_message isUser text) ;;
              handleInterruption (delta_message isUser text) ;;
              handleToolCalls (delta_message isUser text)) w0
             = (Returned tt, w0)).
  { intro w0. destruct isUser; reflexivity. }
  destruct isUser; unfold delta_message, processTranscription;
    cbn [input_delta output_delta content_only content_field serverContent
         outputTranscription inputTranscription transcription_text];
    destruct (truthy text).
  - unfold bind at 1. unfold bind at 1, assign at 1, get, emit.
    unfold bind at 1. simpl_world. apply (Rest _).
  - unfold bind at 1, ret at 1. apply (Rest _).
  - unfold bind at 1. unfold bind at 1, assign at 1, get, emit.
    unfold bind at 1. simpl_world. apply (Rest _).
  - unfold bind at 1, ret at 1. apply (Rest _).
Qed.

Lemma concat_cons (d : string) (ds : list string) :
  String.concat "" (d :: ds) = (d ++ String.concat "" ds)%string.
Proof.
  destruct ds as [| x xs]; cbn [String.concat].
  - now rewrite append_nil_r.
  - reflexivity.
Qed.

Lemma falsy_empty (s : string) : truthy s = false -> s = ""%string.
Proof.
  unfold truthy. intro H. apply negb_false_iff in H. now apply String.eqb_eq.
Qed.

(** The partial transcript of a speaker is the concatenation of the
    deltas in the order of arrival.  For deltas of one speaker arriving one
    message after the other: no message raises; the speaker's partial
    grows by the deltas in order while the other partial and the history
    stay as they are; the caller is notified once for every delta that is
    not empty, with the whole partial as it then stands, and not at all for
    an empty delta. *)
Theorem partial_accumulates (r : Readings) (isUser : bool)
    (deltas : list string) (w : World) :
  let w' := after (hear r isUser deltas) w in
  let spoken := String.concat "" deltas in
  fst (hear r isUser deltas w) = Returned tt
  /\ currentInputTranscription (state w')
     = (if isUser then currentInputTranscription (state w) ++ spoken
        else currentInputTranscription (state w))%string
  /\ currentOutputTranscription (state w')
     = (if isUser then currentOutputTranscription (state w)
        else currentOutputTranscription (state w) ++ spoken)%string
  /\ transcriptionHistory (state w') = transcriptionHistory (state w)
  /\ trace w'
     = trace w
       ++ notifications isUser
            (if isUser then currentInputTranscription (state w)
             else currentOutputTranscription (state w))
            deltas.
Proof.
  cbv zeta. revert w. unfold hear, after.
  induction deltas as [| d ds IH]; intro w.
  - cbn [forEach String.concat notifications]. rewrite ret_run. cbn [fst snd].
    rewrite !append_nil_r, app_nil_r. destruct isUser; repeat split.
  - cbn [forEach notifications]. rewrite concat_cons.
    erewrite bind_returned by apply delta_run.
    destruct (truthy d) eqn:Hd.
    + destruct isUser;
        match goal with
        | |- context [forEach ds _ ?W] =>
            destruct (IH W) as (I1 & I2 & I3 & I4 & I5)
        end;
        rewrite I1, I2, I3, I4, I5; simpl_world;
        rewrite ?append_assoc, <- ?app_assoc; repeat split.
    + apply falsy_empty in Hd. subst d. cbn [append].
      apply IH.
Qed.

(** ** What a message leaves alone *)

Ltac keep_session :=
  preserve; unfold session_fields in *; simpl_worlds; assumption.

(** Whatever the message and whether the handler returns or raises,
    [onmessage] leaves the connection flags, the microphone, the two
    contexts, the processor, the input source, the gain node and the session
    promise as they were.  The same holds for the capture of a frame and for
    the end of a source. *)
Theorem message_leaves_session (r : Readings) (message : LiveServerMessage)
    (w : World) :
  session_fields (state (after (onmessage r message) w)) = session_fields (state w)
  /\ (forall inputData,
        session_fields (state (after (onaudioprocess inputData) w))
        = session_fields (state w))
  /\ (forall source,
        session_fields (state (after (ended source) w)) = session_fields (state w)).
Proof.
  split; [| split].
  - refine ((_ : Preserves (fun s => session_fields s = session_fields (state w))
                           (onmessage r message)) w eq_refl).
    unfold onmessage.
    apply preserves_bind; [| intro]; [| apply preserves_bind; [| intro]].
    + unfold processTranscription. keep_session.
    + unfold processTurnComplete. keep_session.
    + apply after_turn_preserves; intros s v H; exact H.
  - intro inputData.
    refine ((_ : Preserves (fun s => session_fields s = session_fields (state w))
                           (onaudioprocess inputData)) w eq_refl).
    unfold onaudioprocess. keep_session.
  - intro source.
    refine ((_ : Preserves (fun s => session_fields s = session_fields (state w))
                           (ended source)) w eq_refl).
    unfold ended. keep_session.
Qed.

(** ** A closing callback that runs late *)

Lemma closes_in p (l : list (Promise * Reaction)) :
  In (p, thenClose) l ->
  closes (map snd (filter (registered_on p) l)) = true.
Proof.
  intro H. unfold closes. apply existsb_exists. exists thenClose.
  split; [| reflexivity].
  apply in_map_iff. exists (p, thenClose). split; [reflexivity |].
  apply filter_In. split; [exact H |].
  unfold registered_on. cbn [fst]. apply Nat.eqb_refl.
Qed.

Lemma tool_message_run r calls w :
  onmessage r (tool_message calls) w
  = (Returned tt,
     mkWorld (state w) (trace w)
             (reactions w ++ tool_reactions (sessionPromise (state w)) calls)
             (created w)).
Proof.
  unfold onmessage.
  change (processTranscription (tool_message calls)) with (@ret unit tt).
  change (processTurnComplete r (tool_message calls)) with (@ret unit tt).
  change (handleInterruption (tool_message calls)) with (@ret unit tt).
  erewrite bind_returned by apply ret_run.
  erewrite bind_returned by apply ret_run.
  erewrite bind_returned by (rewrite processAudio_cases; reflexivity).
  erewrite bind_returned by apply ret_run.
  apply handleToolCalls_run.
Qed.

(** The callback that [stopConversation] registers assigns [null] to
    [sessionPromise] whenever it runs.  If promise [p] still has such a
    callback pending when it is fulfilled, [sessionPromise] is [null]
    afterwards whatever it held, also the promise of a session started in
    between; the session of [p] is closed.  From then on captured frames
    are dropped and tool-call requests get no response, as long as
    [sessionPromise] stays [null]. *)
Theorem late_close_clears_promise (w : World) (p : Promise) (session : nat) :
  In (p, thenClose) (reactions w) ->
  let w' := after (fulfil p session) w in
  fst (fulfil p session w) = Returned tt
  /\ sessionPromise (state w') = None
  /\ In (session_close session) (trace w')
  /\ (forall frames, after (capture frames) w' = w')
  /\ (forall r calls,
        fst (onmessage r (tool_message calls) w') = Returned tt
        /\ after (onmessage r (tool_message calls)) w' = w').
Proof.
  intros Hin w'.
  assert (E : w' = mkWorld (set_sessionPromise (state w) None)
                     (trace w
                      ++ map (event_of_reaction session)
                           (map snd (filter (registered_on p) (reactions w))))
                     (filter (fun entry => negb (registered_on p entry))
                             (reactions w))
                     (created w)).
  { subst w'. unfold after. rewrite fulfil_run. cbn [snd].
    now rewrite (closes_in _ _ Hin). }
  assert (N : sessionPromise (state w') = None) by (rewrite E; reflexivity).
  split; [now rewrite fulfil_run |]. split; [exact N |]. split.
  - rewrite E. cbn [trace]. apply in_or_app. right.
    apply (in_map (event_of_reaction session) _ thenClose).
    apply in_map_iff. exists (p, thenClose). split; [reflexivity |].
    apply filter_In. split; [exact Hin |].
    unfold registered_on. cbn [fst]. apply Nat.eqb_refl.
  - split.
    + intro frames. unfold after. rewrite capture_run, N. cbn [snd].
      now rewrite app_nil_r, world_eta.
    + intros r calls. unfold after. rewrite tool_message_run, N.
      cbn [fst snd tool_reactions]. split; [reflexivity |].
      now rewrite app_nil_r, world_eta.
Qed.

Lemma late_close_clears_promise_witness :
  let restarted :=
    after onopen
      (after (startConversation_resume startup_again)
         (after startConversation (after stopConversation connecting_world))) in
  sessionPromise (state restarted) = Some 2%nat
  /\ isConnected (state (after (fulfil 1%nat 5%nat) restarted)) = true
  /\ sessionPromise (state (after (fulfil 1%nat 5%nat) restarted)) = None.
Proof.
  intro restarted.
  assert (Hin : In (1%nat, thenClose) (reactions restarted))
    by (left; reflexivity).
  destruct (@late_close_clears_promise restarted 1%nat 5%nat Hin)
    as (_ & H & _).
  split; [reflexivity |]. split; [reflexivity | exact H].
Defined.

(** ** [TaskService] *)

Module TaskServiceFacts.

Import TaskService.

(** *** Identifiers *)

Lemma to_uint_not_Nil (n : N) : N.to_uint n <> Decimal.Nil.
Proof.
  intro H. pose proof (DecimalN.Unsigned.of_to n) as E.
  rewrite H in E. cbn in E. subst n. discriminate H.
Qed.

(** The number that a text of decimal digits stands for. *)
Lemma read_decimal (n : N) :
  option_map N.of_uint (NilZero.uint_of_string (decimal n)) = Some n.
Proof.
  unfold decimal. rewrite NilZero.usu by apply to_uint_not_Nil.
  cbn [option_map]. now rewrite DecimalN.Unsigned.of_to.
Qed.

Lemma read_zero_first (s : string) (n : N) :
  option_map N.of_uint (NilZero.uint_of_string s) = Some n ->
  option_map N.of_uint (NilZero.uint_of_string (String "0" s)) = Some n.
Proof.
  destruct s as [| c s]; [discriminate |].
  cbn [NilZero.uint_of_string].
  change (NilEmpty.uint_of_string (String "0" (String c s)))
    with (uint_of_char "0" (NilEmpty.uint_of_string (String c s))).
  destruct (NilEmpty.uint_of_string (String c s)) as [d |]; [| discriminate].
  cbn. auto.
Qed.

Lemma read_padded (n : N) :
  option_map N.of_uint (NilZero.uint_of_string (padStart 3 "0" (decimal n)))
  = Some n.
Proof.
  pose proof (read_decimal n) as R. unfold padStart.
  destruct (decimal n) as [| a [| b [| c s]]];
    cbn [String.length Nat.leb Nat.sub fill append].
  - discriminate R.
  - now do 2 apply read_zero_first.
  - now apply read_zero_first.
  - exact R.
Qed.

Lemma new_id_injective (n m : N) : new_id n = new_id m -> n = m.
Proof.
  unfold new_id. intro H. cbn in H. injection H as H.
  pose proof (read_padded n) as Rn. rewrite H, read_padded in Rn.
  now injection Rn.
Qed.

(** *** Lists *)

Lemma find_Array_set (A : Type) (p : A -> bool) (l : list A) :
  forall i old value,
    nth_error l i = Some old -> p old = false -> p value = false ->
    find p (Array_set i value l) = find p l.
Proof.
  induction l as [| x l IH]; intros i old value Hn Ho Hv;
    [now destruct i |].
  destruct i as [| i]; cbn [Array_set find nth_error] in *.
  - injection Hn as ->. now rewrite Ho, Hv.
  - destruct (p x); [reflexivity |]. now apply (IH i old).
Qed.

Lemma findIndex_find (A : Type) (p : A -> bool) (l : list A) :
  match findIndex p l with
  | Some i => exists x, nth_error l i = Some x /\ find p l = Some x /\ p x = true
  | None => find p l = None
  end.
Proof.
  induction l as [| x l IH]; [reflexivity |].
  cbn [findIndex find]. destruct (p x) eqn:Hx.
  - exists x. repeat split. exact Hx.
  - destruct (findIndex p l) as [i |]; exact IH.
Qed.

Lemma find_Array_set_first (A : Type) (p : A -> bool) (l : list A) :
  forall i old value,
    findIndex p l = Some i -> nth_error l i = Some old -> p value = true ->
    find p (Array_set i value l) = Some value.
Proof.
  induction l as [| x l IH]; intros i old value Hf Hn Hv; [discriminate Hf |].
  cbn [findIndex] in Hf. destruct (p x) eqn:Hx.
  - injection Hf as <-. cbn [Array_set find]. now rewrite Hv.
  - destruct (findIndex p l) as [j |] eqn:Hj; [| discriminate Hf].
    injection Hf as <-. cbn [Array_set find nth_error] in *.
    rewrite Hx. now apply (IH j old).
Qed.

Lemma map_Array_set (A B : Type) (f : A -> B) (l : list A) :
  forall i old value,
    nth_error l i = Some old -> f value = f old ->
    map f (Array_set i value l) = map f l.
Proof.
  induction l as [| x l IH]; intros i old value Hn Hv; [now destruct i |].
  destruct i as [| i]; cbn [Array_set map nth_error] in *.
  - injection Hn as ->. now rewrite Hv.
  - f_equal. now apply (IH i old).
Qed.

Lemma In_Array_set (A : Type) (l : list A) :
  forall i value x,
    In x (Array_set i value l) -> x = value \/ In x l.
Proof.
  induction l as [| y l IH]; intros i value x H; [now destruct i |].
  destruct i as [| i]; cbn [Array_set] in H.
  - destruct H as [<- | H]; [now left | right; now right].
  - destruct H as [<- | H]; [right; now left |].
    destruct (IH i value x H) as [-> | Hin]; [now left | right; now right].
Qed.

Lemma filter_all (A : Type) (f : A -> bool) (l : list A) :
  List.length (filter f l) = List.length l -> filter f l = l.
Proof.
  induction l as [| x l IH]; [reflexivity |].
  cbn [filter]. pose proof (filter_length_le f l) as L.
  destruct (f x); cbn [List.length]; intro H.
  - f_equal. apply IH. lia.
  - lia.
Qed.

Lemma filter_shorter (A : Type) (f : A -> bool) (l : list A) :
  (List.length (filter (fun x => negb (f x)) l) <? List.length l)%nat = true
  <-> find f l <> None.
Proof.
  rewrite Nat.ltb_lt. induction l as [| x l IH]; cbn [filter find List.length].
  - split; [lia | intro H; now contradiction H].
  - pose proof (filter_length_le (fun x => negb (f x)) l) as L.
    destruct (f x); cbn [negb List.length].
    + split; [discriminate | lia].
    + rewrite <- IH. lia.
Qed.

Lemma find_filter (A : Type) (p q : A -> bool) (l : list A) :
  (forall x, p x = true -> q x = true) ->
  find p (filter q l) = find p l.
Proof.
  intro H. induction l as [| x l IH]; [reflexivity |].
  cbn [filter find]. destruct (q x) eqn:Hq; cbn [find].
  - now rewrite IH.
  - destruct (p x) eqn:Hp; [| exact IH].
    rewrite (H x Hp) in Hq. discriminate Hq.
Qed.

Lemma find_filter_out (A : Type) (p : A -> bool) (l : list A) :
  find p (filter (fun x => negb (p x)) l) = None.
Proof.
  induction l as [| x l IH]; [reflexivity |].
  cbn [filter]. destruct (p x) eqn:Hp; cbn [negb find]; [exact IH |].
  now rewrite Hp.
Qed.

Lemma same_id_other (id id' : option string) (task : Task) :
  id' <> id -> same_id id' task = true -> same_id id task = false.
Proof.
  intros Hne H. destruct id' as [j |]; [| discriminate H].
  destruct id as [i |]; [| reflexivity].
  cbn in *. apply String.eqb_eq in H. apply String.eqb_neq.
  intro E. apply Hne. congruence.
Qed.

(** *** [createTask] *)

(** [createTask] succeeds exactly when both the description and the due
    date are given and not empty.  When it fails it answers with the error
    prefix and no task, and the store, the number of the next task
    included, is as before.  When it succeeds it appends one pending task
    with the next identifier and the given texts, and moves the counter by
    one. *)
Theorem createTask_validates (description dueDate : option string) (st : Store) :
  let result := fst (createTask description dueDate st) in
  let st' := snd (createTask description dueDate st) in
  success result = negb (falsy description || falsy dueDate)
  /\ (success result = false ->
      st' = st
      /\ data result = None
      /\ String.prefix JARVIS_ERROR_PREFIX (message result) = true)
  /\ (success result = true ->
      nextTaskId st' = (nextTaskId st + 1)%N
      /\ exists task,
           data result = Some task
           /\ tasks st' = tasks st ++ [task]
           /\ task = mkTask (new_id (nextTaskId st)) (show description)
                            (show dueDate) PENDING
           /\ message result
              = ("Task created. ID: " ++ new_id (nextTaskId st) ++ ".")%string).
Proof.
  unfold createTask, falsy.
  destruct description as [d |], dueDate as [due |];
    try destruct (truthy d); try destruct (truthy due);
    cbn [negb orb fst snd success data message];
    (split; [reflexivity |]);
    (split; intro H; [| try discriminate H]; try discriminate H);
    first [ split; [reflexivity |]; eexists; repeat split
          | repeat split ].
Qed.

Lemma find_app_last (A : Type) (p : A -> bool) (l : list A) (x : A) :
  find p l = None -> p x = true -> find p (l ++ [x]) = Some x.
Proof.
  intros Hn Hx. induction l as [| y l IH]; cbn [app find] in *.
  - now rewrite Hx.
  - destruct (p y); [discriminate Hn | now apply IH].
Qed.

Lemma find_none (A : Type) (p : A -> bool) (l : list A) :
  (forall x, In x l -> p x = false) -> find p l = None.
Proof.
  intro H. induction l as [| y l IH]; [reflexivity |].
  cbn [find]. rewrite (H y (or_introl eq_refl)). apply IH.
  intros x Hx. apply H. now right.
Qed.

Lemma next_id_unused (st : Store) :
  ids_issued st ->
  forall task, In task (tasks st) -> task_id task <> new_id (nextTaskId st).
Proof.
  intros (_ & Hf & _) task Hin E.
  rewrite Forall_forall in Hf. destruct (Hf task Hin) as (k & Hk & Ek).
  rewrite Ek in E. apply new_id_injective in E. lia.
Qed.

Lemma createTask_ids description dueDate st :
  ids_issued st -> ids_issued (snd (createTask description dueDate st)).
Proof.
  intro H. pose proof (next_id_unused H) as Hu.
  destruct H as (H1 & Hf & Hn).
  unfold createTask.
  destruct description as [d |], dueDate as [due |]; cbn [snd];
    try (repeat split; assumption).
  destruct (negb (truthy d) || negb (truthy due)); cbn [snd];
    [repeat split; assumption |].
  unfold ids_issued. cbn [tasks nextTaskId]. split; [lia |]. split.
  - apply Forall_app. split.
    + revert Hf. apply Forall_impl. intros task (k & Hk & Ek).
      exists k. split; [lia | exact Ek].
    + constructor; [| constructor]. exists (nextTaskId st). split; [lia | reflexivity].
  - rewrite map_app. cbn [map task_id].
    apply NoDup_app; [exact Hn | repeat constructor; intros [] |].
    intros i Hi [<- | []].
    apply in_map_iff in Hi. destruct Hi as (task & Et & Hin).
    exact (Hu task Hin Et).
Qed.

Lemma updateTask_cases id description dueDate status st :
  (find (same_id id) (tasks st) = None
   /\ updateTask id description dueDate status st
      = (mkResult false
           (JARVIS_ERROR_PREFIX ++ " Task with ID '" ++ show id ++ "' not found.")
           None, st))
  \/ (exists i task,
        findIndex (same_id id) (tasks st) = Some i
        /\ nth_error (tasks st) i = Some task
        /\ find (same_id id) (tasks st) = Some task
        /\ same_id id task = true
        /\ updateTask id description dueDate status st
           = (mkResult true ("Task ID '" ++ show id ++ "' updated.")
                       (Some (updated description dueDate status task)),
              mkStore (Array_set i (updated description dueDate status task)
                                 (tasks st))
                      (nextTaskId st))).
Proof.
  pose proof (findIndex_find (same_id id) (tasks st)) as F.
  unfold updateTask.
  destruct (findIndex (same_id id) (tasks st)) as [i |]; [| now left].
  destruct F as (task & Hn & Hf & Hp). right. exists i, task.
  rewrite Hn. repeat split; try assumption.
  cbv beta iota zeta. unfold updated. destruct task.
  destruct (falsy status), (falsy dueDate), (falsy description); reflexivity.
Qed.

Lemma updateTask_ids id description dueDate status st :
  ids_issued st ->
  ids_issued (snd (updateTask id description dueDate status st)).
Proof.
  intro H.
  destruct (updateTask_cases id description dueDate status st)
    as [[_ ->] | (i & task & _ & Hn & _ & _ & ->)]; [exact H |].
  destruct H as (H1 & Hf & Hd). unfold ids_issued. cbn [snd tasks nextTaskId].
  split; [exact H1 |]. split.
  - apply Forall_forall. intros x Hx. rewrite Forall_forall in Hf.
    apply In_Array_set in Hx. destruct Hx as [-> | Hx]; [| now apply Hf].
    apply (Hf task). eapply nth_error_In. exact Hn.
  - now rewrite (@map_Array_set Task string task_id (tasks st) i task
              (updated description dueDate status task) Hn eq_refl).
Qed.

Lemma deleteTask_ids id st :
  ids_issued st -> ids_issued (snd (deleteTask id st)).
Proof.
  intros (H1 & Hf & Hd).
  assert (G : ids_issued
                (mkStore (filter (fun task => negb (same_id id task)) (tasks st))
                         (nextTaskId st))).
  { unfold ids_issued. cbn [tasks nextTaskId]. split; [exact H1 |]. split.
    - apply Forall_forall. intros x Hx. apply filter_In in Hx.
      rewrite Forall_forall in Hf. now apply Hf.
    - clear Hf. induction (tasks st) as [| x l IH]; [constructor |].
      cbn [map] in Hd. inversion Hd as [| ? ? Hx Hl]; subst.
      cbn [filter]. destruct (negb (same_id id x)); [| now apply IH].
      cbn [map]. constructor; [| now apply IH].
      intro Hin. apply Hx. apply in_map_iff in Hin.
      destruct Hin as (y & Ey & Hy). apply filter_In in Hy.
      apply in_map_iff. exists y. now split. }
  unfold deleteTask. cbv zeta.
  destruct (_ <? _)%nat; exact G.
Qed.

Lemma reachable_ids st : reachable_store st -> ids_issued st.
Proof.
  induction 1 as [| d due st _ IH | id d due s st _ IH | id st _ IH].
  - split; [reflexivity |]. split; constructor.
  - now apply createTask_ids.
  - now apply updateTask_ids.
  - now apply deleteTask_ids.
Qed.

(** The identifiers of a store that the service can reach: they are
    pairwise distinct, each was issued from a smaller value of the counter,
    so the identifier that [createTask] issues next is carried by no task,
    also after tasks were deleted; the task it creates is the one that
    [getTaskById] finds under that identifier. *)
Theorem task_ids_unique (st : Store) :
  reachable_store st ->
  NoDup (map task_id (tasks st))
  /\ (forall task, In task (tasks st) ->
        exists k, (1 <= k < nextTaskId st)%N /\ task_id task = new_id k)
  /\ getTaskById (Some (new_id (nextTaskId st))) st = None
  /\ (forall description dueDate task,
        data (fst (createTask description dueDate st)) = Some task ->
        task_id task = new_id (nextTaskId st)
        /\ getTaskById (Some (task_id task))
                       (snd (createTask description dueDate st))
           = Some task).
Proof.
  intro Hr. pose proof (reachable_ids Hr) as H.
  pose proof (next_id_unused H) as Hu.
  destruct H as (H1 & Hf & Hd).
  assert (Hnone : getTaskById (Some (new_id (nextTaskId st))) st = None).
  { unfold getTaskById. apply find_none. intros x Hx. cbn [same_id].
    apply String.eqb_neq. now apply Hu. }
  split; [exact Hd |]. split; [now apply Forall_forall |].
  split; [exact Hnone |].
  intros description dueDate task.
  unfold createTask.
  destruct description as [d |], dueDate as [due |]; cbn [fst snd data];
    try discriminate.
  destruct (negb (truthy d) || negb (truthy due)); cbn [fst snd data];
    [discriminate |].
  intro E. injection E as <-. cbn [task_id]. split; [reflexivity |].
  unfold getTaskById. cbn [tasks]. apply find_app_last; [exact Hnone |].
  cbn [same_id task_id]. apply String.eqb_refl.
Qed.

Lemma task_ids_unique_witness :
  let st := snd (deleteTask (Some "TSK-001"%string)
                   (snd (createTask (Some "Report"%string)
                                    (Some "2024-12-31"%string) initial_store))) in
  tasks st = []
  /\ fst (createTask (Some "Review"%string) (Some "2025-01-15"%string) st)
     = mkResult true "Task created. ID: TSK-002."
         (Some (mkTask "TSK-002" "Review" "2025-01-15" "pending")).
Proof.
  intro st. split; [reflexivity |].
  assert (Hr : reachable_store st).
  { apply store_deleted, store_created, store_initial. }
  destruct (@task_ids_unique st Hr) as (_ & _ & _ & H).
  destruct (H (Some "Review"%string) (Some "2025-01-15"%string)
              (mkTask "TSK-002" "Review" "2025-01-15" "pending") eq_refl)
    as [_ _].
  reflexivity.
Defined.

(** *** [updateTask] *)

(** [updateTask] succeeds exactly when [getTaskById] finds a task under
    the identifier.  When it fails the store is as before.  When it
    succeeds the task found is replaced, at its place, by the task with
    the same identifier in which each text that was given and is not empty
    replaces the old one, and each text that was left out, or is empty,
    leaves the old one; that task is returned and is the one found
    afterwards.  The identifiers of the store and their order, the counter
    and what is found under any other identifier are as before. *)
Theorem updateTask_effect (id description dueDate status : option string)
    (st : Store) :
  let result := fst (updateTask id description dueDate status st) in
  let st' := snd (updateTask id description dueDate status st) in
  (success result = true <-> getTaskById id st <> None)
  /\ (success result = false -> st' = st)
  /\ nextTaskId st' = nextTaskId st
  /\ map task_id (tasks st') = map task_id (tasks st)
  /\ (forall task,
        getTaskById id st = Some task ->
        data result = Some (updated description dueDate status task)
        /\ getTaskById id st'
           = Some (updated description dueDate status task))
  /\ (forall id',
        id' <> id -> getTaskById id' st' = getTaskById id' st).
Proof.
  cbv zeta. unfold getTaskById.
  destruct (updateTask_cases id description dueDate status st)
    as [[Hf ->] | (i & task & Hi & Hn & Hf & Hp & ->)];
    rewrite Hf; cbn [fst snd success data tasks nextTaskId].
  - split; [split; [discriminate | intro H; now contradiction H] |].
    split; [reflexivity |]. split; [reflexivity |]. split; [reflexivity |].
    split; [intros task' H; discriminate H | reflexivity].
  - assert (Hu : same_id id (updated description dueDate status task) = true).
    { destruct id as [j |]; [exact Hp | discriminate Hp]. }
    split; [split; [discriminate | reflexivity] |].
    split; [discriminate |]. split; [reflexivity |].
    split; [exact (@map_Array_set Task string task_id (tasks st) i task
              (updated description dueDate status task) Hn eq_refl) |].
    split.
    + intros task' E. injection E as <-. split; [reflexivity |].
      exact (@find_Array_set_first Task (same_id id) (tasks st) i task
               (updated description dueDate status task) Hi Hn Hu).
    + intros id' Hne.
      apply (@find_Array_set Task (same_id id') (tasks st) i task
               (updated description dueDate status task) Hn).
      * destruct (same_id id' task) eqn:E; [| reflexivity].
        rewrite (same_id_other task Hne E) in Hp. discriminate Hp.
      * destruct (same_id id' (updated description dueDate status task)) eqn:E;
          [| reflexivity].
        rewrite (same_id_other _ Hne E) in Hu. discriminate Hu.
Qed.

(** *** [deleteTask] *)

Lemma deleteTask_store (id : option string) (st : Store) :
  snd (deleteTask id st)
  = mkStore (filter (fun task => negb (same_id id task)) (tasks st))
            (nextTaskId st).
Proof. unfold deleteTask. cbv zeta. now destruct (_ <? _)%nat. Qed.

Lemma deleteTask_success (id : option string) (st : Store) :
  success (fst (deleteTask id st))
  = (List.length (filter (fun task => negb (same_id id task)) (tasks st))
     <? List.length (tasks st))%nat.
Proof. unfold deleteTask. cbv zeta. cbn [tasks]. now destruct (_ <? _)%nat. Qed.

Lemma deleteTask_failed (id : option string) (st : Store) :
  success (fst (deleteTask id st)) = false -> snd (deleteTask id st) = st.
Proof.
  rewrite deleteTask_success, deleteTask_store. intro L.
  apply Nat.ltb_ge in L.
  pose proof (filter_length_le (fun task => negb (same_id id task)) (tasks st)).
  rewrite filter_all by lia. now destruct st.
Qed.

(** [deleteTask] succeeds exactly when [getTaskById] finds a task under
    the identifier.  Afterwards no task is found under it, what is found
    under any other identifier is as before, and the counter is as before,
    so that the identifier is not issued again.  When it fails the store is
    as before; a second call for the same identifier therefore fails and
    changes nothing. *)
Theorem deleteTask_effect (id : option string) (st : Store) :
  let result := fst (deleteTask id st) in
  let st' := snd (deleteTask id st) in
  (success result = true <-> getTaskById id st <> None)
  /\ getTaskById id st' = None
  /\ (forall id', id' <> id -> getTaskById id' st' = getTaskById id' st)
  /\ nextTaskId st' = nextTaskId st
  /\ (success result = false -> st' = st)
  /\ success (fst (deleteTask id st')) = false
  /\ snd (deleteTask id st') = st'.
Proof.
  cbv zeta. unfold getTaskById.
  assert (Again : success (fst (deleteTask id (snd (deleteTask id st)))) = false).
  { rewrite deleteTask_success, deleteTask_store. cbn [tasks].
    destruct (_ <? _)%nat eqn:L; [| reflexivity].
    apply filter_shorter in L. now rewrite find_filter_out in L. }
  split; [rewrite deleteTask_success; apply filter_shorter |].
  split; [rewrite deleteTask_store; apply find_filter_out |]. split.
  - intros id' Hne. rewrite deleteTask_store. cbn [tasks].
    apply find_filter. intros x Hx.
    now rewrite (same_id_other x Hne Hx).
  - split; [now rewrite deleteTask_store |].
    split; [apply deleteTask_failed |].
    split; [exact Again | now apply deleteTask_failed].
Qed.

(** *** [listTasks] *)

Lemma insert_permutation (A : Type) (cmp : A -> A -> number_or_NaN) (a : A)
    (l : list A) :
  Permutation (insert cmp a l) (a :: l).
Proof.
  induction l as [| b l IH]; cbn [insert]; [reflexivity |].
  destruct (behind cmp a b); [| reflexivity].
  rewrite IH. apply perm_swap.
Qed.

Lemma Array_sort_permutation (A : Type) (cmp : A -> A -> number_or_NaN)
    (l : list A) :
  Permutation (Array_sort cmp l) l.
Proof.
  unfold Array_sort. induction l as [| a l IH]; cbn [fold_right]; [reflexivity |].
  rewrite insert_permutation. now constructor.
Qed.

Lemma filter_filter (A : Type) (f g : A -> bool) (l : list A) :
  filter g (filter f l) = filter (fun x => f x && g x) l.
Proof.
  induction l as [| x l IH]; [reflexivity |].
  cbn [filter]. destruct (f x); cbn [filter andb]; now rewrite IH.
Qed.

Lemma filter_true (A : Type) (l : list A) : filter (fun _ => true) l = l.
Proof. induction l as [| x l IH]; [reflexivity |]. cbn. now rewrite IH. Qed.

Lemma listTasks_filtered status dueDate (l : list Task) :
  (let filteredTasks := l in
   let filteredTasks :=
     if falsy status then filteredTasks
     else filter (fun task => String.eqb (task_status task) (show status))
                 filteredTasks in
   if falsy dueDate then filteredTasks
   else filter (fun task => String.eqb (task_dueDate task) (show dueDate))
               filteredTasks)
  = filter (selected status dueDate) l.
Proof.
  cbv zeta. unfold selected.
  destruct (falsy status), (falsy dueDate); cbn [orb andb].
  - symmetry. apply filter_true.
  - reflexivity.
  - apply filter_ext. intro x. now rewrite andb_true_r.
  - apply filter_filter.
Qed.

(** [listTasks] always succeeds and leaves the store alone.  It returns
    the tasks of the store that have the given status and the given due
    date, each as often as the store holds it; a filter that is left out
    or is the empty text selects every task.  The message says that no task
    matches exactly when none is returned. *)
Theorem listTasks_selects (getTime : string -> number_or_NaN)
    (status dueDate : option string) (st : Store) :
  let result := listTasks getTime status dueDate st in
  success result = true
  /\ exists found,
       data result = Some found
       /\ Permutation found (filter (selected status dueDate) (tasks st))
       /\ (forall task,
             In task found
             <-> In task (tasks st)
                 /\ (falsy status = true \/ task_status task = show status)
                 /\ (falsy dueDate = true \/ task_dueDate task = show dueDate))
       /\ (message result = "No tasks match the specified criteria."%string
           <-> found = [])
       /\ (found <> [] -> message result = "Task roster retrieved."%string).
Proof.
  cbv zeta. unfold listTasks. rewrite listTasks_filtered.
  assert (Sel : forall task,
             In task (filter (selected status dueDate) (tasks st))
             <-> In task (tasks st)
                 /\ (falsy status = true \/ task_status task = show status)
                 /\ (falsy dueDate = true \/ task_dueDate task = show dueDate)).
  { intro task. rewrite filter_In. unfold selected.
    rewrite andb_true_iff, !orb_true_iff, !String.eqb_eq. tauto. }
  destruct (filter (selected status dueDate) (tasks st)) as [| x l] eqn:E.
  - cbn [success data message]. split; [reflexivity |]. exists [].
    split; [reflexivity |]. split; [constructor |]. split; [exact Sel |].
    split; [tauto | intro H; now contradiction H].
  - cbn [success data message]. split; [reflexivity |].
    pose proof (Array_sort_permutation (compareTasks getTime) (x :: l)) as P.
    eexists. split; [reflexivity |]. split; [exact P |]. split.
    + intro task. rewrite <- Sel. split; apply Permutation_in;
        [exact P | symmetry; exact P].
    + split; [| reflexivity]. split; [discriminate |].
      intro H. rewrite H in P. apply Permutation_nil in P. discriminate P.
Qed.

Lemma in_order_total (getTime : string -> number_or_NaN) (a b : Task) :
  well_formed getTime a -> well_formed getTime b ->
  if behind (compareTasks getTime) a b then in_order getTime b a
  else in_order getTime a b.
Proof.
  unfold well_formed, behind, compareTasks, in_order, differ, minus.
  intros [Da Sa] [Db Sb].
  destruct (getTime (task_dueDate a)) as [da |]; [| now contradiction Da].
  destruct (getTime (task_dueDate b)) as [db |]; [| now contradiction Db].
  destruct (statusOrder (task_status a)) as [sa |]; [| now contradiction Sa].
  destruct (statusOrder (task_status b)) as [sb |]; [| now contradiction Sb].
  cbv zeta. destruct (Z.eqb_spec da db) as [E | N]; cbn [negb].
  - destruct (Z.ltb_spec 0 (sa - sb)); lia.
  - destruct (Z.ltb_spec 0 (da - db)); lia.
Qed.

Lemma in_order_transitive (getTime : string -> number_or_NaN) :
  Relations_1.Transitive (in_order getTime).
Proof.
  intros a b c. unfold in_order.
  destruct (getTime (task_dueDate a)), (getTime (task_dueDate b)),
    (getTime (task_dueDate c)), (statusOrder (task_status a)),
    (statusOrder (task_status b)), (statusOrder (task_status c));
    try tauto; lia.
Qed.

Lemma insert_head (A : Type) (R : A -> A -> Prop)
    (cmp : A -> A -> number_or_NaN) (a b : A) (l : list A) :
  R b a -> HdRel R b l -> HdRel R b (insert cmp a l).
Proof.
  intros Hba H. destruct l as [| c l]; cbn [insert]; [now constructor |].
  inversion_clear H. destruct (behind cmp a c); now constructor.
Qed.

Lemma insert_sorted (getTime : string -> number_or_NaN) (a : Task)
    (l : list Task) :
  well_formed getTime a -> Forall (well_formed getTime) l ->
  Sorted (in_order getTime) l ->
  Sorted (in_order getTime) (insert (compareTasks getTime) a l).
Proof.
  intros Wa Wl Hs. induction l as [| b l IH]; cbn [insert].
  - repeat constructor.
  - inversion_clear Wl as [| ? ? Wb Wl']. inversion_clear Hs as [| ? ? Hs' Hd].
    pose proof (in_order_total Wa Wb) as T.
    destruct (behind (compareTasks getTime) a b).
    + constructor; [now apply IH |]. now apply insert_head.
    + constructor; [now constructor |]. now constructor.
Qed.

Lemma insert_Forall (A : Type) (P : A -> Prop) (cmp : A -> A -> number_or_NaN)
    (a : A) (l : list A) :
  P a -> Forall P l -> Forall P (insert cmp a l).
Proof.
  intros Ha Hl. induction Hl as [| b l Hb Hl IH]; cbn [insert].
  - now repeat constructor.
  - destruct (behind cmp a b); repeat constructor; auto.
Qed.

Lemma Array_sort_sorted (getTime : string -> number_or_NaN) (l : list Task) :
  Forall (well_formed getTime) l ->
  Sorted (in_order getTime) (Array_sort (compareTasks getTime) l)
  /\ Forall (well_formed getTime) (Array_sort (compareTasks getTime) l).
Proof.
  unfold Array_sort. induction 1 as [| a l Wa Wl [IH1 IH2]]; cbn [fold_right].
  - split; constructor.
  - split; [now apply insert_sorted | now apply insert_Forall].
Qed.

(** When every task of the store has a due date that [Date] reads and one
    of the three statuses, the tasks that [listTasks] returns are in the
    order of their dates, and those of one date in the order pending, in
    progress, completed: every task of the result is in that order with
    every later one. *)
Theorem listTasks_sorted (getTime : string -> number_or_NaN)
    (status dueDate : option string) (st : Store) :
  Forall (well_formed getTime) (tasks st) ->
  exists found,
    data (listTasks getTime status dueDate st) = Some found
    /\ StronglySorted (in_order getTime) found.
Proof.
  intro W. unfold listTasks. rewrite listTasks_filtered.
  assert (W' : Forall (well_formed getTime)
                      (filter (selected status dueDate) (tasks st))).
  { apply Forall_forall. intros x Hx. apply filter_In in Hx.
    rewrite Forall_forall in W. now apply W. }
  destruct (filter (selected status dueDate) (tasks st)) as [| x l].
  - exists []. split; [reflexivity | constructor].
  - eexists. split; [reflexivity |].
    apply Sorted_StronglySorted; [apply in_order_transitive |].
    now apply Array_sort_sorted.
Qed.

(** [listTasks_sorted] on a store of three tasks. *)
Lemma listTasks_sorted_witness :
  Forall (well_formed two_dates) (tasks three_tasks)
  /\ exists found,
       data (listTasks two_dates None None three_tasks) = Some found
       /\ StronglySorted (in_order two_dates) found.
Proof.
  assert (W : Forall (well_formed two_dates) (tasks three_tasks)).
  { repeat constructor; discriminate. }
  split; [exact W |]. exact (listTasks_sorted None None three_tasks W).
Defined.

End TaskServiceFacts.

(** ** The task command *)

Module GeminiServiceFacts.
Import TaskService GeminiService.

Lemma perform_cases getTime hour fc st :
  (performable fc = true
   /\ exists toolResult said,
        fst (perform getTime hour fc st) = Fulfilled (toolResult, said)
        /\ (String.prefix JARVIS_PREFIX said = true
            \/ String.prefix JARVIS_ERROR_PREFIX said = true))
  \/ (performable fc = false
      /\ snd (perform getTime hour fc st) = st
      /\ exists property,
           fst (perform getTime hour fc st) = Rejected (TypeError property)).
Proof.
  unfold perform, performable. rewrite getJarvisPrefix_constant.
  destruct (is_case "createTask" (fc_name fc)); cbn [orb negb].
  { destruct (fc_args fc) as [args |].
    - left. split; [reflexivity |]. destruct (createTask _ _ st).
      eexists _, _. split; [reflexivity |]. left. apply prefix_append.
    - right. split; [reflexivity |]. split; [reflexivity |]. now eexists. }
  destruct (is_case "listTasks" (fc_name fc)); cbn [orb negb].
  { destruct (fc_args fc) as [args |].
    - left. split; [reflexivity |].
      cbv zeta.
      destruct (listTasks getTime (arg_status args) (arg_dueDate args) st)
        as [[|] m [[| task rest] |]]; cbn [success data message];
        eexists _, _; (split; [reflexivity |]); left; apply prefix_append.
    - right. split; [reflexivity |]. split; [reflexivity |]. now eexists. }
  destruct (is_case "updateTask" (fc_name fc)); cbn [orb negb].
  { destruct (fc_args fc) as [args |].
    - left. split; [reflexivity |]. destruct (updateTask _ _ _ _ st).
      eexists _, _. split; [reflexivity |]. left. apply prefix_append.
    - right. split; [reflexivity |]. split; [reflexivity |]. now eexists. }
  destruct (is_case "deleteTask" (fc_name fc)); cbn [orb negb].
  { destruct (fc_args fc) as [args |].
    - left. split; [reflexivity |]. destruct (deleteTask _ st).
      eexists _, _. split; [reflexivity |]. left. apply prefix_append.
    - right. split; [reflexivity |]. split; [reflexivity |]. now eexists. }
  left. split; [now destruct (fc_args fc) |].
  eexists _, _. split; [reflexivity |]. right. apply prefix_append.
Qed.

Lemma prefix_app_l (p a b : string) :
  String.prefix p a = true -> String.prefix p (a ++ b) = true.
Proof.
  revert a. induction p as [| c p IH]; intros a H; [now destruct (a ++ b)%string |].
  destruct a as [| d a]; [discriminate H |].
  cbn in *. destruct (ascii_dec c d); [now apply IH | discriminate H].
Qed.

Lemma perform_all_cases (getTime : string -> number_or_NaN)
    (clock : nat -> nat) (round : nat) (calls : list FunctionCall)
    (toolResponses : list ToolResponse) (finalMessage : string) (st : Store) :
  let outcome :=
    perform_all getTime clock round calls toolResponses finalMessage st in
  snd outcome = performed getTime clock round calls st
  /\ (if forallb performable calls then
        exists toolResponses' finalMessage',
          fst outcome = Fulfilled (toolResponses', finalMessage')
          /\ map (fun tr => (tr_id tr, tr_name tr)) toolResponses'
             = map (fun tr => (tr_id tr, tr_name tr)) toolResponses
               ++ map (fun fc => (fc_id fc, fc_name fc)) calls
      else
        exists property, fst outcome = Rejected (TypeError property)).
Proof.
  cbv zeta. revert round toolResponses finalMessage st.
  induction calls as [| fc rest IH]; intros round toolResponses finalMessage st.
  - cbn. split; [reflexivity |]. eexists _, _. split; [reflexivity |].
    now rewrite app_nil_r.
  - cbn [perform_all performed forallb].
    destruct (perform_cases getTime (clock round) fc st)
      as [[P [toolResult [said [E _]]]] | [P [S [property E]]]]; rewrite P.
    + destruct (perform getTime (clock round) fc st) as [o st'].
      cbn [fst] in E. subst o. cbn [andb].
      specialize (IH (S round)
                     (toolResponses ++ [mkToolResponse (fc_id fc) (fc_name fc)
                                                       toolResult])
                     (finalMessage ++ said)%string st').
      destruct IH as [IH1 IH2]. split; [exact IH1 |].
      destruct (forallb performable rest); [| exact IH2].
      destruct IH2 as [trs [msg [E1 E2]]]. exists trs, msg.
      split; [exact E1 |]. rewrite E2, map_app, <- app_assoc. reflexivity.
    + destruct (perform getTime (clock round) fc st) as [o st'].
      cbn [fst snd] in *. subst o st'. cbn [andb fst snd].
      split; [reflexivity | now exists property].
Qed.

(** The loop of [handleTaskCommand] comes to its end exactly when every
    call with one of the four names has arguments.  It then holds one
    response for every call, in the order of the calls and with the
    identifier and the name of its call.  Otherwise it raises a
    [TypeError]. *)
Theorem responses_match_calls (getTime : string -> number_or_NaN)
    (clock : nat -> nat) (calls : list FunctionCall) (st : Store) :
  let outcome := fst (perform_all getTime clock 0 calls [] EmptyString st) in
  if forallb performable calls then
    exists toolResponses finalMessage,
      outcome = Fulfilled (toolResponses, finalMessage)
      /\ List.length toolResponses = List.length calls
      /\ forall i fc,
           nth_error calls i = Some fc ->
           exists tr,
             nth_error toolResponses i = Some tr
             /\ tr_id tr = fc_id fc /\ tr_name tr = fc_name fc
  else
    exists property, outcome = Rejected (TypeError property).
Proof.
  cbv zeta.
  destruct (perform_all_cases getTime clock 0 calls [] EmptyString st) as [_ H].
  destruct (forallb performable calls); [| exact H].
  destruct H as [trs [msg [E M]]]. exists trs, msg. split; [exact E |].
  cbn [map app] in M. split.
  - apply (f_equal (@List.length _)) in M. now rewrite !length_map in M.
  - intros i fc Hi.
    apply (map_nth_error (fun fc => (fc_id fc, fc_name fc))) in Hi.
    rewrite <- M in Hi. rewrite nth_error_map in Hi.
    destruct (nth_error trs i) as [tr |]; [| discriminate Hi].
    exists tr. cbn in Hi. split; [reflexivity |]. now injection Hi.
Qed.

Lemma perform_all_said getTime clock round calls toolResponses finalMessage st
    toolResponses' finalMessage' :
  fst (perform_all getTime clock round calls toolResponses finalMessage st)
  = Fulfilled (toolResponses', finalMessage') ->
  (String.prefix JARVIS_PREFIX finalMessage = true
   \/ String.prefix JARVIS_ERROR_PREFIX finalMessage = true
   \/ (finalMessage = EmptyString /\ calls <> [])) ->
  String.prefix JARVIS_PREFIX finalMessage' = true
  \/ String.prefix JARVIS_ERROR_PREFIX finalMessage' = true.
Proof.
  revert round toolResponses finalMessage st.
  induction calls as [| fc rest IH]; intros round toolResponses finalMessage st.
  - cbn. intros [= _ <-] [H | [H | [_ H]]]; [now left | now right |].
    now contradiction H.
  - cbn [perform_all].
    destruct (perform_cases getTime (clock round) fc st)
      as [[_ [toolResult [said [E Hs]]]] | [_ [_ [property E]]]];
      destruct (perform getTime (clock round) fc st) as [o st'];
      cbn [fst] in E; subst o; [| discriminate].
    intros H Hm. apply (IH _ _ _ _ H).
    destruct Hm as [Hm | [Hm | [-> _]]].
    + left. now apply prefix_app_l.
    + right. left. now apply prefix_app_l.
    + cbn [append]. destruct Hs; [now left | right; now left].
Qed.

(** Whatever the model answers and whatever fails, the reply of
    [handleTaskCommand] begins with the prefix of the persona or with the
    prefix of an error. *)
Theorem reply_has_prefix (getTime : string -> number_or_NaN)
    (clock : nat -> nat) (remote : Remote) (userQuery : string) (st : Store) :
  let reply := fst (handleTaskCommand getTime clock remote userQuery st) in
  String.prefix JARVIS_PREFIX reply = true
  \/ String.prefix JARVIS_ERROR_PREFIX reply = true.
Proof.
  cbv zeta. unfold handleTaskCommand, handleGeminiError.
  rewrite !getJarvisPrefix_constant.
  destruct (first_call remote userQuery) as [response | error];
    [| right; apply prefix_append].
  destruct (functionCalls response) as [[| fc rest] |];
    try (left; apply prefix_append).
  destruct (perform_all _ _ _ _ _ _ _) as [[[trs msg] | error] st'] eqn:E;
    [| right; apply prefix_append].
  destruct (second_call _ _ _ _) as [toolResponse | error];
    [| right; apply prefix_append].
  cbn [fst]. rewrite ?getJarvisPrefix_constant.
  destruct (falsy (text toolResponse)); [| left; apply prefix_append].
  apply (f_equal fst) in E. cbn [fst] in E.
  apply (@perform_all_said _ _ _ _ _ _ _ _ _ E).
  right. right. split; [reflexivity | discriminate].
Qed.

(** When the model answers with function calls that can all be performed
    and the second call to the model fails, the reply is the message of
    that failure, and yet the store is the one that the calls have left:
    what the calls did to the tasks is not taken back. *)
Theorem failed_reply_keeps_changes (getTime : string -> number_or_NaN)
    (clock : nat -> nat) (remote : Remote) (userQuery : string) (st : Store)
    (response : GenerateContentResponse) (calls : list FunctionCall)
    (error : Raised) :
  first_call remote userQuery = Fulfilled response ->
  functionCalls response = Some calls ->
  calls <> [] ->
  forallb performable calls = true ->
  (forall toolResponses,
     second_call remote userQuery calls toolResponses = Rejected error) ->
  handleTaskCommand getTime clock remote userQuery st
  = (handleGeminiError error, performed getTime clock 0 calls st).
Proof.
  intros E1 E2 Hne Hp Hs. unfold handleTaskCommand. rewrite E1, E2.
  destruct calls as [| fc rest]; [now contradiction Hne |]. cbv zeta.
  pose proof (perform_all_cases getTime clock 0 (fc :: rest) []
                                        EmptyString st) as H.
  cbv zeta in H. rewrite Hp in H. destruct H as [S [trs [msg [E _]]]].
  destruct (perform_all _ _ _ _ _ _ _) as [o st'].
  cbn [fst snd] in *. subst o st'. now rewrite Hs.
Qed.

(** [failed_reply_keeps_changes] on a command that creates a task: the
    reply is the message of the failure, and the task is in the store. *)
Lemma failed_reply_keeps_changes_witness :
  handleTaskCommand two_dates (fun _ => 9%nat) failing_remote
                    "remind me to file the report" initial_store
  = (handleGeminiError (Error_ "503 Service Unavailable"),
     performed two_dates (fun _ => 9%nat) 0 [create_call] initial_store)
  /\ tasks (performed two_dates (fun _ => 9%nat) 0 [create_call] initial_store)
     = [mkTask "TSK-001" "file the report" "2024-05-02" PENDING].
Proof.
  split; [| reflexivity].
  apply (@failed_reply_keeps_changes two_dates (fun _ => 9%nat) failing_remote
           "remind me to file the report" initial_store
           {| text := None; functionCalls := Some [create_call] |}
           [create_call] (Error_ "503 Service Unavailable"));
    [reflexivity | reflexivity | discriminate | reflexivity
    | intro toolResponses; reflexivity].
Defined.

End GeminiServiceFacts.

(** ** What the interface shows *)

Module JARSISOutputFacts.
Import TaskService GeminiService JARSISOutput.

Lemma substring_append (p s : string) :
  substring (String.length p) (p ++ s) = s.
Proof. induction p as [| c p IH]; [now destruct s | exact IH]. Qed.

Lemma or_else_truthy (a : option string) (b : string) :
  truthy b = true -> truthy (or_else a b) = true.
Proof.
  intro Hb. unfold or_else, falsy.
  destruct a as [s |]; [| exact Hb].
  destruct (truthy s) eqn:Hs; [exact Hs | exact Hb].
Qed.

Lemma link_text_title (url : GroundingUrl) :
  truthy (url_title url) = true -> link_text url = url_title url.
Proof. intro H. unfold link_text. now rewrite H. Qed.

(** The interface strips the prefix of the persona from a reply: of a
    reply made of the prefix, a space and a text it shows the text,
    trimmed.  A reply that reports an error keeps its prefix. *)
Theorem displayableText_of_reply :
  (forall (hour : nat) (t : string),
     displayableText (getJarvisPrefix hour ++ " " ++ t) = trim t)
  /\ (forall error : Raised,
        displayableText (handleGeminiError error)
        = trim (handleGeminiError error)).
Proof.
  split.
  - intros hour t. rewrite getJarvisPrefix_constant. unfold displayableText.
    rewrite prefix_append, substring_append. reflexivity.
  - intro error. reflexivity.
Qed.

(** Every source that [searchGrounding] or [mapsGrounding] lists has a
    title that is not empty, so the interface shows each source by its
    title and never by its address; the text of the result begins with
    the prefix of the persona.  A failed request gives the error reply. *)
Theorem sources_have_titles (hour : nat) (outcome : Outcome GroundedResponse) :
  let shown (answer : Grounded + string) :=
    match answer with
    | inl result =>
        String.prefix JARVIS_PREFIX (result_text result) = true
        /\ Forall (fun url => url_title url <> EmptyString
                              /\ link_text url = url_title url)
                  (groundingUrls result)
    | inr reply =>
        exists error, outcome = Rejected error /\ reply = handleGeminiError error
    end in
  shown (searchGrounding hour outcome) /\ shown (mapsGrounding hour outcome).
Proof.
  cbv zeta.
  assert (T : forall url, truthy (url_title url) = true ->
                          url_title url <> EmptyString
                          /\ link_text url = url_title url).
  { intros url H. split; [| now apply link_text_title].
    intro E. rewrite E in H. discriminate H. }
  unfold searchGrounding, mapsGrounding. rewrite getJarvisPrefix_constant.
  destruct outcome as [response | error]; [| split; now exists error].
  cbv zeta. cbn [result_text groundingUrls].
  split; (split; [apply prefix_append |]);
    (destruct (groundingChunks response) as [chunks |]; [| constructor]);
    apply Forall_flat_map, Forall_forall; intros chunk _.
  - destruct (web chunk) as [w |]; [| constructor].
    repeat constructor; apply T; now apply or_else_truthy.
  - destruct (maps chunk) as [m |]; [| constructor].
    constructor; [apply T; now apply or_else_truthy |].
    unfold review_urls.
    destruct (placeAnswerSources m) as [[sources |] |]; try constructor.
    apply Forall_flat_map, Forall_forall; intros source _.
    destruct (reviewSnippets source) as [snippets |]; [| constructor].
    apply Forall_flat_map, Forall_forall; intros snippet _.
    destruct (falsy (snippet_uri snippet)); [constructor |].
    repeat constructor; apply T; now apply or_else_truthy.
Qed.

End JARSISOutputFacts.
